(** * Incremental LSIF index merge: [patchData] and its helpers

    A shallow embedding of
    [enterprise/cmd/precise-code-intel-worker/internal/worker/patch.go].

    Go maps are reference values: a struct copied out of a map still
    shares the maps stored in its fields, reading a missing key yields
    the zero value, and assigning into a nil map is a run-time panic.
    The embedding keeps all three facts: a map is an optional [gmap]
    ([None] is the nil map), the bundles are an explicit store that the
    functions pass along, and an operation returns an [outcome] that
    distinguishes normal completion, a returned [error] and a panic.
    The order in which [range] walks a map is unspecified in Go; every
    such loop asks the run's schedule for the order it uses. *)

From stdpp Require Import base option list sorting gmap strings.

Local Open Scope Z_scope.

(** ** Zero values *)

Class Zero (A : Type) := zero : A.
Global Hint Mode Zero ! : typeclass_instances.

Global Instance string_zero : Zero string := EmptyString.
Global Instance list_zero {A} : Zero (list A) := [].

(** ** Go maps *)

(** [None] is the nil map: it reads like the empty map, deleting from
    it does nothing, assigning into it panics. *)
Abbreviation gomap K V := (option (gmap K V)).

Section gomap.
Context `{Countable K} {V : Type}.

Definition mlookup (m : gomap K V) (k : K) : option V := m ≫= (.!! k).

(** [m[k]]: the stored value, or the zero value of [V]. *)
Definition mget `{!Zero V} (m : gomap K V) (k : K) : V :=
  default zero (mlookup m k).

Definition mkeys (m : gomap K V) : list K :=
  from_option (λ g, (map_to_list g).*1) [] m.

(** [delete(m, k)] *)
Definition mdelete (k : K) (m : gomap K V) : gomap K V := delete k <$> m.

(** [m[k] = v]; [None] stands for the panic on a nil map. *)
Definition mstore (k : K) (v : V) (m : gomap K V) : option (gomap K V) :=
  (λ g, Some (<[k:=v]> g)) <$> m.
End gomap.

(** ** Data model (package [lsifstore], [correlation], [gitserver]) *)

Abbreviation ID := string (only parsing).

Record RangeData := mkRange {
  StartLine : Z;
  StartCharacter : Z;
  EndLine : Z;
  EndCharacter : Z;
  DefinitionResultID : ID;
  ReferenceResultID : ID;
  HoverResultID : ID;
  MonikerIDs : list ID
}.

Global Instance RangeData_zero : Zero RangeData :=
  mkRange 0 0 0 0 "" "" "" [].

(** Of a document only the range table is read or written here; its
    other tables travel with it untouched. *)
Record DocumentData := mkDoc { Ranges : gomap ID RangeData }.

Global Instance DocumentData_zero : Zero DocumentData := mkDoc None.

Record DocumentIDRangeID := mkLoc { DocumentID : ID; RangeID : ID }.

Record ResultChunkData := mkChunk {
  DocumentPaths : gomap ID string;
  DocumentIDRangeIDs : gomap ID (list DocumentIDRangeID)
}.

Global Instance ResultChunkData_zero : Zero ResultChunkData :=
  mkChunk None None.

Record MetaData := mkMeta { NumResultChunks : Z }.

Record GroupedBundleDataMaps := mkBundle {
  Meta : MetaData;
  Documents : gomap string DocumentData;
  ResultChunks : gomap Z ResultChunkData
}.

(** Modelled from the spec: [gitserver.Status] is declared outside this
    file; the spec gives it as the enumeration of these four values. *)
Inductive Status := Unchanged | Added | Modified | Deleted.

Global Instance Status_eq_dec : EqDecision Status.
Proof. solve_decision. Defined.

Inductive error :=
  | unequalUnmodifiedPathsErr
  | IDGenerationError.

(** Modelled from the spec: [lsifstore.CompareRanges] is declared outside
    this file; the spec gives the order as the ascending order of the
    tuple (startLine, startChar, endLine, endChar).  The result is
    negative, zero or positive. *)
Definition CompareRanges (a b : RangeData) : Z :=
  if StartLine a <? StartLine b then -1
  else if StartLine b <? StartLine a then 1
  else if StartCharacter a <? StartCharacter b then -1
  else if StartCharacter b <? StartCharacter a then 1
  else if EndLine a <? EndLine b then -1
  else if EndLine b <? EndLine a then 1
  else if EndCharacter a <? EndCharacter b then -1
  else if EndCharacter b <? EndCharacter a then 1
  else 0.

(** The position tuple the order is taken on. *)
Definition position (r : RangeData) : Z * Z * Z * Z :=
  (StartLine r, StartCharacter r, EndLine r, EndCharacter r).

(** ** Run-time state and outcomes *)

(** How many identifiers have been requested and how many map walks
    have been started so far. *)
Record RT := mkRT { nextID : nat; nextRange : nat }.

Inductive outcome (St A : Type) :=
  | Done (a : A) (rt : RT) (s : St)
  | Fail (e : error) (rt : RT) (s : St)
  | Panic.
Global Arguments Done {St A} a rt s.
Global Arguments Fail {St A} e rt s.
Global Arguments Panic {St A}.

Definition M (St A : Type) : Type := RT → St → outcome St A.

Global Instance M_ret {St} : MRet (M St) := λ A a rt s, Done a rt s.
Global Instance M_bind {St} : MBind (M St) := λ A B f m rt s,
  match m rt s with
  | Done a rt' s' => f a rt' s'
  | Fail e rt' s' => Fail e rt' s'
  | Panic => Panic
  end.

Definition get {St} : M St St := λ rt s, Done s rt s.
(** [return err] *)
Definition fail {St A} (e : error) : M St A := λ rt s, Fail e rt s.
Definition panic {St A} : M St A := λ _ _, Panic.

(** A store update that panics where the Go assignment does. *)
Definition update {St} (f : St → option St) : M St unit := λ rt s,
  match f s with Some s' => Done tt rt s' | None => Panic end.

(** Run a computation on a part of the store. *)
Definition zoom {St T A} (proj : St → T) (inj : T → St → St) (m : M T A) : M St A :=
  λ rt s,
    match m rt (proj s) with
    | Done a rt' t => Done a rt' (inj t s)
    | Fail e rt' t => Fail e rt' (inj t s)
    | Panic => Panic
    end.

(** A call whose returned error is dropped by the caller. *)
Definition discard_error {St} (m : M St unit) : M St unit := λ rt s,
  match m rt s with
  | Done a rt' s' => Done a rt' s'
  | Fail _ rt' s' => Done tt rt' s'
  | Panic => Panic
  end.

(** A loop over a slice, carrying the loop's local variables. *)
Fixpoint foldM {St K B} (f : B → K → M St B) (l : list K) (b : B) : M St B :=
  match l with
  | [] => mret b
  | k :: l' => b' ← f b k; foldM f l' b'
  end.

(** The store of [patchData]: the two bundles its pointers lead to. *)
Record World := mkWorld {
  base : GroupedBundleDataMaps;
  patch : GroupedBundleDataMaps
}.

Definition setDocuments (docs : gomap string DocumentData)
    (b : GroupedBundleDataMaps) : GroupedBundleDataMaps :=
  mkBundle (Meta b) docs (ResultChunks b).

Definition setResultChunks (chunks : gomap Z ResultChunkData)
    (b : GroupedBundleDataMaps) : GroupedBundleDataMaps :=
  mkBundle (Meta b) (Documents b) chunks.

Definition onBaseChunks
    (f : gomap Z ResultChunkData → option (gomap Z ResultChunkData))
    (w : World) : option World :=
  (λ c, mkWorld (setResultChunks c (base w)) (patch w)) <$> f (ResultChunks (base w)).

Definition onBaseDocuments
    (f : gomap string DocumentData → option (gomap string DocumentData))
    (w : World) : option World :=
  (λ d, mkWorld (setDocuments d (base w)) (patch w)) <$> f (Documents (base w)).

Definition onPatchDocuments
    (f : gomap string DocumentData → option (gomap string DocumentData))
    (w : World) : option World :=
  (λ d, mkWorld (base w) (setDocuments d (patch w))) <$> f (Documents (patch w)).

(** The two orders the program sorts by: keys by the rank a schedule
    gives them, and slice elements by a [less] function. *)
Definition rankLe (rank : string → nat) (a b : string) : Prop :=
  (rank a ≤ rank b)%nat.

Global Instance rankLe_dec rank a b : Decision (rankLe rank a b) :=
  decide (rank a ≤ rank b)%nat.

Definition notAfter {A} (less : A → A → bool) (a b : A) : Prop :=
  less b a = false.

Global Instance notAfter_dec {A} (less : A → A → bool) a b :
  Decision (notAfter less a b) := decide (less b a = false).

(** ** Sample inputs

    The bundles, statuses, identifier sources and schedules the examples
    at the end of the file run the program on. *)

Module Samples.

Local Open Scope string_scope.

(** With a single shard every hash modulo the shard count is 0. *)
Definition hashOne : ID → Z → Z := λ _ _, 0.

(** An ID source that hands out the given identifiers and then fails. *)
Definition idsFrom (l : list ID) : nat → option ID := λ n, l !! n.

Definition tenIDs : nat → option ID :=
  idsFrom ["u0"; "u1"; "u2"; "u3"; "u4"; "u5"; "u6"; "u7"; "u8"; "u9"].

Definition noIDs : nat → option ID := idsFrom [].

(** Three schedules: one that ranks all keys alike, so that every walk
    takes the keys as the map's representation lists them, one that
    puts [a.go] before [b.go] and one that puts [b.go] before [a.go]. *)
Definition anyOrder : nat → string → nat := λ _ _, 0%nat.

Definition aFirst : nat → string → nat :=
  λ _ k, if decide (k = "b.go") then 1%nat else 0%nat.

Definition bFirst : nat → string → nat :=
  λ _ k, if decide (k = "a.go") then 1%nat else 0%nat.

Definition rt0 : RT := mkRT 0 0.

Definition emptyChunk : ResultChunkData := mkChunk (Some ∅) (Some ∅).

Definition emptyBase : GroupedBundleDataMaps :=
  mkBundle (mkMeta 1) (Some ∅) (Some {[ 0 := emptyChunk ]}).

(** An unchanged file with one range in the base and none in the patch. *)
Definition plainRange : RangeData := mkRange 0 0 0 5 "" "" "" [].

Definition base1 : GroupedBundleDataMaps :=
  mkBundle (mkMeta 1)
    (Some {[ "a.go" := mkDoc (Some {[ "b1" := plainRange ]}) ]})
    (Some {[ 0 := emptyChunk ]}).

Definition patch1 : GroupedBundleDataMaps :=
  mkBundle (mkMeta 1) (Some {[ "a.go" := mkDoc (Some ∅) ]})
    (Some {[ 0 := emptyChunk ]}).

Definition fs1 : gmap string Status := {[ "a.go" := Unchanged ]}.

(** Two added files: [a.go] defines a symbol at range [ra], [b.go]
    refers to it at range [rb]. *)
Definition patch2 : GroupedBundleDataMaps :=
  mkBundle (mkMeta 1)
    (Some {[ "a.go" := mkDoc (Some {[ "ra" := mkRange 0 0 0 1 "D" "R" "" [] ]});
             "b.go" := mkDoc (Some {[ "rb" := mkRange 5 0 5 1 "D" "R" "" [] ]}) ]})
    (Some {[ 0 := mkChunk
                    (Some {[ "da" := "a.go"; "db" := "b.go" ]})
                    (Some {[ "D" := [mkLoc "da" "ra"];
                             "R" := [mkLoc "da" "ra"; mkLoc "db" "rb"] ]}) ]}).

Definition fs2 : gmap string Status := {[ "a.go" := Added; "b.go" := Added ]}.

(** One added file with one range that is listed under its reference
    result. *)
Definition patch3 : GroupedBundleDataMaps :=
  mkBundle (mkMeta 1)
    (Some {[ "b.go" := mkDoc (Some {[ "r1" := mkRange 2 0 2 3 "" "R" "" [] ]}) ]})
    (Some {[ 0 := mkChunk (Some {[ "db" := "b.go" ]})
                          (Some {[ "R" := [mkLoc "db" "r1"] ]}) ]}).

Definition fs3 : gmap string Status := {[ "b.go" := Added ]}.

(** A base with a file [c.go] that is deleted and a file [d.go] that
    stays: the range of [c.go] is listed under its own reference
    result [R2] and under the reference result [R9] of the range of
    [d.go]; and a patch that has a document for [c.go]. *)
Definition base7 : GroupedBundleDataMaps :=
  mkBundle (mkMeta 1)
    (Some {[ "c.go" := mkDoc (Some {[ "r2" := mkRange 1 0 1 4 "" "R2" "" [] ]});
             "d.go" := mkDoc (Some {[ "r3" := mkRange 3 0 3 4 "" "R9" "" [] ]}) ]})
    (Some {[ 0 := mkChunk
                    (Some {[ "dc" := "c.go"; "dd" := "d.go" ]})
                    (Some {[ "R2" := [mkLoc "dc" "r2"];
                             "R9" := [mkLoc "dd" "r3"; mkLoc "dc" "r2"] ]}) ]}).

Definition patch7 : GroupedBundleDataMaps :=
  mkBundle (mkMeta 1) (Some {[ "c.go" := mkDoc (Some ∅) ]})
    (Some {[ 0 := emptyChunk ]}).

Definition fs7 : gmap string Status := {[ "c.go" := Deleted ]}.

(** An unchanged file with the same range in base and patch. *)
Definition base8 : GroupedBundleDataMaps :=
  mkBundle (mkMeta 1)
    (Some {[ "a.go" := mkDoc (Some {[ "b1" := plainRange ]}) ]}) (Some ∅).

Definition patch8ok : GroupedBundleDataMaps :=
  mkBundle (mkMeta 1)
    (Some {[ "a.go" := mkDoc (Some {[ "p1" := plainRange ]}) ]})
    (Some {[ 0 := emptyChunk ]}).

(** Two added files, each defining a symbol of its own. *)
Definition patch9 : GroupedBundleDataMaps :=
  mkBundle (mkMeta 1)
    (Some {[ "a.go" := mkDoc (Some {[ "ra" := mkRange 0 0 0 1 "D1" "R1" "" [] ]});
             "b.go" := mkDoc (Some {[ "rb" := mkRange 0 0 0 1 "D2" "R2" "" [] ]}) ]})
    (Some {[ 0 := mkChunk
                    (Some {[ "da" := "a.go"; "db" := "b.go" ]})
                    (Some {[ "D1" := [mkLoc "da" "ra"]; "R1" := [mkLoc "da" "ra"];
                             "D2" := [mkLoc "db" "rb"]; "R2" := [mkLoc "db" "rb"] ]}) ]}).

(** Three candidate definitions at three positions, and two schedules
    that walk them in opposite orders. *)
Definition threeDefs : gmap ID RangeData :=
  {[ "x" := mkRange 4 0 4 2 "" "" "" [];
     "y" := mkRange 1 7 1 9 "" "" "" [];
     "z" := mkRange 1 2 1 5 "" "" "" [] ]}.

Definition xFirst : nat → string → nat :=
  λ _ k, if decide (k = "x") then 0%nat
         else if decide (k = "y") then 1%nat else 2%nat.

Definition zFirst : nat → string → nat :=
  λ _ k, if decide (k = "z") then 0%nat
         else if decide (k = "y") then 1%nat else 2%nat.

(** Both files of [base7] unchanged. *)
Definition fs78 : gmap string Status :=
  {[ "c.go" := Unchanged; "d.go" := Unchanged ]}.

(** [patch2] with the location of [b.go] in the list of [R] naming a
    range ID, [rx], that [b.go] does not have. *)
Definition patch2x : GroupedBundleDataMaps :=
  mkBundle (mkMeta 1)
    (Some {[ "a.go" := mkDoc (Some {[ "ra" := mkRange 0 0 0 1 "D" "R" "" [] ]});
             "b.go" := mkDoc (Some {[ "rb" := mkRange 5 0 5 1 "D" "R" "" [] ]}) ]})
    (Some {[ 0 := mkChunk
                    (Some {[ "da" := "a.go"; "db" := "b.go" ]})
                    (Some {[ "D" := [mkLoc "da" "ra"];
                             "R" := [mkLoc "da" "ra"; mkLoc "db" "rx"] ]}) ]}).

(** A base in which [a.go] has one range, [rng1], with the definition
    result [D1] and the reference result [R1]; a patch in which [a.go],
    unchanged, has that range under the ID [pa], and the added file
    [b.go] has a range that refers to the same definition. *)
Definition base6 : GroupedBundleDataMaps :=
  mkBundle (mkMeta 1)
    (Some {[ "a.go" := mkDoc (Some {[ "rng1" := mkRange 0 0 0 5 "D1" "R1" "" [] ]}) ]})
    (Some {[ 0 := mkChunk
                    (Some {[ "da" := "a.go" ]})
                    (Some {[ "D1" := [mkLoc "da" "rng1"];
                             "R1" := [mkLoc "da" "rng1"] ]}) ]}).

Definition patch6 : GroupedBundleDataMaps :=
  mkBundle (mkMeta 1)
    (Some {[ "a.go" := mkDoc (Some {[ "pa" := mkRange 0 0 0 5 "PD" "PR" "" [] ]});
             "b.go" := mkDoc (Some {[ "pb" := mkRange 3 0 3 5 "PD" "PR" "" [] ]}) ]})
    (Some {[ 0 := mkChunk
                    (Some {[ "pda" := "a.go"; "pdb" := "b.go" ]})
                    (Some {[ "PD" := [mkLoc "pda" "pa"];
                             "PR" := [mkLoc "pda" "pa"; mkLoc "pdb" "pb"] ]}) ]}).

Definition fs6 : gmap string Status := {[ "a.go" := Unchanged; "b.go" := Added ]}.

(** [fs7] with a status for [d.go] too. *)
Definition fs7d : gmap string Status :=
  {[ "c.go" := Deleted; "d.go" := Unchanged ]}.

(** A base with a file [c.go] that is deleted and a file [d.go] that
    stays, their ranges listed under the same reference result [R2];
    and a patch that adds [e.go]. *)
Definition base7w : GroupedBundleDataMaps :=
  mkBundle (mkMeta 1)
    (Some {[ "c.go" := mkDoc (Some {[ "r2" := mkRange 1 0 1 4 "" "R2" "" [] ]});
             "d.go" := mkDoc (Some {[ "r3" := mkRange 3 0 3 4 "" "R2" "" [] ]}) ]})
    (Some {[ 0 := mkChunk
                    (Some {[ "dc" := "c.go"; "dd" := "d.go" ]})
                    (Some {[ "R2" := [mkLoc "dc" "r2"; mkLoc "dd" "r3"] ]}) ]}).

Definition patch7w : GroupedBundleDataMaps :=
  mkBundle (mkMeta 1)
    (Some {[ "e.go" := mkDoc (Some {[ "q5" := mkRange 0 0 0 3 "PD" "PR" "" [] ]}) ]})
    (Some {[ 0 := mkChunk
                    (Some {[ "pe" := "e.go" ]})
                    (Some {[ "PD" := [mkLoc "pe" "q5"];
                             "PR" := [mkLoc "pe" "q5"] ]}) ]}).

Definition fs7w : gmap string Status :=
  {[ "c.go" := Deleted; "d.go" := Unchanged; "e.go" := Added ]}.

End Samples.

(** ** The program *)

Section patch.

(** [lsifstore.HashKey], declared outside this file: the shard a
    result identifier is stored in, given the shard count. *)
Variable HashKey : ID → Z → Z.

(** What [fileStatus[path]] yields for a path without an entry: the
    zero value of [gitserver.Status], which is one of the four named
    constants or ([None]) none of them. *)
Variable zeroStatus : option Status.

(** Whether the variable of a [for ... range] loop is one variable for
    the whole loop (Go before 1.22) or a fresh one per iteration. *)
Variable sharedLoopVar : bool.

(** The unique-ID source: the result of the n-th call of
    [uuid.NewRandom], [None] when it returns an error. *)
Variable idsrc : nat → option ID.

(** The schedule: the n-th walk over a map visits the keys in
    ascending rank. *)
Variable sched : nat → string → nat.

Definition newID {St} : M St ID := λ rt s,
  let rt' := mkRT (S (nextID rt)) (nextRange rt) in
  match idsrc (nextID rt) with
  | Some id => Done id rt' s
  | None => Fail IDGenerationError rt' s
  end.

Definition inOrder (rank : string → nat) (ks : list string) : list string :=
  merge_sort (rankLe rank) ks.

(** The keys of a map walk, in the order this walk takes them. *)
Definition rangeOver {St} (ks : list string) : M St (list string) := λ rt s,
  Done (inOrder (sched (nextRange rt)) ks)
       (mkRT (nextID rt) (S (nextRange rt))) s.

(** [for k, v := range m] *)
Definition rangeMap {St V} (m : gomap string V) : M St (list (string * V)) :=
  ks ← rangeOver (mkeys m);
  mret (omap (λ k, (k,.) <$> mlookup m k) ks).

(** [fileStatus[path]] *)
Definition statusOf (fileStatus : gmap string Status) (path : string)
    : option Status :=
  match fileStatus !! path with
  | Some st => Some st
  | None => zeroStatus
  end.

Definition isUnchanged (fileStatus : gmap string Status) (path : string) : bool :=
  bool_decide (statusOf fileStatus path = Some Unchanged).

(** [sort.Slice(x, less)]: the Go library sorts by [less] and leaves
    the order of elements that compare equal unspecified; here they
    keep the order the map walk produced them in, which is itself
    arbitrary. *)
Definition sortSlice {A} (less : A → A → bool) (x : list A) : list A :=
  merge_sort (notAfter less) x.

Definition sortedRangeIDs {St} (ranges : gomap ID RangeData) : M St (list ID) :=
  rngIDs ← rangeOver (mkeys ranges);
  mret (sortSlice
          (λ i j, CompareRanges (mget ranges i) (mget ranges j) <? 0)
          rngIDs).

Definition chunkOf (resultID : ID) (meta : MetaData) : Z :=
  HashKey resultID (NumResultChunks meta).

Definition getDefRef (resultID : ID) (meta : MetaData)
    (resultChunks : gomap Z ResultChunkData)
    : list DocumentIDRangeID * ResultChunkData :=
  let chunkID := HashKey resultID (NumResultChunks meta) in
  let chunk := mget resultChunks chunkID in
  let docRngIDs := mget (DocumentIDRangeIDs chunk) resultID in
  (docRngIDs, chunk).

(** Assignments through a chunk or a document copied out of its map:
    the copy shares the tables of the stored one, so the assignment
    shows in the store; the copy of a missing entry is the zero value,
    whose tables are nil. *)
Definition setLocations (chunkID : Z) (resultID : ID)
    (locs : list DocumentIDRangeID) (chunks : gomap Z ResultChunkData)
    : option (gomap Z ResultChunkData) :=
  chunk ← mlookup chunks chunkID;
  tbl ← mstore resultID locs (DocumentIDRangeIDs chunk);
  mstore chunkID (mkChunk (DocumentPaths chunk) tbl) chunks.

Definition setDocumentPath (chunkID : Z) (documentID : ID) (path : string)
    (chunks : gomap Z ResultChunkData) : option (gomap Z ResultChunkData) :=
  chunk ← mlookup chunks chunkID;
  tbl ← mstore documentID path (DocumentPaths chunk);
  mstore chunkID (mkChunk tbl (DocumentIDRangeIDs chunk)) chunks.

Definition setRange (path : string) (rangeID : ID) (rng : RangeData)
    (docs : gomap string DocumentData) : option (gomap string DocumentData) :=
  doc ← mlookup docs path;
  tbl ← mstore rangeID rng (Ranges doc);
  mstore path (mkDoc tbl) docs.

Definition deleteRange (path : string) (rangeID : ID)
    (docs : gomap string DocumentData) : gomap string DocumentData :=
  alter (λ doc, mkDoc (mdelete rangeID (Ranges doc))) path <$> docs.

(** *** removeRefsIn *)

Definition ownerPath (chunk : ResultChunkData) (loc : DocumentIDRangeID) : string :=
  mget (DocumentPaths chunk) (DocumentID loc).

(** The body of the inner loop.  The locals are [deletedRefs] and, for
    the statement that a list is filtered at most once, the sequence
    of result IDs whose list has been written back. *)
Definition removeRefsRange (paths : gset string) (meta : MetaData)
    (acc : gset ID * list ID) (rng : RangeData)
    : M (gomap Z ResultChunkData) (gset ID * list ID) :=
  let '(deletedRefs, written) := acc in
  if decide (ReferenceResultID rng ∈ deletedRefs) then mret acc
  else
    chunks ← get;
    let '(refs, refChunk) := getDefRef (ReferenceResultID rng) meta chunks in
    let filteredRefs :=
      filter (λ ref, ownerPath refChunk ref ∉ paths) refs in
    update (setLocations (chunkOf (ReferenceResultID rng) meta)
                         (ReferenceResultID rng) filteredRefs);;
    mret ({[ReferenceResultID rng]} ∪ deletedRefs,
          written ++ [ReferenceResultID rng]).

Definition removeRefsLoop (paths : gset string) (meta : MetaData)
    (docs : gomap string DocumentData)
    : M (gomap Z ResultChunkData) (gset ID * list ID) :=
  ps ← rangeOver (elements paths);
  foldM (λ acc path,
           let doc := mget docs path in
           rngs ← rangeMap (Ranges doc);
           foldM (λ acc kv, removeRefsRange paths meta acc kv.2) rngs acc)
        ps (∅, []).

Definition removeRefsIn (paths : gset string) (meta : MetaData)
    (docs : gomap string DocumentData) : M (gomap Z ResultChunkData) unit :=
  removeRefsLoop paths meta docs ≫= λ _, mret tt.

(** *** unifyRangeIDs *)

(** The store of [unifyRangeIDs]: [toUpdateDocs] and [toUpdateChunks]. *)
Definition onDocs {C} (f : gomap string DocumentData → option (gomap string DocumentData))
    (s : gomap string DocumentData * C) : option (gomap string DocumentData * C) :=
  (λ d, (d, s.2)) <$> f s.1.

Definition onChunks {D} (f : gomap Z ResultChunkData → option (gomap Z ResultChunkData))
    (s : D * gomap Z ResultChunkData) : option (D * gomap Z ResultChunkData) :=
  (λ c, (s.1, c)) <$> f s.2.

(** The branch for an unchanged path: pair the two documents' ranges
    in sorted order. *)
Definition unifyUnchanged {St} (updateToDoc toUpdateDoc : DocumentData)
    : M St (gmap ID ID) :=
  updateToRngIDs ← sortedRangeIDs (Ranges updateToDoc);
  toUpdateRng ← sortedRangeIDs (Ranges toUpdateDoc);
  if decide (length toUpdateRng ≠ length updateToRngIDs)
  then fail unequalUnmodifiedPathsErr
  else
    foldM (λ pathUpdatedRngIDs '(idx, updateToRngID),
             let updateToRng := mget (Ranges updateToDoc) updateToRngID in
             match toUpdateRng !! idx with
             | None => panic
             | Some toUpdateRngID =>
               let toUpdateRng' := mget (Ranges toUpdateDoc) toUpdateRngID in
               if decide (CompareRanges updateToRng toUpdateRng' ≠ 0)
               then fail unequalUnmodifiedPathsErr
               else mret (<[toUpdateRngID := updateToRngID]> pathUpdatedRngIDs)
             end)
          (imap pair updateToRngIDs) ∅.

(** The branch for any other path: one fresh ID per range, recorded in
    [updatedRngIDs]. *)
Definition unifyChanged {St} (toUpdateDoc : DocumentData)
    (updatedRngIDs : gmap ID ID) : M St (gmap ID ID) :=
  rngIDs ← rangeOver (mkeys (Ranges toUpdateDoc));
  foldM (λ updatedRngIDs rngID,
           newRngID ← newID;
           mret (<[rngID := newRngID]> updatedRngIDs))
        rngIDs updatedRngIDs.

(** The relabelling loop over [pathUpdatedRngIDs]. *)
Definition relabel (path : string) (pathUpdatedRngIDs : gmap ID ID)
    (resultsToUpdate : gset ID)
    : M (gomap string DocumentData * gomap Z ResultChunkData) (gset ID) :=
  renames ← rangeMap (Some pathUpdatedRngIDs);
  foldM (λ resultsToUpdate '(oldID, newID),
           s ← get;
           let rng := mget (Ranges (mget s.1 path)) oldID in
           update (onDocs (setRange path newID rng));;
           update (onDocs (λ docs, Some (deleteRange path oldID docs)));;
           mret ({[DefinitionResultID rng]} ∪ ({[ReferenceResultID rng]}
                   ∪ resultsToUpdate)))
        renames resultsToUpdate.

(** The body of the loop over [toUpdateDocs]; the locals are
    [updatedRngIDs] and [resultsToUpdate]. *)
Definition unifyPath (updateToDocs : gomap string DocumentData)
    (fileStatus : gmap string Status) (acc : gmap ID ID * gset ID) (path : string)
    : M (gomap string DocumentData * gomap Z ResultChunkData)
        (gmap ID ID * gset ID) :=
  let '(updatedRngIDs, resultsToUpdate) := acc in
  s ← get;
  let toUpdateDoc := mget s.1 path in
  '(pathUpdatedRngIDs, updatedRngIDs) ←
    (if isUnchanged fileStatus path then
       pathUpdatedRngIDs ← unifyUnchanged (mget updateToDocs path) toUpdateDoc;
       mret (pathUpdatedRngIDs, updatedRngIDs)
     else
       updatedRngIDs ← unifyChanged toUpdateDoc updatedRngIDs;
       mret (∅, updatedRngIDs));
  resultsToUpdate ← relabel path pathUpdatedRngIDs resultsToUpdate;
  mret (updatedRngIDs, resultsToUpdate).

(** The rewrite of one result's location list. *)
Definition renameLocation (updatedRngIDs : gmap ID ID) (result : DocumentIDRangeID)
    : DocumentIDRangeID :=
  match updatedRngIDs !! RangeID result with
  | Some updatedID =>
      {| RangeID := updatedID; DocumentID := DocumentID result |}
  | None =>
      {| RangeID := RangeID result; DocumentID := DocumentID result |}
  end.

Definition updateResult (toUpdateMeta : MetaData) (updatedRngIDs : gmap ID ID)
    (resultID : ID)
    : M (gomap string DocumentData * gomap Z ResultChunkData) unit :=
  s ← get;
  let '(results, chunk) := getDefRef resultID toUpdateMeta s.2 in
  let updated := renameLocation updatedRngIDs <$> results in
  update (onChunks (setLocations (chunkOf resultID toUpdateMeta) resultID updated)).

Definition unifyRangeIDs (updateToDocs : gomap string DocumentData)
    (toUpdateMeta : MetaData) (fileStatus : gmap string Status)
    : M (gomap string DocumentData * gomap Z ResultChunkData) unit :=
  s ← get;
  paths ← rangeOver (mkeys s.1);
  '(updatedRngIDs, resultsToUpdate) ←
    foldM (unifyPath updateToDocs fileStatus) paths (∅, ∅);
  resultIDs ← rangeOver (elements resultsToUpdate);
  foldM (λ _ resultID, updateResult toUpdateMeta updatedRngIDs resultID)
        resultIDs tt.

(** *** patchData *)

(** Lines 19-44.  The loops that build these sets only add keys, so
    the sets do not depend on the order of the walks and are given
    directly. *)
Definition modifiedOrDeleted (fileStatus : gmap string Status) : gset string :=
  dom (filter (λ kv, kv.2 = Modified ∨ kv.2 = Deleted) fileStatus).

Definition pathsToCopyOf (reindexedFiles : list string)
    (fileStatus : gmap string Status) : gset string :=
  list_to_set reindexedFiles ∪ dom (filter (λ kv, kv.2 = Added) fileStatus).

(** Step 1, lines 50-70: the definition ranges that the ranges of the
    copied documents point to, grouped by the path that owns them. *)
Definition addDefResult (p : GroupedBundleDataMaps) (defChunk : ResultChunkData)
    (defResultsByPath : gmap string (gmap ID RangeData))
    (defLoc : DocumentIDRangeID) : gmap string (gmap ID RangeData) :=
  let defPath := mget (DocumentPaths defChunk) (DocumentID defLoc) in
  let def := mget (Ranges (mget (Documents p) defPath)) (RangeID defLoc) in
  let defResults := default ∅ (defResultsByPath !! defPath) in
  <[defPath := match defResults !! RangeID defLoc with
               | Some _ => defResults
               | None => <[RangeID defLoc := def]> defResults
               end]> defResultsByPath.

Definition collectDefResults (pathsToCopy : gset string)
    : M World (gmap string (gmap ID RangeData)) :=
  w ← get;
  paths ← rangeOver (elements pathsToCopy);
  foldM (λ defResultsByPath path,
           rngs ← rangeMap (Ranges (mget (Documents (patch w)) path));
           foldM (λ defResultsByPath kv,
                    let rng : RangeData := kv.2 in
                    if decide (DefinitionResultID rng = "") then mret defResultsByPath
                    else
                      let '(defs, defChunk) :=
                        getDefRef (DefinitionResultID rng) (Meta (patch w))
                                  (ResultChunks (patch w)) in
                      mret (foldl (addDefResult (patch w) defChunk)
                                  defResultsByPath defs))
                 rngs defResultsByPath)
        paths ∅.

(** Lines 82-103: the result IDs a candidate definition is merged
    under. *)
Definition canonicalIDs {St} (fileStatus : gmap string Status) (path : string)
    (baseDoc : DocumentData) (defRngID : ID) : M St (ID * ID) :=
  if isUnchanged fileStatus path then
    let baseRng := mget (Ranges baseDoc) defRngID in
    mret (DefinitionResultID baseRng, ReferenceResultID baseRng)
  else
    defID ← newID;
    refID ← newID;
    mret (defID, refID).

(** Lines 111-118: a chunk's document table, read backwards. *)
Definition documentIDsByPath {St} (documentPaths : gomap ID string)
    : M St (gmap string ID) :=
  entries ← rangeMap documentPaths;
  mret (foldl (λ ids kv, <[kv.2 := kv.1]> ids) ∅ entries).

(** The base document ID to file a location under, lines 129-137 and
    155-163: the one on record for [path], or a new one that is
    entered both in the local table and in the chunk of [resultID]. *)
Definition baseDocumentID (path : string) (resultID : ID)
    (documentIDs : gmap string ID) : M World (ID * gmap string ID) :=
  match documentIDs !! path with
  | Some documentID => mret (documentID, documentIDs)
  | None =>
      documentID ← newID;
      w ← get;
      update (onBaseChunks
                (setDocumentPath (chunkOf resultID (Meta (base w))) documentID path));;
      mret (documentID, <[path := documentID]> documentIDs)
  end.

(** Lines 144-150: the definition location that sits at the reference
    itself.  The loop keeps the address of its variable. *)
Definition findPatchDef (patchDefChunk : ResultChunkData)
    (patchDefs : list DocumentIDRangeID) (patchPath : string) (rangeID : ID)
    : option DocumentIDRangeID :=
  let found :=
    filter (λ tmpDef, ownerPath patchDefChunk tmpDef = patchPath
                      ∧ RangeID tmpDef = rangeID) patchDefs in
  match last found with
  | None => None
  | Some tmpDef => if sharedLoopVar then last patchDefs else Some tmpDef
  end.

Record mergeLocals := mkLocals {
  baseRefs : list DocumentIDRangeID;
  baseDefs : list DocumentIDRangeID;
  baseRefDocumentIDs : gmap string ID;
  baseDefDocumentIDs : gmap string ID
}.

(** Lines 119-185: the body of the loop over [patchRefs]. *)
Definition mergeReference (fileStatus : gmap string Status)
    (pathsToCopy : gset string) (path : string) (defID refID : ID)
    (patchRefChunk : ResultChunkData) (patchDefs : list DocumentIDRangeID)
    (patchDefChunk : ResultChunkData)
    (l : mergeLocals) (patchRef : DocumentIDRangeID) : M World mergeLocals :=
  let patchPath := mget (DocumentPaths patchRefChunk) (DocumentID patchRef) in
  l ← (if isUnchanged fileStatus patchPath then mret l
       else
         '(baseRefDocumentID, ids) ← baseDocumentID path refID (baseRefDocumentIDs l);
         let patchRef' := {| DocumentID := baseRefDocumentID;
                             RangeID := RangeID patchRef |} in
         mret (mkLocals (baseRefs l ++ [patchRef']) (baseDefs l)
                        ids (baseDefDocumentIDs l)));
  l ← (if decide (length (baseDefs l) = 0%nat) then
         match findPatchDef patchDefChunk patchDefs patchPath (RangeID patchRef) with
         | None => mret l
         | Some patchDef =>
             '(baseDefDocumentID, ids) ← baseDocumentID path defID (baseDefDocumentIDs l);
             let patchDef' := {| DocumentID := baseDefDocumentID;
                                 RangeID := RangeID patchDef |} in
             mret (mkLocals (baseRefs l) (baseDefs l ++ [patchDef'])
                            (baseRefDocumentIDs l) ids)
         end
       else mret l);
  (if decide (patchPath ∈ pathsToCopy) then
     w ← get;
     let rng := mget (Ranges (mget (Documents (patch w)) patchPath)) (RangeID patchRef) in
     update (onPatchDocuments
               (setRange patchPath (RangeID patchRef)
                  {| StartLine := StartLine rng;
                     StartCharacter := StartCharacter rng;
                     EndLine := EndLine rng;
                     EndCharacter := EndCharacter rng;
                     DefinitionResultID := defID;
                     ReferenceResultID := refID;
                     HoverResultID := HoverResultID rng;
                     MonikerIDs := MonikerIDs rng |}))
   else mret tt);;
  mret l.

(** Lines 78-193: the body of the loop over the candidate definitions
    of [path]. *)
Definition mergeDefinition (fileStatus : gmap string Status)
    (pathsToCopy : gset string) (path : string) (baseDoc : DocumentData)
    (defsMap : gmap ID RangeData) (defRngID : ID) : M World unit :=
  let def := mget (Some defsMap) defRngID in
  '(defID, refID) ← canonicalIDs fileStatus path baseDoc defRngID;
  w ← get;
  let '(patchRefs, patchRefChunk) :=
    getDefRef (ReferenceResultID def) (Meta (patch w)) (ResultChunks (patch w)) in
  let '(patchDefs, patchDefChunk) :=
    getDefRef (DefinitionResultID def) (Meta (patch w)) (ResultChunks (patch w)) in
  let '(baseRefs0, baseRefChunk) :=
    getDefRef refID (Meta (base w)) (ResultChunks (base w)) in
  let '(baseDefs0, baseDefChunk) :=
    getDefRef defID (Meta (base w)) (ResultChunks (base w)) in
  refDocumentIDs0 ← documentIDsByPath (DocumentPaths baseRefChunk);
  defDocumentIDs0 ← documentIDsByPath (DocumentPaths baseDefChunk);
  l ← foldM (mergeReference fileStatus pathsToCopy path defID refID
               patchRefChunk patchDefs patchDefChunk)
            patchRefs
            (mkLocals baseRefs0 baseDefs0 refDocumentIDs0 defDocumentIDs0);
  update (onBaseChunks
            (setLocations (chunkOf refID (Meta (base w))) refID (baseRefs l)));;
  update (onBaseChunks
            (setLocations (chunkOf defID (Meta (base w))) defID (baseDefs l))).

(** Step 2, lines 73-194. *)
Definition mergeDefResults (fileStatus : gmap string Status)
    (pathsToCopy : gset string)
    (defResultsByPath : gmap string (gmap ID RangeData)) : M World unit :=
  entries ← rangeMap (Some defResultsByPath);
  foldM (λ _ kv,
           let path : string := kv.1 in
           let defsMap : gmap ID RangeData := kv.2 in
           w ← get;
           let baseDoc := mget (Documents (base w)) path in
           defIdxs ← sortedRangeIDs (Some defsMap);
           foldM (λ _ defRngID,
                    mergeDefinition fileStatus pathsToCopy path baseDoc
                                    defsMap defRngID)
                 defIdxs tt)
        entries tt.

(** The apply phase, lines 196-205. *)
Definition applyPhase (fileStatus : gmap string Status)
    (pathsToCopy : gset string) : M World unit :=
  statuses ← rangeMap (Some fileStatus);
  foldM (λ _ kv,
           if decide (kv.2 = Deleted)
           then update (onBaseDocuments (λ docs, Some (mdelete kv.1 docs)))
           else mret tt)
        statuses tt;;
  paths ← rangeOver (elements pathsToCopy);
  foldM (λ _ path,
           w ← get;
           update (onBaseDocuments
                     (mstore path (mget (Documents (patch w)) path))))
        paths tt.

Definition patchDocsChunks (w : World)
    : gomap string DocumentData * gomap Z ResultChunkData :=
  (Documents (patch w), ResultChunks (patch w)).

Definition setPatchDocsChunks
    (s : gomap string DocumentData * gomap Z ResultChunkData) (w : World) : World :=
  mkWorld (base w) (mkBundle (Meta (patch w)) s.1 s.2).

Definition baseChunks (w : World) : gomap Z ResultChunkData :=
  ResultChunks (base w).

Definition setBaseChunks (c : gomap Z ResultChunkData) (w : World) : World :=
  mkWorld (setResultChunks c (base w)) (patch w).

(** [patchData]: [Done] is [return nil], [Fail e] is [return e].  The
    error [unifyRangeIDs] returns is not looked at (line 45). *)
Definition patchData (reindexedFiles : list string)
    (fileStatus : gmap string Status) : M World unit :=
  w ← get;
  zoom baseChunks setBaseChunks
       (removeRefsIn (modifiedOrDeleted fileStatus) (Meta (base w))
                     (Documents (base w)));;
  let pathsToCopy := pathsToCopyOf reindexedFiles fileStatus in
  discard_error
    (zoom patchDocsChunks setPatchDocsChunks
          (unifyRangeIDs (Documents (base w)) (Meta (patch w)) fileStatus));;
  defResultsByPath ← collectDefResults pathsToCopy;
  mergeDefResults fileStatus pathsToCopy defResultsByPath;;
  applyPhase fileStatus pathsToCopy.

(** ** Specification vocabulary *)

(** The ascending order of position tuples. *)
Definition positionLe (a b : RangeData) : Prop :=
  StartLine a < StartLine b ∨ (StartLine a = StartLine b ∧
   (StartCharacter a < StartCharacter b ∨ (StartCharacter a = StartCharacter b ∧
     (EndLine a < EndLine b ∨ (EndLine a = EndLine b ∧
       EndCharacter a ≤ EndCharacter b))))).

(** The shard of [resultID] is present and its location table is
    allocated, so that an assignment into it does not panic. *)
Definition allocated (meta : MetaData) (chunks : gomap Z ResultChunkData)
    (resultID : ID) : Prop :=
  ∃ chunk tbl, mlookup chunks (chunkOf resultID meta) = Some chunk
               ∧ DocumentIDRangeIDs chunk = Some tbl.

(** No location listed under [resultID] lies in a document at one of
    [paths]. *)
Definition cleanOf (paths : gset string) (meta : MetaData)
    (chunks : gomap Z ResultChunkData) (resultID : ID) : Prop :=
  ∀ loc, loc ∈ (getDefRef resultID meta chunks).1 →
         ownerPath (getDefRef resultID meta chunks).2 loc ∉ paths.

(** The rank under which a walk takes the keys in the order [l]. *)
Fixpoint rankIn (l : list string) (k : string) : nat :=
  match l with
  | [] => 0%nat
  | x :: l' => if decide (k = x) then 0%nat else S (rankIn l' k)
  end.

(** The [less] function [sortedRangeIDs] sorts by. *)
Definition lessByRange (ranges : gomap ID RangeData) (i j : ID) : bool :=
  CompareRanges (mget ranges i) (mget ranges j) <? 0.

Definition allAllocated (meta : MetaData) (chunks : gomap Z ResultChunkData)
    : Prop :=
  ∀ resultID, allocated meta chunks resultID.

(** The loop invariant of [removeRefsIn]: the written IDs are the
    processed ones, each once, and the lists of the processed results
    are clean. *)
Definition refsInv (paths : gset string) (meta : MetaData)
    (acc : gset ID * list ID) (chunks : gomap Z ResultChunkData) : Prop :=
  NoDup acc.2
  ∧ (∀ id, id ∈ acc.2 ↔ id ∈ acc.1)
  ∧ (∀ id, id ∈ acc.1 → cleanOf paths meta chunks id).

(** What no step of [patchData] changes: the two shard counts. *)
Definition sameMeta (w w' : World) : Prop :=
  Meta (base w') = Meta (base w) ∧ Meta (patch w') = Meta (patch w).

(** The abnormal outcomes of a computation that returns no error and
    panics only if some shard of the store it started on is missing. *)
Definition panicsOnlyUnallocated {St A} (meta : MetaData)
    (chunks : gomap Z ResultChunkData) (o : outcome St A) : Prop :=
  match o with
  | Done _ _ _ => True
  | Fail _ _ _ => False
  | Panic => ¬ allAllocated meta chunks
  end.

(** A computation that returns no error but [e0]. *)
Definition failsOnlyWith {St A} (e0 : error) (m : M St A) : Prop :=
  ∀ rt s e rt' s', m rt s = Fail e rt' s' → e = e0.

(** A computation that, when it completes, leaves a store related to
    the one it started on. *)
Definition preserves {St A} (R : relation St) (m : M St A) : Prop :=
  ∀ rt s a rt' s', m rt s = Done a rt' s' → R s s'.

(** The base documents and the two shard counts are the same. *)
Definition sameBaseDocuments (w w' : World) : Prop :=
  Documents (base w') = Documents (base w)
  ∧ Meta (base w') = Meta (base w) ∧ Meta (patch w') = Meta (patch w).

(** [id] is the reference result of a range of a document at one of
    [paths]. *)
Definition referencedAt (paths : gset string) (docs : gomap string DocumentData)
    (id : ID) : Prop :=
  ∃ path rngID rng,
    path ∈ paths ∧ mlookup (Ranges (mget docs path)) rngID = Some rng
    ∧ ReferenceResultID rng = id.

(** The list of [id], filtered as [removeRefsIn] filters it. *)
Definition withoutPaths (paths : gset string) (meta : MetaData)
    (chunks : gomap Z ResultChunkData) (id : ID) : list DocumentIDRangeID :=
  filter (λ loc, ownerPath (getDefRef id meta chunks).2 loc ∉ paths)
         (getDefRef id meta chunks).1.

(** The shards [chunks] as [removeRefsIn] has changed them after
    processing the results in [acc]: the document tables are those of
    [chunks0], the lists of the processed results are filtered, the
    other lists are those of [chunks0]. *)
Definition listsFiltered (paths : gset string) (meta : MetaData)
    (docs : gomap string DocumentData) (chunks0 : gomap Z ResultChunkData)
    (acc : gset ID * list ID) (chunks : gomap Z ResultChunkData) : Prop :=
  (∀ cid, DocumentPaths (mget chunks cid) = DocumentPaths (mget chunks0 cid))
  ∧ (∀ id, id ∈ acc.1 →
           (getDefRef id meta chunks).1 = withoutPaths paths meta chunks0 id)
  ∧ (∀ id, id ∉ acc.1 →
           (getDefRef id meta chunks).1 = (getDefRef id meta chunks0).1)
  ∧ (∀ id, id ∈ acc.1 → referencedAt paths docs id).

(** The number of ranges of the documents at [paths]. *)
Definition rangeCount (docs : gomap string DocumentData) (paths : list string)
    : nat :=
  sum_list_with (λ path, length (mkeys (Ranges (mget docs path)))) paths.

(** The positions of the ranges of a range table, one per range. *)
Definition positionsOf (ranges : gomap ID RangeData) : list (Z * Z * Z * Z) :=
  (λ id, position (mget ranges id)) <$> mkeys ranges.

(** The order [CompareRanges] decides, on position tuples. *)
Definition tupleLe (a b : Z * Z * Z * Z) : Prop :=
  let '(a1, a2, a3, a4) := a in
  let '(b1, b2, b3, b4) := b in
  a1 < b1 ∨ (a1 = b1 ∧ (a2 < b2 ∨ (a2 = b2 ∧ (a3 < b3 ∨ (a3 = b3 ∧ a4 ≤ b4))))).

(** The location lists of the base bundle have only been extended: the
    list of every result in [w] is an initial segment of its list in
    [w']. *)
Definition listsExtended (w w' : World) : Prop :=
  Meta (base w') = Meta (base w)
  ∧ ∀ id, (getDefRef id (Meta (base w)) (ResultChunks (base w))).1
          `prefix_of` (getDefRef id (Meta (base w)) (ResultChunks (base w'))).1.

(** [rngID] in the document at [defPath] is a candidate definition: some
    range of a patch document at one of [paths] has a definition result
    whose list holds a location with this range ID, owned by
    [defPath]. *)
Definition definitionCandidate (p : GroupedBundleDataMaps) (paths : gset string)
    (defPath : string) (rngID : ID) : Prop :=
  ∃ path srcID rng loc,
    path ∈ paths
    ∧ mlookup (Ranges (mget (Documents p) path)) srcID = Some rng
    ∧ DefinitionResultID rng ≠ ""%string
    ∧ loc ∈ (getDefRef (DefinitionResultID rng) (Meta p) (ResultChunks p)).1
    ∧ ownerPath (getDefRef (DefinitionResultID rng) (Meta p) (ResultChunks p)).2
                loc = defPath
    ∧ RangeID loc = rngID.

(** The table [d] holds, for exactly the pairs in [C], the range the
    patch [p] has there, and no empty inner table. *)
Definition collectedFrom (p : GroupedBundleDataMaps) (C : string → ID → Prop)
    (d : gmap string (gmap ID RangeData)) : Prop :=
  (∀ defPath rngID def,
     d !! defPath ≫= (.!! rngID) = Some def ↔
     C defPath rngID
     ∧ def = mget (Ranges (mget (Documents p) defPath)) rngID)
  ∧ (∀ defPath m, d !! defPath = Some m → ∃ rngID, is_Some (m !! rngID)).

(** What the definition/reference merge keeps of the patch: its shard
    count and shards, its documents at paths outside [paths], and of
    every range its key, position, hover result and monikers. *)
Definition patchRangesKept (paths : gset string) (w w' : World) : Prop :=
  Meta (patch w') = Meta (patch w)
  ∧ ResultChunks (patch w') = ResultChunks (patch w)
  ∧ (∀ path, path ∉ paths →
             mlookup (Documents (patch w')) path
             = mlookup (Documents (patch w)) path)
  ∧ (∀ path id rng,
       mlookup (Ranges (mget (Documents (patch w)) path)) id = Some rng →
       ∃ rng', mlookup (Ranges (mget (Documents (patch w')) path)) id = Some rng'
               ∧ position rng' = position rng
               ∧ HoverResultID rng' = HoverResultID rng
               ∧ MonikerIDs rng' = MonikerIDs rng).

(** Where the ranges of the patch come from after the
    definition/reference merge: a range of [w'] is a range [w] had under
    the same key, with its position, hover result and monikers, or it
    stands under a key its document lacked in [w] and has the zero
    position, no hover result and no monikers. *)
Definition patchRangesFrom (w w' : World) : Prop :=
  ∀ path id rng',
    mlookup (Ranges (mget (Documents (patch w')) path)) id = Some rng' →
    (∃ rng, mlookup (Ranges (mget (Documents (patch w)) path)) id = Some rng
            ∧ position rng' = position rng
            ∧ HoverResultID rng' = HoverResultID rng
            ∧ MonikerIDs rng' = MonikerIDs rng)
    ∨ (mlookup (Ranges (mget (Documents (patch w)) path)) id = None
       ∧ position rng' = (0, 0, 0, 0)
       ∧ HoverResultID rng' = EmptyString
       ∧ MonikerIDs rng' = []).

Definition patchRangesOnly (paths : gset string) (w w' : World) : Prop :=
  patchRangesKept paths w w' ∧ patchRangesFrom w w'.

(** The documents [docs'] are those of [docs] except at unchanged
    paths, and at the same paths. *)
Definition changedDocumentsKept (fileStatus : gmap string Status)
    (docs docs' : gomap string DocumentData) : Prop :=
  (∀ path, statusOf fileStatus path ≠ Some Unchanged →
           mlookup docs' path = mlookup docs path)
  ∧ (∀ path, is_Some (mlookup docs' path) ↔ is_Some (mlookup docs path)).

(** The shards [chunks'] have the document tables of [chunks], and in
    every location list the same document IDs in the same order. *)
Definition documentIDsKept (meta : MetaData)
    (chunks chunks' : gomap Z ResultChunkData) : Prop :=
  (∀ cid, DocumentPaths (mget chunks' cid) = DocumentPaths (mget chunks cid))
  ∧ (∀ id, DocumentID <$> (getDefRef id meta chunks').1
           = DocumentID <$> (getDefRef id meta chunks).1).

(** The document of [docs'] at [path] is unified with that of
    [updateToDocs]: it has exactly the range IDs of the latter, each at
    the position the latter has there, and each holding a range the
    document of [docs] at [path] had. *)
Definition unifiedAt (updateToDocs docs docs' : gomap string DocumentData)
    (path : string) : Prop :=
  (∀ id, is_Some (mlookup (Ranges (mget docs' path)) id)
         ↔ id ∈ mkeys (Ranges (mget updateToDocs path)))
  ∧ (∀ id rng,
       mlookup (Ranges (mget docs' path)) id = Some rng →
       position rng = position (mget (Ranges (mget updateToDocs path)) id)
       ∧ ∃ old, mlookup (Ranges (mget docs path)) old = Some rng).

(** A computation that, when it completes or returns an error, leaves a
    store related to the one it started on. *)
Definition keeps {St A} (R : relation St) (m : M St A) : Prop :=
  ∀ rt s, match m rt s with
          | Done _ _ s' | Fail _ _ s' => R s s'
          | Panic => True
          end.

(** A computation that does not panic when started on a store that
    satisfies [I], and leaves such a store when it completes. *)
Definition safe {St A} (I : St → Prop) (m : M St A) : Prop :=
  ∀ rt s, I s → match m rt s with
                | Done _ _ s' => I s'
                | Fail _ _ _ => True
                | Panic => False
                end.

(** Every shard a result ID hashes to is present, with both of its
    tables allocated. *)
Definition fullyAllocated (meta : MetaData) (chunks : gomap Z ResultChunkData)
    : Prop :=
  ∀ resultID, ∃ chunk dp tbl,
    mlookup chunks (chunkOf resultID meta) = Some chunk
    ∧ DocumentPaths chunk = Some dp ∧ DocumentIDRangeIDs chunk = Some tbl.

(** The document at [path] is present, with an allocated range table. *)
Definition documentAllocated (docs : gomap string DocumentData) (path : string)
    : Prop :=
  ∃ g, mlookup docs path = Some (mkDoc (Some g)).

(** The stores on which the definition/reference merge and the apply
    phase do not panic. *)
Definition mergeable (meta : MetaData) (paths : gset string) (w : World) : Prop :=
  Meta (base w) = meta
  ∧ fullyAllocated meta (ResultChunks (base w))
  ∧ (∀ p, p ∈ paths → documentAllocated (Documents (patch w)) p)
  ∧ is_Some (Documents (base w)).

(** The documents with an allocated range table still have one. *)
Definition allocationKept
    (s s' : gomap string DocumentData * gomap Z ResultChunkData) : Prop :=
  ∀ path, documentAllocated s.1 path → documentAllocated s'.1 path.

(** The body of the loop of [mergeDefResults] over the paths with
    candidate definitions (lines 73-193), by name. *)
Definition mergePath (fileStatus : gmap string Status)
    (pathsToCopy : gset string) (path : string)
    (defsMap : gmap ID RangeData) : M World unit :=
  w ← get;
  let baseDoc := mget (Documents (base w)) path in
  defIdxs ← sortedRangeIDs (Some defsMap);
  foldM (λ _ defRngID,
           mergeDefinition fileStatus pathsToCopy path baseDoc defsMap defRngID)
        defIdxs tt.

(** The paths with status deleted. *)
Definition deletedPaths (fileStatus : gmap string Status) : gset string :=
  dom (filter (λ kv, kv.2 = Deleted) fileStatus).

(** The path a document ID stands for in the shard [cid]. *)
Definition ownerAt (chunks : gomap Z ResultChunkData) (cid : Z)
    (documentID : ID) : string :=
  mget (DocumentPaths (mget chunks cid)) documentID.

(** The base lists of the results [G] hold no location owned by a path
    of [D]. *)
Definition cleanOn (D : gset string) (G : ID → Prop) (w : World) : Prop :=
  ∀ id, G id → cleanOf D (Meta (base w)) (ResultChunks (base w)) id.

(** From [w] to [w'] the location lists of the base are the same, and
    a document ID that stood for a path outside [D] still stands for
    one. *)
Definition ownersKept (D : gset string) (w w' : World) : Prop :=
  Meta (base w') = Meta (base w)
  ∧ (∀ id, (getDefRef id (Meta (base w')) (ResultChunks (base w'))).1
           = (getDefRef id (Meta (base w)) (ResultChunks (base w))).1)
  ∧ (∀ cid d, ownerAt (ResultChunks (base w)) cid d ∉ D →
              ownerAt (ResultChunks (base w')) cid d ∉ D).

(** The locals of the loop over the reference locations of a candidate
    at [path]: the document IDs on record for [path] stand for paths
    outside [D], and so do the document IDs of the locations gathered
    for [refID] (if [Gr]) and for [defID] (if [Gd]). *)
Definition localsAvoid (D : gset string) (path : string) (defID refID : ID)
    (Gr Gd : Prop) (meta : MetaData) (l : mergeLocals)
    (chunks : gomap Z ResultChunkData) : Prop :=
  (∀ d, baseRefDocumentIDs l !! path = Some d →
        ownerAt chunks (chunkOf refID meta) d ∉ D)
  ∧ (∀ d, baseDefDocumentIDs l !! path = Some d →
          ownerAt chunks (chunkOf defID meta) d ∉ D)
  ∧ (Gr → ∀ loc, loc ∈ baseRefs l →
               ownerAt chunks (chunkOf refID meta) (DocumentID loc) ∉ D)
  ∧ (Gd → ∀ loc, loc ∈ baseDefs l →
               ownerAt chunks (chunkOf defID meta) (DocumentID loc) ∉ D).

(** ** The monad *)

Lemma bind_Done {St A B} (m : M St A) (f : A → M St B) rt s b rt' s' :
  (m ≫= f) rt s = Done b rt' s' ↔
  ∃ a rt1 s1, m rt s = Done a rt1 s1 ∧ f a rt1 s1 = Done b rt' s'.
Proof.
  unfold mbind, M_bind. split.
  - destruct (m rt s) as [a rt1 s1| |] eqn:E; [eauto 6|done..].
  - by intros (a & rt1 & s1 & -> & ?).
Qed.

Lemma ret_Done {St A} (a : A) rt (s : St) b rt' s' :
  mret (M := M St) a rt s = Done b rt' s' ↔ a = b ∧ rt = rt' ∧ s = s'.
Proof.
  unfold mret, M_ret. split; [by intros [= -> -> ->]|by intros (-> & -> & ->)].
Qed.

(** The loop rule: [I] relates the elements visited so far to the
    locals and the store; [E] says which abnormal outcomes a body may
    have. *)
Lemma foldM_rule {St K B} (I : list K → B → RT → St → Prop)
    (E : outcome St B → Prop) (f : B → K → M St B) (l : list K) :
  (∀ seen k b rt s, k ∈ l → I seen b rt s →
     match f b k rt s with
     | Done b' rt' s' => I (seen ++ [k]) b' rt' s'
     | Fail e rt' s' => E (Fail e rt' s')
     | Panic => E Panic
     end) →
  ∀ seen b rt s, I seen b rt s →
    match foldM f l b rt s with
    | Done b' rt' s' => I (seen ++ l) b' rt' s'
    | Fail e rt' s' => E (Fail e rt' s')
    | Panic => E Panic
    end.
Proof.
  induction l as [|k l IH]; intros Hstep seen b rt s HI; simpl.
  - by rewrite app_nil_r.
  - unfold mbind, M_bind.
    specialize (Hstep seen k b rt s (list_elem_of_here _ _) HI) as Hk.
    destruct (f b k rt s) as [b1 rt1 s1| |]; [|done..].
    replace (seen ++ k :: l) with ((seen ++ [k]) ++ l) by by rewrite <-app_assoc.
    apply IH; [|done].
    intros. apply Hstep; [by right|done].
Qed.

Lemma foldM_loop {St K B} (I : list K → B → RT → St → Prop)
    (E : outcome St B → Prop) (f : B → K → M St B) (l : list K) b rt s :
  (∀ seen k b rt s, k ∈ l → I seen b rt s →
     match f b k rt s with
     | Done b' rt' s' => I (seen ++ [k]) b' rt' s'
     | Fail e rt' s' => E (Fail e rt' s')
     | Panic => E Panic
     end) →
  I [] b rt s →
  match foldM f l b rt s with
  | Done b' rt' s' => I l b' rt' s'
  | Fail e rt' s' => E (Fail e rt' s')
  | Panic => E Panic
  end.
Proof. intros Hstep HI. exact (foldM_rule I E f l Hstep [] b rt s HI). Qed.

(** [loop_rule I E]: apply the loop rule to the loop in the goal; leaves
    the step, the initial state and the goal with the loop's property. *)
Ltac loop_rule I E :=
  lazymatch goal with
  | |- context [foldM ?f ?l ?b ?rt ?s] =>
      let H := fresh "Hloop" in
      assert (match foldM f l b rt s with
              | Done b' rt' s' => I l b' rt' s'
              | Fail e rt' s' => E (Fail e rt' s')
              | Panic => E Panic
              end) as H;
      [apply (foldM_loop I E)|cbv beta in H]
  end.

(** ** Map walks *)

Lemma inOrder_Permutation rank ks : inOrder rank ks ≡ₚ ks.
Proof. apply merge_sort_Permutation. Qed.

Local Instance rankLe_total rank : Total (rankLe rank).
Proof. intros a b. unfold rankLe. lia. Qed.

Local Instance rankLe_trans rank : Transitive (rankLe rank).
Proof. intros a b c. unfold rankLe. lia. Qed.

Lemma StronglySorted_weaken_elem {A} (R R' : relation A) l :
  (∀ x y, x ∈ l → y ∈ l → R x y → R' x y) →
  StronglySorted R l → StronglySorted R' l.
Proof.
  intros HR Hl. induction Hl as [|x l _ IH Hx]; constructor.
  - apply IH. intros a b ? ?. apply HR; by right.
  - apply Forall_forall. intros y Hy. apply HR; [by left|by right|].
    by eapply Forall_forall in Hx.
Qed.

Lemma rankIn_inj l a b : a ∈ l → rankIn l a = rankIn l b → a = b.
Proof.
  induction l as [|x l IH]; [by intros ?%elem_of_nil|]. simpl.
  intros Ha. destruct (decide (a = x)) as [->|Hax], (decide (b = x)) as [->|Hbx];
    try done.
  intros [= Heq]. apply IH; [|done].
  by apply elem_of_cons in Ha as [?|?].
Qed.

Lemma rankIn_sorted l : NoDup l → StronglySorted (rankLe (rankIn l)) l.
Proof.
  induction 1 as [|x l Hx Hnd IH]; constructor.
  - eapply StronglySorted_weaken_elem; [|exact IH].
    intros a b Ha Hb. unfold rankLe. simpl.
    rewrite !decide_False by (intros ->; done). lia.
  - apply Forall_forall. intros y _. unfold rankLe. simpl.
    rewrite decide_True by done. lia.
Qed.

(** The schedules cover every order: whatever order [l] a walk over the
    keys [ks] takes, some rank produces it. *)
Lemma inOrder_any_order ks l : NoDup ks → l ≡ₚ ks → inOrder (rankIn l) ks = l.
Proof.
  intros Hnd Hperm. unfold inOrder.
  apply (StronglySorted_unique_strong (rankLe (rankIn l))).
  - intros a b Ha Hb Hab Hba. apply (rankIn_inj l).
    + rewrite merge_sort_Permutation in Ha. by rewrite Hperm.
    + unfold rankLe in *. lia.
  - apply StronglySorted_merge_sort; apply _.
  - apply rankIn_sorted. by rewrite Hperm.
  - by rewrite merge_sort_Permutation.
Qed.

Lemma rangeOver_Done {St} ks rt (s : St) :
  ∃ l, rangeOver ks rt s = Done l (mkRT (nextID rt) (S (nextRange rt))) s
       ∧ l ≡ₚ ks.
Proof. eexists. split; [done|]. apply inOrder_Permutation. Qed.

Lemma omap_lookup_keys {V} (g : gmap string V) (l : list (string * V)) :
  (∀ kv, kv ∈ l → g !! kv.1 = Some kv.2) →
  omap (λ k, (k,.) <$> g !! k) l.*1 = l.
Proof.
  induction l as [|[k v] l IH]; intros Hl; [done|].
  pose proof (Hl (k, v) (list_elem_of_here _ _)) as Hk. simpl in *.
  rewrite Hk. simpl. f_equal.
  apply IH. intros kv ?. apply Hl. by right.
Qed.

Lemma rangeMap_Done {St V} (m : gomap string V) rt (s : St) :
  ∃ l, rangeMap m rt s = Done l (mkRT (nextID rt) (S (nextRange rt))) s
       ∧ l ≡ₚ from_option map_to_list [] m.
Proof.
  unfold rangeMap. eexists. split; [done|].
  destruct m as [g|]; simpl.
  - rewrite inOrder_Permutation. unfold mkeys. simpl.
    rewrite omap_lookup_keys; [done|].
    intros [k v] ?. by apply elem_of_map_to_list.
  - unfold inOrder. by vm_compute.
Qed.

(** ** Range order and [sortedRangeIDs] *)

Lemma CompareRanges_positionLe a b :
  (CompareRanges b a <? 0) = false ↔ positionLe a b.
Proof.
  unfold CompareRanges, positionLe.
  repeat match goal with
         | |- context [?x <? ?y] =>
             lazymatch y with
             | 0 => fail
             | _ => destruct (Z.ltb_spec x y)
             end
         end; simpl; split; intros; try done; lia.
Qed.

Lemma CompareRanges_eq_0 a b :
  CompareRanges a b = 0 ↔ position a = position b.
Proof.
  transitivity (StartLine a = StartLine b ∧ StartCharacter a = StartCharacter b
                ∧ EndLine a = EndLine b ∧ EndCharacter a = EndCharacter b).
  - unfold CompareRanges.
    repeat match goal with
           | |- context [?x <? ?y] => destruct (Z.ltb_spec x y)
           end; lia.
  - unfold position. split; [by intros (-> & -> & -> & ->)|].
    by intros [= -> -> -> ->].
Qed.

Lemma positionLe_antisym a b :
  positionLe a b → positionLe b a → position a = position b.
Proof.
  unfold positionLe, position. intros Hab Hba.
  assert (StartLine a = StartLine b ∧ StartCharacter a = StartCharacter b
          ∧ EndLine a = EndLine b ∧ EndCharacter a = EndCharacter b)
    as (-> & -> & -> & ->) by lia.
  done.
Qed.

Local Instance notAfter_range_total ranges : Total (notAfter (lessByRange ranges)).
Proof.
  intros i j. unfold notAfter, lessByRange.
  rewrite !CompareRanges_positionLe. unfold positionLe. lia.
Qed.

Local Instance notAfter_range_trans ranges :
  Transitive (notAfter (lessByRange ranges)).
Proof.
  intros i j k. unfold notAfter, lessByRange.
  rewrite !CompareRanges_positionLe. unfold positionLe. lia.
Qed.

Lemma StronglySorted_weaken {A} (R R' : relation A) l :
  (∀ x y, R x y → R' x y) → StronglySorted R l → StronglySorted R' l.
Proof.
  intros HR. induction 1 as [|x l _ IH Hx]; constructor; [done|].
  eapply Forall_impl; [exact Hx|]. eauto.
Qed.

Lemma NoDup_mkeys {V} (m : gomap string V) : NoDup (mkeys m).
Proof.
  destruct m as [g|]; simpl; [apply NoDup_fst_map_to_list|constructor].
Qed.

Lemma elem_of_mkeys {V} (m : gomap string V) k :
  k ∈ mkeys m ↔ is_Some (mlookup m k).
Proof.
  destruct m as [g|]; simpl.
  - rewrite list_elem_of_fmap. split.
    + intros ([k' v] & -> & Hkv). apply elem_of_map_to_list in Hkv. by exists v.
    + intros [v Hv]. exists (k, v). split; [done|]. by apply elem_of_map_to_list.
  - split; [by intros ?%elem_of_nil|by intros [? ?]].
Qed.

(** What [sortedRangeIDs] returns, whatever order the map walk took. *)
Lemma sortedRangeIDs_Done {St} (ranges : gomap ID RangeData) rt (s : St) :
  ∃ l, sortedRangeIDs ranges rt s
         = Done l (mkRT (nextID rt) (S (nextRange rt))) s
       ∧ l ≡ₚ mkeys ranges
       ∧ StronglySorted (λ i j, positionLe (mget ranges i) (mget ranges j)) l.
Proof.
  unfold sortedRangeIDs. eexists. split; [done|]. split.
  - unfold sortSlice. by rewrite merge_sort_Permutation, inOrder_Permutation.
  - eapply StronglySorted_weaken;
      [|apply (StronglySorted_merge_sort (notAfter (lessByRange ranges)))].
    intros i j. apply CompareRanges_positionLe.
Qed.

(** With pairwise distinct positions there is one sorted arrangement:
    the result does not mention the schedule. *)
Lemma sortedRangeIDs_canonical {St} (ranges : gomap ID RangeData) rt (s : St) :
  (∀ i j, i ∈ mkeys ranges → j ∈ mkeys ranges →
          position (mget ranges i) = position (mget ranges j) → i = j) →
  sortedRangeIDs ranges rt s
    = Done (sortSlice (lessByRange ranges) (mkeys ranges))
           (mkRT (nextID rt) (S (nextRange rt))) s.
Proof.
  intros Hinj. unfold sortedRangeIDs, mbind, M_bind, rangeOver, mret, M_ret.
  f_equal. unfold sortSlice.
  apply (StronglySorted_unique_strong (notAfter (lessByRange ranges)));
    [|apply StronglySorted_merge_sort; apply _..|].
  - intros i j Hi Hj Hij Hji.
    rewrite merge_sort_Permutation in Hi, Hj.
    rewrite inOrder_Permutation in Hi.
    apply Hinj; [done..|].
    unfold notAfter, lessByRange in Hij, Hji.
    apply CompareRanges_positionLe in Hij, Hji.
    by apply positionLe_antisym.
  - by rewrite !merge_sort_Permutation, inOrder_Permutation.
Qed.

(** ** [getDefRef] *)

(** C10: looking up the locations of a result identifier never fails.
    Every case yields a pair: the empty list with the zero chunk when
    the shard is absent from the bundle, the empty list with the shard
    when the shard holds no entry for the identifier, and the stored
    list with the shard otherwise. *)
Theorem getDefRef_total (resultID : ID) (meta : MetaData)
    (resultChunks : gomap Z ResultChunkData) :
  (mlookup resultChunks (chunkOf resultID meta) = None →
     getDefRef resultID meta resultChunks = ([], zero))
  ∧ (∀ chunk,
       mlookup resultChunks (chunkOf resultID meta) = Some chunk →
       mlookup (DocumentIDRangeIDs chunk) resultID = None →
       getDefRef resultID meta resultChunks = ([], chunk))
  ∧ (∀ chunk locs,
       mlookup resultChunks (chunkOf resultID meta) = Some chunk →
       mlookup (DocumentIDRangeIDs chunk) resultID = Some locs →
       getDefRef resultID meta resultChunks = (locs, chunk)).
Proof.
  unfold getDefRef, chunkOf, mget. repeat split.
  - by intros ->.
  - intros chunk -> Hnone. simpl. by rewrite Hnone.
  - intros chunk locs -> Hlocs. simpl. by rewrite Hlocs.
Qed.

(** ** Assignments into the store *)

Lemma setLocations_inv cid id locs chunks chunks' :
  setLocations cid id locs chunks = Some chunks' →
  ∃ g chunk tbl,
    chunks = Some g ∧ g !! cid = Some chunk
    ∧ DocumentIDRangeIDs chunk = Some tbl
    ∧ chunks' = Some (<[cid := mkChunk (DocumentPaths chunk)
                                      (Some (<[id := locs]> tbl))]> g).
Proof.
  unfold setLocations, mlookup, mstore.
  destruct chunks as [g|]; simpl; [|done].
  destruct (g !! cid) as [[dp [tbl|]]|] eqn:Hg; simpl; [|done..].
  intros [= <-]. eauto 10.
Qed.

Lemma setLocations_is_Some meta id locs chunks :
  allocated meta chunks id →
  is_Some (setLocations (chunkOf id meta) id locs chunks).
Proof.
  intros (chunk & tbl & Hc & Ht). unfold setLocations.
  rewrite Hc. simpl. rewrite Ht. simpl.
  destruct chunks; [by eexists|done].
Qed.

Lemma getDefRef_setLocations meta id locs chunks chunks' id' :
  setLocations (chunkOf id meta) id locs chunks = Some chunks' →
  (getDefRef id' meta chunks').1
    = (if decide (id' = id) then locs else (getDefRef id' meta chunks).1)
  ∧ DocumentPaths (getDefRef id' meta chunks').2
    = DocumentPaths (getDefRef id' meta chunks).2.
Proof.
  intros (g & chunk & tbl & -> & Hg & Ht & ->)%setLocations_inv.
  unfold getDefRef, mget, mlookup, chunkOf in *. simpl.
  destruct (decide (HashKey id' (NumResultChunks meta)
                    = HashKey id (NumResultChunks meta))) as [Heq|Hne].
  - rewrite Heq, lookup_insert_eq, Hg. simpl. rewrite Ht. simpl.
    split; [|done]. case_decide as Hid.
    + subst. by rewrite lookup_insert_eq.
    + by rewrite lookup_insert_ne.
  - rewrite lookup_insert_ne by done. split; [|done].
    case_decide; [by subst|done].
Qed.

Lemma allocated_setLocations meta cid id locs chunks chunks' id' :
  setLocations cid id locs chunks = Some chunks' →
  allocated meta chunks id' → allocated meta chunks' id'.
Proof.
  intros (g & chunk & tbl & -> & Hg & Ht & ->)%setLocations_inv.
  intros (chunk' & tbl' & Hc & Ht'). unfold allocated, mlookup in *. simpl in *.
  destruct (decide (chunkOf id' meta = cid)) as [->|Hne].
  - rewrite lookup_insert_eq. eauto.
  - rewrite lookup_insert_ne by done. eauto.
Qed.

(** ** [removeRefsIn] *)

Lemma removeRefsRange_step paths meta acc rng rt chunks :
  refsInv paths meta acc chunks →
  match removeRefsRange paths meta acc rng rt chunks with
  | Done acc' rt' chunks' =>
      refsInv paths meta acc' chunks' ∧ acc.1 ⊆ acc'.1
      ∧ ReferenceResultID rng ∈ acc'.1
      ∧ (allAllocated meta chunks → allAllocated meta chunks')
  | Fail _ _ _ => False
  | Panic => ¬ allAllocated meta chunks
  end.
Proof.
  destruct acc as [deletedRefs written]. intros (Hnd & Hw & Hclean).
  unfold removeRefsRange. case_decide as Hin.
  { unfold mret, M_ret, refsInv. simpl in *. by split_and!. }
  unfold mbind, M_bind, get, update.
  destruct (getDefRef (ReferenceResultID rng) meta chunks) as [refs refChunk] eqn:Hget.
  destruct (setLocations _ _ _ chunks) as [chunks'|] eqn:Hset; simpl.
  - unfold refsInv. simpl in *. split_and!.
    + apply NoDup_app. split; [done|]. split; [|apply NoDup_singleton].
      intros id Hid ->%list_elem_of_singleton. by apply Hin, Hw.
    + intros id. rewrite elem_of_app, list_elem_of_singleton, elem_of_union,
        elem_of_singleton, Hw. tauto.
    + intros id Hid loc.
      destruct (getDefRef_setLocations meta _ _ _ _ id Hset) as [Hl Hp].
      unfold ownerPath. rewrite Hl, Hp. case_decide as Hid'.
      * subst id. rewrite Hget. simpl.
        intros [Hloc _]%list_elem_of_filter. exact Hloc.
      * apply Hclean. by apply elem_of_union in Hid as [?%elem_of_singleton|?].
    + apply union_subseteq_r.
    + by apply elem_of_union_l, elem_of_singleton.
    + intros HA id. eapply allocated_setLocations; [done|apply HA].
  - intros HA.
    destruct (setLocations_is_Some meta (ReferenceResultID rng)
                (filter (λ ref, ownerPath refChunk ref ∉ paths) refs)
                chunks (HA _)) as [? Hs].
    by rewrite Hs in Hset.
Qed.

Lemma removeRefs_ranges paths meta (rngs : list (string * RangeData))
    acc rt chunks :
  refsInv paths meta acc chunks →
  match foldM (λ acc kv, removeRefsRange paths meta acc kv.2) rngs acc rt chunks with
  | Done acc' rt' chunks' =>
      refsInv paths meta acc' chunks' ∧ acc.1 ⊆ acc'.1
      ∧ (∀ kv, kv ∈ rngs → ReferenceResultID kv.2 ∈ acc'.1)
      ∧ (allAllocated meta chunks → allAllocated meta chunks')
  | Fail _ _ _ => False
  | Panic => ¬ allAllocated meta chunks
  end.
Proof.
  intros Hinv.
  apply (foldM_loop
    (λ seen acc' (_ : RT) chunks',
       refsInv paths meta acc' chunks' ∧ acc.1 ⊆ acc'.1
       ∧ (∀ kv, kv ∈ seen → ReferenceResultID kv.2 ∈ acc'.1)
       ∧ (allAllocated meta chunks → allAllocated meta chunks'))
    (panicsOnlyUnallocated meta chunks)).
  - intros seen kv acc1 rt1 chunks1 _ (Hi & Hsub & Hseen & Ha).
    pose proof (removeRefsRange_step paths meta acc1 kv.2 rt1 chunks1 Hi) as Hstep.
    destruct (removeRefsRange _ _ _ _ rt1 chunks1) as [acc2 rt2 chunks2| |];
      [|done|simpl; tauto].
    destruct Hstep as (Hi2 & Hsub2 & Hin2 & Ha2).
    split_and!; [done|by etrans| |tauto].
    intros kv' [?| ->%list_elem_of_singleton]%elem_of_app; [|done].
    apply Hsub2. auto.
  - split_and!; [done|done|by intros ? ?%elem_of_nil|done].
Qed.

Lemma refsInv_init paths meta chunks : refsInv paths meta (∅, []) chunks.
Proof.
  split_and!; simpl.
  - constructor.
  - intros id. by rewrite elem_of_nil, elem_of_empty.
  - by intros id ?%elem_of_empty.
Qed.

Lemma removeRefsLoop_spec paths meta docs rt chunks :
  match removeRefsLoop paths meta docs rt chunks with
  | Done acc rt' chunks' =>
      refsInv paths meta acc chunks'
      ∧ (∀ path rngID rng,
           path ∈ paths →
           mlookup (Ranges (mget docs path)) rngID = Some rng →
           ReferenceResultID rng ∈ acc.1)
      ∧ (allAllocated meta chunks → allAllocated meta chunks')
  | Fail _ _ _ => False
  | Panic => ¬ allAllocated meta chunks
  end.
Proof.
  unfold removeRefsLoop.
  destruct (rangeOver_Done (elements paths) rt chunks) as (ps & Hps & Hperm).
  unfold mbind at 1, M_bind at 1. rewrite Hps.
  pose proof (foldM_loop
    (λ seen acc (_ : RT) chunks',
       refsInv paths meta acc chunks'
       ∧ (∀ path rngID rng,
            path ∈ seen →
            mlookup (Ranges (mget docs path)) rngID = Some rng →
            ReferenceResultID rng ∈ acc.1)
       ∧ (allAllocated meta chunks → allAllocated meta chunks'))
    (panicsOnlyUnallocated meta chunks)
    (λ acc path,
       rngs ← rangeMap (Ranges (mget docs path));
       foldM (λ acc kv, removeRefsRange paths meta acc kv.2) rngs acc)
    ps (∅, []) (mkRT (nextID rt) (S (nextRange rt))) chunks) as Hloop.
  simpl in Hloop.
  match type of Hloop with ?P → ?Q → _ => assert P as Hstep; [|assert Q as Hinit] end.
  - clear Hloop. intros seen path acc rt1 chunks1 _ (Hi & Hseen & Ha).
    destruct (rangeMap_Done (Ranges (mget docs path)) rt1 chunks1)
      as (rngs & Hrngs & Hrperm).
    unfold mbind, M_bind. rewrite Hrngs.
    pose proof (removeRefs_ranges paths meta rngs acc
                  (mkRT (nextID rt1) (S (nextRange rt1))) chunks1 Hi) as Hin.
    destruct (foldM _ rngs acc _ chunks1) as [acc2 rt2 chunks2| |];
      [|done|tauto].
    destruct Hin as (Hi2 & Hsub & Hall & Ha2).
    split_and!; [done| |tauto].
    intros path' rngID rng [Hp| ->%list_elem_of_singleton]%elem_of_app Hlk.
    + apply Hsub. eauto.
    + apply (Hall (rngID, rng)). rewrite Hrperm.
      destruct (Ranges (mget docs path)) as [g|]; simpl in *; [|done].
      by apply elem_of_map_to_list.
  - split_and!; [apply refsInv_init|by intros ??? ?%elem_of_nil|done].
  - specialize (Hloop Hstep Hinit).
    destruct (foldM _ ps _ _ chunks) as [acc rt' chunks'| |]; [|done..].
    destruct Hloop as (Hi & Hseen & Ha). split_and!; [done| |done].
    intros path rngID rng Hp. apply Hseen. rewrite Hperm.
    by apply elem_of_elements.
Qed.

(** C5: the stale-reference remover never returns an error, and when
    it completes, the list of the reference result of every range of
    every document at one of the given paths holds no location owned
    by one of these paths; a list is written back at most once: the
    written result IDs are exactly the processed ones and none occurs
    twice; with all shards allocated the remover completes, and on the
    empty set of paths it leaves the shards as they are. *)
Theorem removeRefsIn_correct (paths : gset string) (meta : MetaData)
    (docs : gomap string DocumentData) (rt : RT)
    (chunks : gomap Z ResultChunkData) :
  match removeRefsLoop paths meta docs rt chunks with
  | Done (deletedRefs, written) rt' chunks' =>
      removeRefsIn paths meta docs rt chunks = Done tt rt' chunks'
      ∧ (∀ path rngID rng,
           path ∈ paths →
           mlookup (Ranges (mget docs path)) rngID = Some rng →
           cleanOf paths meta chunks' (ReferenceResultID rng))
      ∧ NoDup written
      ∧ (∀ id, id ∈ written ↔ id ∈ deletedRefs)
      ∧ (paths = ∅ → chunks' = chunks)
  | Fail _ _ _ => False
  | Panic =>
      removeRefsIn paths meta docs rt chunks = Panic
      ∧ ¬ allAllocated meta chunks ∧ paths ≠ ∅
  end.
Proof.
  pose proof (removeRefsLoop_spec paths meta docs rt chunks) as Hspec.
  assert (paths = ∅ →
          removeRefsLoop paths meta docs rt chunks
            = Done (∅, []) (mkRT (nextID rt) (S (nextRange rt))) chunks) as Hempty.
  { intros ->. unfold removeRefsLoop, mbind, M_bind, rangeOver.
    by rewrite elements_empty. }
  unfold removeRefsIn, mbind, M_bind.
  destruct (removeRefsLoop paths meta docs rt chunks)
    as [[deletedRefs written] rt' chunks'| |] eqn:Hloop; [|done|].
  - destruct Hspec as ((Hnd & Hw & Hclean) & Hseen & _).
    split_and!; [done| |done|done|].
    + intros path rngID rng Hp Hlk. apply Hclean. simpl. eauto.
    + intros Hp. specialize (Hempty Hp). by simplify_eq.
  - split_and!; [done|done|]. intros Hp. by specialize (Hempty Hp).
Qed.

(** ** The canonical result IDs *)

Lemma update_Done {St} (f : St → option St) rt s a rt' s' :
  update f rt s = Done a rt' s' ↔ f s = Some s' ∧ rt' = rt.
Proof.
  unfold update. destruct (f s); [|by split; [|intros [? _]]].
  split; [by intros [= _ -> ->]|]. destruct a. by intros [[= ->] ->].
Qed.

Lemma onBaseChunks_Some f w w' :
  onBaseChunks f w = Some w' ↔
  ∃ chunks', f (ResultChunks (base w)) = Some chunks'
             ∧ w' = mkWorld (setResultChunks chunks' (base w)) (patch w).
Proof.
  unfold onBaseChunks. destruct (f _); simpl; [|by split; [|intros (? & ? & _)]].
  split; [intros [= <-]; eauto|]. by intros (? & [= ->] & ->).
Qed.

Lemma onPatchDocuments_Some f w w' :
  onPatchDocuments f w = Some w' ↔
  ∃ docs', f (Documents (patch w)) = Some docs'
           ∧ w' = mkWorld (base w) (setDocuments docs' (patch w)).
Proof.
  unfold onPatchDocuments. destruct (f _); simpl;
    [|by split; [|intros (? & ? & _)]].
  split; [intros [= <-]; eauto|]. by intros (? & [= ->] & ->).
Qed.

Lemma onBaseDocuments_Some f w w' :
  onBaseDocuments f w = Some w' ↔
  ∃ docs', f (Documents (base w)) = Some docs'
           ∧ w' = mkWorld (setDocuments docs' (base w)) (patch w).
Proof.
  unfold onBaseDocuments. destruct (f _); simpl;
    [|by split; [|intros (? & ? & _)]].
  split; [intros [= <-]; eauto|]. by intros (? & [= ->] & ->).
Qed.

Global Instance sameMeta_refl : Reflexive sameMeta.
Proof. by intros w. Qed.

Global Instance sameMeta_trans : Transitive sameMeta.
Proof. intros w1 w2 w3 [? ?] [? ?]. split; congruence. Qed.

Lemma foldM_preserves {St K B} (R : relation St) `{!Reflexive R, !Transitive R}
    (f : B → K → M St B) l b rt s b' rt' s' :
  (∀ b k rt s b' rt' s', f b k rt s = Done b' rt' s' → R s s') →
  foldM f l b rt s = Done b' rt' s' → R s s'.
Proof.
  intros Hf Hfold.
  pose proof (foldM_loop (λ _ _ _ s1, R s s1) (λ _, True) f l b rt s) as Hl.
  rewrite Hfold in Hl. apply Hl; [|done].
  intros seen k b1 rt1 s1 _ HR.
  destruct (f b1 k rt1 s1) eqn:Hk; [|done..].
  etrans; [done|]. by eapply Hf.
Qed.

Lemma newID_Done {St} rt (s : St) id rt' s' :
  newID rt s = Done id rt' s' ↔
  idsrc (nextID rt) = Some id ∧ rt' = mkRT (S (nextID rt)) (nextRange rt) ∧ s' = s.
Proof.
  unfold newID. destruct (idsrc _); [|by split; [|intros (? & _)]].
  split; [by intros [= -> <- <-]|by intros ([= ->] & -> & ->)].
Qed.

Lemma canonicalIDs_state {St} fs path baseDoc defRngID rt (s : St) ids rt' s' :
  canonicalIDs fs path baseDoc defRngID rt s = Done ids rt' s' → s' = s.
Proof.
  unfold canonicalIDs. destruct (isUnchanged fs path).
  - by intros (_ & _ & ->)%ret_Done.
  - intros (defID & rt1 & s1 & (_ & _ & ->)%newID_Done & H)%bind_Done.
    apply bind_Done in H as (refID & rt2 & s2 & (_ & _ & ->)%newID_Done & H).
    by apply ret_Done in H as (_ & _ & ->).
Qed.

Lemma rangeMap_state {St V} (m : gomap string V) rt (s : St) l rt' s' :
  rangeMap m rt s = Done l rt' s' → s' = s.
Proof.
  destruct (rangeMap_Done m rt s) as (l0 & -> & _). by intros [= _ _ ->].
Qed.

Lemma documentIDsByPath_state {St} dp rt (s : St) ids rt' s' :
  documentIDsByPath dp rt s = Done ids rt' s' → s' = s.
Proof.
  unfold documentIDsByPath.
  intros (l & rt1 & s1 & ->%rangeMap_state & H)%bind_Done.
  by apply ret_Done in H as (_ & _ & ->).
Qed.

Lemma baseDocumentID_sameMeta path resultID ids rt w r rt' w' :
  baseDocumentID path resultID ids rt w = Done r rt' w' → sameMeta w w'.
Proof.
  unfold baseDocumentID. destruct (ids !! path).
  - by intros (_ & _ & ->)%ret_Done.
  - intros (id & rt1 & w1 & (_ & _ & ->)%newID_Done & H)%bind_Done.
    apply bind_Done in H as (w2 & rt2 & w3 & [= -> -> ->] & H).
    apply bind_Done in H as ([] & rt3 & w4 & [Hu _]%update_Done & H).
    apply ret_Done in H as (_ & _ & ->).
    by apply onBaseChunks_Some in Hu as (chunks' & _ & ->).
Qed.

Lemma mergeReference_sameMeta fs ptc path defID refID rc pds dc l loc
    rt w l' rt' w' :
  mergeReference fs ptc path defID refID rc pds dc l loc rt w = Done l' rt' w' →
  sameMeta w w'.
Proof.
  unfold mergeReference.
  intros (l1 & rt1 & w1 & H1 & H)%bind_Done.
  apply bind_Done in H as (l2 & rt2 & w2 & H2 & H).
  apply bind_Done in H as ([] & rt3 & w3 & H3 & H).
  apply ret_Done in H as (_ & _ & ->).
  assert (sameMeta w w1) as Hm1.
  { destruct (isUnchanged fs _); [by apply ret_Done in H1 as (_ & _ & ->)|].
    apply bind_Done in H1 as ([id ids] & rt0 & w0 & Hb & H1).
    apply ret_Done in H1 as (_ & _ & ->). by eapply baseDocumentID_sameMeta. }
  assert (sameMeta w1 w2) as Hm2.
  { destruct (decide (length (baseDefs l1) = 0%nat));
      [|by apply ret_Done in H2 as (_ & _ & ->)].
    destruct (findPatchDef _ _ _ _); [|by apply ret_Done in H2 as (_ & _ & ->)].
    apply bind_Done in H2 as ([id ids] & rt0 & w0 & Hb & H2).
    apply ret_Done in H2 as (_ & _ & ->). by eapply baseDocumentID_sameMeta. }
  assert (sameMeta w2 w') as Hm3.
  { destruct (decide (_ ∈ ptc)); [|by apply ret_Done in H3 as (_ & _ & ->)].
    apply bind_Done in H3 as (w0 & rt0 & w0' & [= -> -> ->] & H3).
    apply update_Done in H3 as [Hu _].
    by apply onPatchDocuments_Some in Hu as (docs' & _ & ->). }
  by repeat (etrans; [done|]).
Qed.

Lemma isUnchanged_true fs path :
  isUnchanged fs path = true ↔ statusOf fs path = Some Unchanged.
Proof. unfold isUnchanged. apply bool_decide_eq_true. Qed.

Lemma isUnchanged_false fs path :
  isUnchanged fs path = false ↔ statusOf fs path ≠ Some Unchanged.
Proof. unfold isUnchanged. apply bool_decide_eq_false. Qed.

(** ** The apply phase *)

Lemma mlookup_mdelete {V} (k p : string) (m : gomap string V) :
  mlookup (mdelete k m) p = if decide (p = k) then None else mlookup m p.
Proof.
  destruct m as [g|]; simpl; [|by case_decide].
  case_decide as Hp; [subst; apply lookup_delete_eq|by apply lookup_delete_ne].
Qed.

Lemma mstore_Some {V} (k : string) (v : V) (m m' : gomap string V) :
  mstore k v m = Some m' → ∃ g, m = Some g ∧ m' = Some (<[k := v]> g).
Proof. destruct m as [g|]; simpl; [|done]. intros [= <-]. eauto. Qed.

Lemma mstore_None {V} (k : string) (v : V) (m : gomap string V) :
  mstore k v m = None → m = None.
Proof. by destruct m. Qed.

Lemma mlookup_mstore {V} (k p : string) (v : V) (m m' : gomap string V) :
  mstore k v m = Some m' →
  mlookup m' p = if decide (p = k) then Some v else mlookup m p.
Proof.
  intros (g & -> & ->)%mstore_Some. simpl.
  case_decide as Hp; [subst; apply lookup_insert_eq|by apply lookup_insert_ne].
Qed.

(** The documents the deletion loop leaves. *)
Lemma applyPhase_delete (statuses : list (string * Status)) rt w :
  match foldM (λ _ kv,
                 if decide (kv.2 = Deleted)
                 then update (onBaseDocuments (λ docs, Some (mdelete kv.1 docs)))
                 else mret tt) statuses tt rt w with
  | Done _ rt' w' =>
      rt' = rt ∧ patch w' = patch w ∧ Meta (base w') = Meta (base w)
      ∧ ResultChunks (base w') = ResultChunks (base w)
      ∧ (Documents (base w') = None → Documents (base w) = None)
      ∧ (∀ p, (p, Deleted) ∈ statuses → mlookup (Documents (base w')) p = None)
      ∧ (∀ p, (p, Deleted) ∉ statuses →
              mlookup (Documents (base w')) p = mlookup (Documents (base w)) p)
  | Fail _ _ _ => False
  | Panic => False
  end.
Proof.
  apply (foldM_loop
    (λ seen _ rt' w',
       rt' = rt ∧ patch w' = patch w ∧ Meta (base w') = Meta (base w)
       ∧ ResultChunks (base w') = ResultChunks (base w)
       ∧ (Documents (base w') = None → Documents (base w) = None)
       ∧ (∀ p, (p, Deleted) ∈ seen → mlookup (Documents (base w')) p = None)
       ∧ (∀ p, (p, Deleted) ∉ seen →
               mlookup (Documents (base w')) p = mlookup (Documents (base w)) p))
    (λ _, False)).
  - intros seen [k st] [] rt1 w1 _ (-> & Hp & Hm & Hc & Hn & Hin & Hout). simpl.
    destruct (decide (st = Deleted)) as [->|Hst].
    + unfold update, onBaseDocuments. simpl.
      split_and!; [done..| | |].
      * destruct (Documents (base w1)); [done|auto].
      * intros p Hp'. rewrite mlookup_mdelete. case_decide; [done|].
        apply Hin. apply elem_of_app in Hp' as [?|[= ?]%list_elem_of_singleton]; done.
      * intros p Hp'. rewrite mlookup_mdelete. rewrite decide_False.
        { apply Hout. intros ?. apply Hp', elem_of_app. by left. }
        intros ->. apply Hp', elem_of_app. right. by left.
    + unfold mret, M_ret. split_and!; [done..| |].
      * intros p Hp'. apply Hin.
        apply elem_of_app in Hp' as [?|[= ? ?]%list_elem_of_singleton]; done.
      * intros p Hp'. apply Hout. intros ?. apply Hp', elem_of_app. by left.
  - split_and!; [done..|by intros ? ?%elem_of_nil|done].
Qed.

(** The documents the copy loop leaves. *)
Lemma applyPhase_copy (paths : list string) rt w :
  match foldM (λ _ path,
                 w ← get;
                 update (onBaseDocuments
                           (mstore path (mget (Documents (patch w)) path))))
              paths tt rt w with
  | Done _ rt' w' =>
      rt' = rt ∧ patch w' = patch w ∧ Meta (base w') = Meta (base w)
      ∧ ResultChunks (base w') = ResultChunks (base w)
      ∧ (Documents (base w') = None → Documents (base w) = None)
      ∧ (∀ p, p ∈ paths →
              mlookup (Documents (base w')) p
              = Some (mget (Documents (patch w)) p))
      ∧ (∀ p, p ∉ paths →
              mlookup (Documents (base w')) p = mlookup (Documents (base w)) p)
  | Fail _ _ _ => False
  | Panic => Documents (base w) = None ∧ paths ≠ []
  end.
Proof.
  apply (foldM_loop
    (λ seen _ rt' w',
       rt' = rt ∧ patch w' = patch w ∧ Meta (base w') = Meta (base w)
       ∧ ResultChunks (base w') = ResultChunks (base w)
       ∧ (Documents (base w') = None → Documents (base w) = None)
       ∧ (∀ p, p ∈ seen →
               mlookup (Documents (base w')) p
               = Some (mget (Documents (patch w)) p))
       ∧ (∀ p, p ∉ seen →
               mlookup (Documents (base w')) p = mlookup (Documents (base w)) p))
    (λ o, match o with
          | Panic => Documents (base w) = None ∧ paths ≠ []
          | _ => False
          end)).
  - intros seen k [] rt1 w1 Hk (-> & Hp & Hm & Hc & Hn & Hin & Hout). simpl.
    unfold mbind, M_bind, get, update, onBaseDocuments.
    destruct (mstore k _ (Documents (base w1))) as [docs'|] eqn:Hst; simpl.
    + split_and!; [done..| | |].
      * by apply mstore_Some in Hst as (g & _ & ->).
      * intros p Hp'. rewrite (mlookup_mstore _ _ _ _ _ Hst), Hp.
        case_decide; [by subst|]. apply Hin.
        apply elem_of_app in Hp' as [?|?%list_elem_of_singleton]; done.
      * intros p Hp'. rewrite (mlookup_mstore _ _ _ _ _ Hst), decide_False.
        { apply Hout. intros ?. apply Hp', elem_of_app. by left. }
        intros ->. apply Hp', elem_of_app. right. by left.
    + apply mstore_None in Hst. split; [auto|].
      intros ->. by apply elem_of_nil in Hk.
  - split_and!; [done..|by intros ? ?%elem_of_nil|done].
Qed.

Lemma applyPhase_spec fs ptc rt w :
  match applyPhase fs ptc rt w with
  | Done _ rt' w' =>
      patch w' = patch w ∧ Meta (base w') = Meta (base w)
      ∧ ResultChunks (base w') = ResultChunks (base w)
      ∧ (∀ p, p ∈ ptc →
              mlookup (Documents (base w')) p
              = Some (mget (Documents (patch w)) p))
      ∧ (∀ p, p ∉ ptc → fs !! p = Some Deleted →
              mlookup (Documents (base w')) p = None)
      ∧ (∀ p, p ∉ ptc → fs !! p ≠ Some Deleted →
              mlookup (Documents (base w')) p = mlookup (Documents (base w)) p)
  | Fail _ _ _ => False
  | Panic => Documents (base w) = None ∧ ptc ≠ ∅
  end.
Proof.
  unfold applyPhase.
  destruct (rangeMap_Done (Some fs) rt w) as (statuses & Hs & Hsperm).
  simpl in Hsperm.
  unfold mbind at 1, M_bind at 1. rewrite Hs.
  unfold mbind at 1, M_bind at 1.
  pose proof (applyPhase_delete statuses (mkRT (nextID rt) (S (nextRange rt))) w)
    as Hdel.
  destruct (foldM _ statuses tt _ w) as [[] rt1 w1| |]; [|done..].
  destruct Hdel as (-> & Hp1 & Hm1 & Hc1 & Hn1 & Hin1 & Hout1).
  destruct (rangeOver_Done (elements ptc)
              (mkRT (nextID rt) (S (nextRange rt))) w1) as (paths & Hps & Hpperm).
  unfold mbind, M_bind. rewrite Hps.
  pose proof (applyPhase_copy paths
                (mkRT (nextID rt) (S (S (nextRange rt)))) w1) as Hcopy.
  simpl in *.
  destruct (foldM _ paths tt _ w1) as [[] rt2 w2| |]; [|done|].
  - destruct Hcopy as (-> & Hp2 & Hm2 & Hc2 & Hn2 & Hin2 & Hout2).
    assert (∀ p, p ∈ paths ↔ p ∈ ptc) as Hpaths.
    { intros p. by rewrite Hpperm, elem_of_elements. }
    assert (∀ p, (p, Deleted) ∈ statuses ↔ fs !! p = Some Deleted) as Hst.
    { intros p. by rewrite Hsperm, elem_of_map_to_list. }
    split_and!; [congruence..| | |].
    + intros p Hp. rewrite Hin2, Hp1 by by apply Hpaths. done.
    + intros p Hp Hd. rewrite Hout2 by by rewrite Hpaths. by apply Hin1, Hst.
    + intros p Hp Hd. rewrite Hout2 by by rewrite Hpaths.
      apply Hout1. by rewrite Hst.
  - destruct Hcopy as [Hnone Hne]. split; [auto|].
    intros ->. rewrite elements_empty in Hpperm.
    by apply Permutation_nil_r in Hpperm.
Qed.

(** ** [patchData] *)

Lemma zoom_Done {St T A} (proj : St → T) (inj : T → St → St) (m : M T A)
    rt s a rt' s' :
  zoom proj inj m rt s = Done a rt' s' ↔
  ∃ t, m rt (proj s) = Done a rt' t ∧ s' = inj t s.
Proof.
  unfold zoom. destruct (m rt (proj s)); [|by split; [|intros (? & ? & _)]..].
  split; [intros [= -> -> <-]; eauto|]. by intros (? & [= -> -> ->] & ->).
Qed.

Lemma elem_of_modifiedOrDeleted fs p :
  p ∈ modifiedOrDeleted fs ↔ fs !! p = Some Modified ∨ fs !! p = Some Deleted.
Proof.
  unfold modifiedOrDeleted. rewrite elem_of_dom. unfold is_Some.
  setoid_rewrite map_lookup_filter_Some. simpl. split.
  - intros (st & Hst & [-> | ->]); auto.
  - intros [H|H]; eexists; split; eauto.
Qed.

Lemma elem_of_pathsToCopyOf reindexedFiles fs p :
  p ∈ pathsToCopyOf reindexedFiles fs ↔
  p ∈ reindexedFiles ∨ fs !! p = Some Added.
Proof.
  unfold pathsToCopyOf.
  rewrite elem_of_union, elem_of_list_to_set, elem_of_dom. unfold is_Some.
  setoid_rewrite map_lookup_filter_Some. simpl. split.
  - intros [?|(st & Hst & ->)]; auto.
  - intros [?|?]; [by left|right; eauto].
Qed.

Lemma patchData_Done reindexedFiles fs rt w rt' w' :
  patchData reindexedFiles fs rt w = Done tt rt' w' →
  ∃ rt0 chunks0 rt1 w1,
    removeRefsIn (modifiedOrDeleted fs) (Meta (base w)) (Documents (base w))
                 rt (ResultChunks (base w)) = Done tt rt0 chunks0
    ∧ applyPhase fs (pathsToCopyOf reindexedFiles fs) rt1 w1 = Done tt rt' w'.
Proof.
  unfold patchData.
  intros (w0 & rt0 & w0' & [= -> -> ->] & H)%bind_Done.
  apply bind_Done in H as ([] & rt1 & w1 & (chunks0 & Hrem & ->)%zoom_Done & H).
  apply bind_Done in H as ([] & rt2 & w2 & _ & H).
  apply bind_Done in H as (defResultsByPath & rt3 & w3 & _ & H).
  apply bind_Done in H as ([] & rt4 & w4 & _ & H).
  eauto 10.
Qed.

(** ** [unifyRangeIDs] never panics on allocated shards *)

Lemma unifyUnchanged_spec {St} (updateToDoc toUpdateDoc : DocumentData)
    rt (s : St) :
  match unifyUnchanged updateToDoc toUpdateDoc rt s with
  | Done p _ s' => s' = s ∧ (Ranges toUpdateDoc = None → p = ∅)
  | Fail _ _ s' => s' = s
  | Panic => False
  end.
Proof.
  unfold unifyUnchanged.
  destruct (sortedRangeIDs_Done (Ranges updateToDoc) rt s)
    as (us & Hus & _ & _).
  unfold mbind at 1, M_bind at 1. rewrite Hus.
  destruct (sortedRangeIDs_Done (Ranges toUpdateDoc)
              (mkRT (nextID rt) (S (nextRange rt))) s) as (ts & Hts & Htperm & _).
  unfold mbind at 1, M_bind at 1. rewrite Hts.
  case_decide as Hlen; [done|].
  pose proof (foldM_loop
    (λ seen (p : gmap ID ID) (_ : RT) s', s' = s ∧ (seen = [] → p = ∅))
    (λ o, match o with Fail _ _ s' => s' = s | Panic => False | _ => True end)
    (λ pathUpdatedRngIDs '(idx, updateToRngID),
       let updateToRng := mget (Ranges updateToDoc) updateToRngID in
       match ts !! idx with
       | None => panic
       | Some toUpdateRngID =>
           let toUpdateRng' := mget (Ranges toUpdateDoc) toUpdateRngID in
           if decide (CompareRanges updateToRng toUpdateRng' ≠ 0)
           then fail unequalUnmodifiedPathsErr
           else mret (<[toUpdateRngID := updateToRngID]> pathUpdatedRngIDs)
       end)
    (imap pair us) ∅ (mkRT (nextID rt) (S (S (nextRange rt)))) s) as Hloop.
  simpl in *.
  match type of Hloop with ?P → ?Q → _ => assert P as Hstep; [|assert Q as Hinit] end.
  - clear Hloop. intros seen [idx u] p rt1 s1 Hin [-> _].
    apply elem_of_lookup_imap in Hin as (i & y & [= -> ->] & Hi).
    apply lookup_lt_Some in Hi. rewrite <-Hlen in Hi.
    apply lookup_lt_is_Some_2 in Hi as [t Ht]. rewrite Ht.
    case_decide; [done|]. unfold mret, M_ret. split; [done|].
    by intros [_ ?]%app_eq_nil.
  - done.
  - specialize (Hloop Hstep Hinit).
    destruct (foldM _ (imap pair us) ∅ _ s) as [p rt2 s2| |]; [|done..].
    destruct Hloop as [-> Hp]. split; [done|]. intros Hnone. apply Hp.
    rewrite Hnone in Htperm. simpl in Htperm.
    apply Permutation_nil_r in Htperm. subst ts.
    destruct us; [done|discriminate].
Qed.

Lemma unifyChanged_spec {St} (toUpdateDoc : DocumentData) u rt (s : St) :
  match unifyChanged toUpdateDoc u rt s with
  | Done _ _ s' => s' = s
  | Fail _ _ s' => s' = s
  | Panic => False
  end.
Proof.
  unfold unifyChanged.
  destruct (rangeOver_Done (mkeys (Ranges toUpdateDoc)) rt s) as (ks & Hks & _).
  unfold mbind at 1, M_bind at 1. rewrite Hks.
  apply (foldM_loop (λ _ _ _ s', s' = s)
           (λ o, match o with Fail _ _ s' => s' = s | Panic => False | _ => True end)).
  - intros seen k u1 rt1 s1 _ ->. unfold mbind, M_bind, newID.
    by destruct (idsrc (nextID rt1)).
  - done.
Qed.

Lemma setRange_present path id rng docs doc g :
  mlookup docs path = Some doc → Ranges doc = Some g →
  ∃ docs' g', setRange path id rng docs = Some docs'
              ∧ mlookup docs' path = Some (mkDoc (Some g')).
Proof.
  intros Hd Hg. unfold setRange. rewrite Hd. simpl. rewrite Hg. simpl.
  destruct docs as [d|]; [|done]. simpl.
  eexists _, _. split; [done|]. simpl. apply lookup_insert_eq.
Qed.

Lemma deleteRange_present path id docs g :
  mlookup docs path = Some (mkDoc (Some g)) →
  ∃ g', mlookup (deleteRange path id docs) path = Some (mkDoc (Some g')).
Proof.
  unfold deleteRange. destruct docs as [d|]; [|done]. simpl. intros Hd.
  rewrite lookup_alter_eq, Hd. simpl. eauto.
Qed.

Lemma relabel_spec path (p : gmap ID ID) res rt docs chunks :
  (p = ∅ ∨ ∃ doc g, mlookup docs path = Some doc ∧ Ranges doc = Some g) →
  match relabel path p res rt (docs, chunks) with
  | Done _ _ s' => s'.2 = chunks
  | Fail _ _ _ => False
  | Panic => False
  end.
Proof.
  intros Hpre. unfold relabel.
  destruct (rangeMap_Done (Some p) rt (docs, chunks)) as (renames & Hr & Hperm).
  unfold mbind at 1, M_bind at 1. rewrite Hr. simpl in Hperm.
  destruct Hpre as [->|Hdoc].
  { rewrite map_to_list_empty in Hperm. apply Permutation_nil_r in Hperm.
    by subst renames. }
  loop_rule
    (λ (_ : list (string * string)) (_ : gset ID) (_ : RT)
       (s' : gomap string DocumentData * gomap Z ResultChunkData),
       s'.2 = chunks
       ∧ ∃ doc g, mlookup s'.1 path = Some doc ∧ Ranges doc = Some g)
    (λ _ : outcome (gomap string DocumentData * gomap Z ResultChunkData)
                   (gset ID), False).
  - intros seen [oldID newID] res1 rt1 [docs1 chunks1] _ (Hc & doc & g & Hd & Hg).
    simpl in *. subst chunks1.
    unfold mbind, M_bind, get, update, onDocs. simpl.
    destruct (setRange_present path newID
                (mget (Ranges (mget docs1 path)) oldID) docs1 doc g Hd Hg)
      as (docs2 & g2 & Hset & Hd2).
    rewrite Hset. simpl.
    destruct (deleteRange_present path oldID docs2 g2 Hd2) as (g3 & Hd3).
    unfold mret, M_ret. simpl. split; [done|]. eauto.
  - done.
  - destruct (foldM _ renames res _ _); [|done..]. by destruct Hloop.
Qed.

Lemma mget_Ranges_present (docs : gomap string DocumentData) path g :
  Ranges (mget docs path) = Some g →
  ∃ doc, mlookup docs path = Some doc ∧ Ranges doc = Some g.
Proof.
  unfold mget. destruct (mlookup docs path) as [doc|]; simpl; [eauto|done].
Qed.

Lemma unifyPath_spec updateToDocs fs acc path rt docs chunks :
  match unifyPath updateToDocs fs acc path rt (docs, chunks) with
  | Done _ _ s' => s'.2 = chunks
  | Fail _ _ s' => s'.2 = chunks
  | Panic => False
  end.
Proof.
  destruct acc as [u res].
  unfold unifyPath, mbind, M_bind, get, mret, M_ret. simpl.
  assert (∀ p rt1,
            (Ranges (mget docs path) = None → p = ∅) →
            match relabel path p res rt1 (docs, chunks) with
            | Done _ _ s' => s'.2 = chunks
            | Fail _ _ _ => False
            | Panic => False
            end) as Hr.
  { intros p rt1 Hp. apply relabel_spec.
    destruct (Ranges (mget docs path)) as [g|] eqn:Hg; [|auto].
    right. apply mget_Ranges_present in Hg as (doc & ? & ?). eauto. }
  destruct (isUnchanged fs path).
  - pose proof (unifyUnchanged_spec (mget updateToDocs path) (mget docs path)
                  rt (docs, chunks)) as Hu.
    destruct (unifyUnchanged _ _ rt (docs, chunks)) as [p rt1 s1|e rt1 s1|];
      [|by subst|done].
    destruct Hu as [-> Hp]. specialize (Hr p rt1 Hp).
    by destruct (relabel path p res rt1 (docs, chunks)) as [res' rt2 s2| |].
  - pose proof (unifyChanged_spec (mget docs path) u rt (docs, chunks)) as Hu.
    destruct (unifyChanged _ u rt (docs, chunks)) as [u' rt1 s1|e rt1 s1|];
      [|by subst|done].
    subst s1. specialize (Hr ∅ rt1 (λ _, eq_refl)).
    by destruct (relabel path ∅ res rt1 (docs, chunks)) as [res' rt2 s2| |].
Qed.

Lemma updateResult_spec meta u resultID rt docs chunks :
  match updateResult meta u resultID rt (docs, chunks) with
  | Done _ _ s' => allAllocated meta chunks → allAllocated meta s'.2
  | Fail _ _ _ => False
  | Panic => ¬ allAllocated meta chunks
  end.
Proof.
  unfold updateResult, mbind, M_bind, get, update, onChunks. simpl.
  destruct (getDefRef resultID meta chunks) as [results chunk]. simpl.
  destruct (setLocations _ _ _ chunks) as [chunks'|] eqn:Hset; simpl.
  - intros HA id. eapply allocated_setLocations; [done|apply HA].
  - intros HA.
    match type of Hset with
    | setLocations _ _ ?locs _ = _ =>
        destruct (setLocations_is_Some meta resultID locs chunks (HA _)) as [? Hs]
    end.
    unfold chunkOf in *. congruence.
Qed.

Lemma unifyRangeIDs_spec updateToDocs meta fs rt docs chunks :
  match unifyRangeIDs updateToDocs meta fs rt (docs, chunks) with
  | Done _ _ _ => True
  | Fail _ _ _ => True
  | Panic => ¬ allAllocated meta chunks
  end.
Proof.
  unfold unifyRangeIDs.
  unfold mbind at 1, M_bind at 1, get. simpl.
  destruct (rangeOver_Done (mkeys docs) rt (docs, chunks)) as (paths & Hps & _).
  unfold mbind at 1, M_bind at 1. rewrite Hps.
  unfold mbind at 1, M_bind at 1.
  loop_rule
    (λ (_ : list string) (_ : gmap ID ID * gset ID) (_ : RT)
       (s' : gomap string DocumentData * gomap Z ResultChunkData), s'.2 = chunks)
    (λ o : outcome (gomap string DocumentData * gomap Z ResultChunkData)
                   (gmap ID ID * gset ID),
       match o with Panic => False | _ => True end).
  { intros seen path acc rt1 [docs1 chunks1] _ Hc. simpl in Hc. subst chunks1.
    pose proof (unifyPath_spec updateToDocs fs acc path rt1 docs1 chunks) as Hp.
    by destruct (unifyPath _ _ _ _ rt1 _). }
  { done. }
  destruct (foldM _ paths _ _ _) as [[u res] rt2 [docs2 chunks2]| |]; [|done..].
  simpl in Hloop. subst chunks2.
  destruct (rangeOver_Done (elements res) rt2 (docs2, chunks)) as (ids & Hids & _).
  unfold mbind at 1, M_bind at 1. rewrite Hids.
  loop_rule
    (λ (_ : list string) (_ : unit) (_ : RT)
       (s' : gomap string DocumentData * gomap Z ResultChunkData),
       allAllocated meta chunks → allAllocated meta s'.2)
    (λ o : outcome (gomap string DocumentData * gomap Z ResultChunkData) unit,
       match o with
       | Panic => ¬ allAllocated meta chunks
       | _ => True
       end).
  { intros seen id [] rt3 [docs3 chunks3] _ HA. simpl in HA.
    pose proof (updateResult_spec meta u id rt3 docs3 chunks3) as Hu.
    destruct (updateResult _ _ _ rt3 _) as [? ? s4| |]; [tauto|done|tauto]. }
  { done. }
  by destruct (foldM _ ids _ _ _).
Qed.

Lemma unifyRangeIDs_no_documents updateToDocs meta fs rt
    (docs : gomap string DocumentData) chunks :
  mkeys docs = [] →
  unifyRangeIDs updateToDocs meta fs rt (docs, chunks)
    = Done tt (mkRT (nextID rt) (S (S (nextRange rt)))) (docs, chunks).
Proof.
  intros Hk. unfold unifyRangeIDs, mbind, M_bind, get, rangeOver. simpl.
  rewrite Hk. simpl. by rewrite elements_empty.
Qed.

(** ** The merge of a patch without changes *)

Lemma foldM_skip {St K B} (f : B → K → M St B) l b rt s :
  (∀ k, k ∈ l → f b k rt s = Done b rt s) →
  foldM f l b rt s = Done b rt s.
Proof.
  induction l as [|k l IH]; intros Hf; [done|]. simpl.
  unfold mbind, M_bind. rewrite Hf by left. apply IH.
  intros k' ?. apply Hf. by right.
Qed.

Lemma all_unchanged_sets fs :
  (∀ p st, fs !! p = Some st → st = Unchanged) →
  modifiedOrDeleted fs = ∅ ∧ pathsToCopyOf [] fs = ∅.
Proof.
  intros Hall. split; apply elem_of_equiv_empty_L; intros p.
  - intros [H|H]%elem_of_modifiedOrDeleted; by apply Hall in H.
  - intros [H|H]%elem_of_pathsToCopyOf; [by apply elem_of_nil in H|].
    by apply Hall in H.
Qed.

Lemma removeRefsIn_empty meta docs rt chunks :
  removeRefsIn ∅ meta docs rt chunks
    = Done tt (mkRT (nextID rt) (S (nextRange rt))) chunks.
Proof.
  unfold removeRefsIn, removeRefsLoop, mbind, M_bind, rangeOver.
  by rewrite elements_empty.
Qed.

Lemma collectDefResults_empty rt w :
  collectDefResults ∅ rt w = Done ∅ (mkRT (nextID rt) (S (nextRange rt))) w.
Proof.
  unfold collectDefResults, mbind, M_bind, rangeOver, get.
  by rewrite elements_empty.
Qed.

Lemma mergeDefResults_empty fs ptc rt w :
  mergeDefResults fs ptc ∅ rt w
    = Done tt (mkRT (nextID rt) (S (nextRange rt))) w.
Proof.
  unfold mergeDefResults, rangeMap, mbind, M_bind, rangeOver, mkeys. simpl.
  by rewrite map_to_list_empty.
Qed.

Lemma applyPhase_noop fs rt w :
  (∀ p, fs !! p ≠ Some Deleted) →
  applyPhase fs ∅ rt w = Done tt (mkRT (nextID rt) (S (S (nextRange rt)))) w.
Proof.
  intros Hfs. unfold applyPhase.
  destruct (rangeMap_Done (Some fs) rt w) as (statuses & Hs & Hperm).
  simpl in Hperm.
  unfold mbind at 1, M_bind at 1. rewrite Hs.
  unfold mbind at 1, M_bind at 1. rewrite foldM_skip.
  - unfold mbind, M_bind, rangeOver. by rewrite elements_empty.
  - intros [p st] Hin. simpl. rewrite decide_False; [done|].
    intros ->. apply (Hfs p). apply elem_of_map_to_list. by rewrite <-Hperm.
Qed.

Lemma World_eta w :
  mkWorld (setResultChunks (ResultChunks (base w)) (base w)) (patch w) = w.
Proof. by destruct w as [[] ?]. Qed.

(** When every path is unchanged and nothing was reindexed, the merge
    never returns an error, and when it returns, the base bundle is the
    one it was given.  A patch that nevertheless holds documents is
    unified against the base and can make the merge panic on a missing
    shard. *)
Lemma all_unchanged_outcome (reindexedFiles : list string)
    (fileStatus : gmap string Status) (rt : RT) (w : World) :
  (∀ p st, fileStatus !! p = Some st → st = Unchanged) →
  reindexedFiles = [] →
  match patchData reindexedFiles fileStatus rt w with
  | Done _ _ w' => base w' = base w
  | Fail _ _ _ => False
  | Panic => ¬ allAllocated (Meta (patch w)) (ResultChunks (patch w))
             ∧ mkeys (Documents (patch w)) ≠ []
  end.
Proof.
  intros Hall ->. destruct (all_unchanged_sets fileStatus Hall) as [Hmod Hptc].
  unfold patchData. rewrite Hmod, Hptc.
  unfold mbind at 1, M_bind at 1, get.
  unfold mbind at 1, M_bind at 1, zoom at 1, baseChunks, setBaseChunks.
  rewrite removeRefsIn_empty, World_eta.
  unfold mbind at 1, M_bind at 1, discard_error, zoom, patchDocsChunks,
    setPatchDocsChunks.
  pose proof (unifyRangeIDs_spec (Documents (base w)) (Meta (patch w)) fileStatus
                (mkRT (nextID rt) (S (nextRange rt)))
                (Documents (patch w)) (ResultChunks (patch w))) as Hu.
  assert (∀ rt1 w1, base w1 = base w →
            match (defResultsByPath ← collectDefResults ∅;
                   mergeDefResults fileStatus ∅ defResultsByPath;;
                   applyPhase fileStatus ∅) rt1 w1 with
            | Done _ _ w' => base w' = base w
            | Fail _ _ _ => False
            | Panic => ¬ allAllocated (Meta (patch w)) (ResultChunks (patch w))
                       ∧ mkeys (Documents (patch w)) ≠ []
            end) as Hrest.
  { intros rt1 w1 Hb. unfold mbind, M_bind.
    rewrite collectDefResults_empty, mergeDefResults_empty, applyPhase_noop; [done|].
    intros p Hp. by apply Hall in Hp. }
  destruct (decide (mkeys (Documents (patch w)) = [])) as [Hk|Hk].
  { rewrite unifyRangeIDs_no_documents by done. by apply Hrest. }
  destruct (unifyRangeIDs _ _ _ _ _) as [[] rt1 s1|e rt1 s1|]; [| |done];
    by apply Hrest.
Qed.

(** C8: when every path in [fileStatus] is unchanged and
    [reindexedFiles] is empty, the merge succeeds and the base bundle it
    leaves is equal to the base bundle it was given.  [reindexedFiles]
    is the set of paths the patch bundle holds index data for, so the
    documents of the patch are among them, and here the patch has none;
    the patch bundle is left as it was, too. *)
Theorem patchData_all_unchanged (reindexedFiles : list string)
    (fileStatus : gmap string Status) (rt : RT) (w : World) :
  (∀ p st, fileStatus !! p = Some st → st = Unchanged) →
  reindexedFiles = [] →
  (∀ p, p ∈ mkeys (Documents (patch w)) → p ∈ reindexedFiles) →
  ∃ rt' w', patchData reindexedFiles fileStatus rt w = Done tt rt' w'
            ∧ base w' = base w ∧ patch w' = patch w.
Proof.
  intros Hall -> Hdocs.
  assert (mkeys (Documents (patch w)) = []) as Hk.
  { destruct (mkeys (Documents (patch w))) as [|p l]; [done|].
    by specialize (Hdocs p (list_elem_of_here _ _)); apply elem_of_nil in Hdocs. }
  destruct (all_unchanged_sets fileStatus Hall) as [Hmod Hptc].
  unfold patchData. rewrite Hmod, Hptc.
  unfold mbind at 1, M_bind at 1, get.
  unfold mbind at 1, M_bind at 1, zoom at 1, baseChunks, setBaseChunks.
  rewrite removeRefsIn_empty, World_eta.
  unfold mbind at 1, M_bind at 1, discard_error, zoom, patchDocsChunks,
    setPatchDocsChunks.
  rewrite unifyRangeIDs_no_documents by done.
  unfold mbind, M_bind.
  rewrite collectDefResults_empty, mergeDefResults_empty, applyPhase_noop.
  - eexists _, _. split; [reflexivity|]. by destruct w as [b []].
  - intros p Hp. by apply Hall in Hp.
Qed.

(** ** The errors [patchData] returns *)

Lemma fo_ret {St A} e0 (a : A) : failsOnlyWith (St := St) e0 (mret a).
Proof. by intros rt s e rt' s'. Qed.

Lemma fo_get {St} e0 : failsOnlyWith (St := St) e0 get.
Proof. by intros rt s e rt' s'. Qed.

Lemma fo_panic {St A} e0 : failsOnlyWith (St := St) (A := A) e0 panic.
Proof. by intros rt s e rt' s'. Qed.

Lemma fo_update {St} e0 (f : St → option St) : failsOnlyWith e0 (update f).
Proof. intros rt s e rt' s'. unfold update. by destruct (f s). Qed.

Lemma fo_rangeOver {St} e0 ks : failsOnlyWith (St := St) e0 (rangeOver ks).
Proof. by intros rt s e rt' s'. Qed.

Lemma fo_newID {St} : failsOnlyWith (St := St) IDGenerationError newID.
Proof.
  intros rt s e rt' s'. unfold newID. destruct (idsrc _); [done|].
  by intros [= <- _ _].
Qed.

Lemma fo_bind {St A B} e0 (m : M St A) (f : A → M St B) :
  failsOnlyWith e0 m → (∀ a, failsOnlyWith e0 (f a)) →
  failsOnlyWith e0 (m ≫= f).
Proof.
  intros Hm Hf rt s e rt' s'. unfold mbind, M_bind.
  destruct (m rt s) as [a rt1 s1|e1 rt1 s1|] eqn:Em; [apply Hf| |done].
  intros [= <- _ _]. by eapply Hm.
Qed.

Lemma fo_foldM {St K B} e0 (f : B → K → M St B) l b :
  (∀ b k, failsOnlyWith e0 (f b k)) → failsOnlyWith e0 (foldM f l b).
Proof.
  intros Hf. revert b. induction l as [|k l IH]; intros b; simpl.
  - apply fo_ret.
  - apply fo_bind; [apply Hf|done].
Qed.

Lemma fo_zoom {St T A} e0 (proj : St → T) (inj : T → St → St) (m : M T A) :
  failsOnlyWith e0 m → failsOnlyWith e0 (zoom proj inj m).
Proof.
  intros Hm rt s e rt' s'. unfold zoom.
  destruct (m rt (proj s)) eqn:Em; [done| |done].
  intros [= <- _ _]. by eapply Hm.
Qed.

Lemma fo_discard_error {St} e0 (m : M St unit) :
  failsOnlyWith e0 (discard_error m).
Proof. intros rt s e rt' s'. unfold discard_error. by destruct (m rt s). Qed.

(** Take a computation apart along its binds, loops and branches. *)
Ltac fo_step :=
  first
    [ apply fo_ret | apply fo_get | apply fo_panic | apply fo_update
    | apply fo_rangeOver | apply fo_newID | apply fo_discard_error
    | apply fo_zoom
    | apply fo_foldM; intros ? ?
    | apply fo_bind; [|intros ?]
    | match goal with
      | |- failsOnlyWith _ (match ?x with _ => _ end) => destruct x
      end ].

Ltac fo := repeat fo_step.

Lemma fo_removeRefsIn e0 paths meta docs :
  failsOnlyWith e0 (removeRefsIn paths meta docs).
Proof.
  unfold removeRefsIn, removeRefsLoop, rangeMap, removeRefsRange. fo.
Qed.

Lemma fo_collectDefResults e0 ptc : failsOnlyWith e0 (collectDefResults ptc).
Proof. unfold collectDefResults, rangeMap. fo. Qed.

Lemma fo_applyPhase e0 fs ptc : failsOnlyWith e0 (applyPhase fs ptc).
Proof. unfold applyPhase, rangeMap. fo. Qed.

Lemma fo_mergeDefResults fs ptc d :
  failsOnlyWith IDGenerationError (mergeDefResults fs ptc d).
Proof.
  unfold mergeDefResults, mergeDefinition, mergeReference, baseDocumentID,
    canonicalIDs, documentIDsByPath, sortedRangeIDs, rangeMap.
  fo.
Qed.

(** X1: whatever error [patchData] returns is the error of the ID source;
    the error [unifyRangeIDs] reports for unequal ranges of an
    unmodified path never reaches the caller. *)
Theorem patchData_returns_only_ID_error (reindexedFiles : list string)
    (fileStatus : gmap string Status) (rt : RT) (w : World)
    (e : error) (rt' : RT) (w' : World) :
  patchData reindexedFiles fileStatus rt w = Fail e rt' w' →
  e = IDGenerationError.
Proof.
  revert rt w e rt' w'.
  change (failsOnlyWith IDGenerationError (patchData reindexedFiles fileStatus)).
  unfold patchData.
  apply fo_bind; [apply fo_get|intros w0].
  apply fo_bind; [apply fo_zoom, fo_removeRefsIn|intros _].
  apply fo_bind; [apply fo_discard_error|intros _].
  apply fo_bind; [apply fo_collectDefResults|intros d].
  apply fo_bind; [apply fo_mergeDefResults|intros _].
  apply fo_applyPhase.
Qed.

(** ** What [patchData] leaves alone *)

Global Instance sameBaseDocuments_refl : Reflexive sameBaseDocuments.
Proof. by intros w. Qed.

Global Instance sameBaseDocuments_trans : Transitive sameBaseDocuments.
Proof. intros w1 w2 w3 (? & ? & ?) (? & ? & ?). split_and!; congruence. Qed.

Section preserves.
Context {St : Type} (R : relation St) `{!Reflexive R, !Transitive R}.

Lemma pr_ret {A} (a : A) : preserves R (mret a).
Proof. by intros rt s a' rt' s' [= _ _ <-]. Qed.

Lemma pr_get : preserves R get.
Proof. by intros rt s a' rt' s' [= _ _ <-]. Qed.

Lemma pr_panic {A} : preserves R (panic (A := A)).
Proof. by intros rt s a' rt' s'. Qed.

Lemma pr_fail {A} e : preserves R (fail (A := A) e).
Proof. by intros rt s a' rt' s'. Qed.

Lemma pr_rangeOver ks : preserves R (rangeOver ks).
Proof. by intros rt s a' rt' s' [= _ _ <-]. Qed.

Lemma pr_newID : preserves R newID.
Proof. by intros rt s a' rt' s' (_ & _ & ->)%newID_Done. Qed.

Lemma pr_update (f : St → option St) :
  (∀ s s', f s = Some s' → R s s') → preserves R (update f).
Proof. intros Hf rt s a' rt' s' [? _]%update_Done. by apply Hf. Qed.

Lemma pr_bind {A B} (m : M St A) (f : A → M St B) :
  preserves R m → (∀ a, preserves R (f a)) → preserves R (m ≫= f).
Proof.
  intros Hm Hf rt s b rt' s' (a & rt1 & s1 & H1 & H2)%bind_Done.
  etrans; [by eapply Hm|by eapply Hf].
Qed.

Lemma pr_foldM {K B} (f : B → K → M St B) l b :
  (∀ b k, preserves R (f b k)) → preserves R (foldM f l b).
Proof.
  intros Hf. revert b. induction l as [|k l IH]; intros b; simpl.
  - apply pr_ret.
  - apply pr_bind; [apply Hf|done].
Qed.
End preserves.

Ltac pr_step :=
  first
    [ apply pr_ret; apply _ | apply pr_get; apply _ | apply pr_panic
    | apply pr_fail | apply pr_rangeOver; apply _ | apply pr_newID; apply _
    | apply pr_foldM; [apply _..|intros ? ?]
    | apply pr_bind; [apply _| |intros ?]
    | match goal with
      | |- preserves _ (match ?x with _ => _ end) => destruct x
      end ].

Ltac pr := repeat pr_step.

Lemma onBaseChunks_sameBaseDocuments f w w' :
  onBaseChunks f w = Some w' → sameBaseDocuments w w'.
Proof. by intros (chunks' & _ & ->)%onBaseChunks_Some. Qed.

Lemma onPatchDocuments_sameBaseDocuments f w w' :
  onPatchDocuments f w = Some w' → sameBaseDocuments w w'.
Proof. by intros (docs' & _ & ->)%onPatchDocuments_Some. Qed.

Lemma pr_collectDefResults ptc :
  preserves sameBaseDocuments (collectDefResults ptc).
Proof. unfold collectDefResults, rangeMap. pr. Qed.

Lemma pr_mergeDefResults fs ptc d :
  preserves sameBaseDocuments (mergeDefResults fs ptc d).
Proof.
  unfold mergeDefResults, mergeDefinition, mergeReference, baseDocumentID,
    canonicalIDs, documentIDsByPath, sortedRangeIDs, rangeMap.
  pr; apply pr_update;
    first [apply onBaseChunks_sameBaseDocuments
          |apply onPatchDocuments_sameBaseDocuments].
Qed.

Lemma discard_error_zoom_Done {St T} (proj : St → T) (inj : T → St → St)
    (m : M T unit) rt s a rt' s' :
  discard_error (zoom proj inj m) rt s = Done a rt' s' → ∃ t, s' = inj t s.
Proof.
  unfold discard_error, zoom.
  destruct (m rt (proj s)) as [? ? t|? ? t|]; [| |done]; intros [= _ _ <-]; eauto.
Qed.

(** The merge up to the apply phase. *)
Lemma patchData_before_apply reindexedFiles fs rt w rt' w' :
  patchData reindexedFiles fs rt w = Done tt rt' w' →
  ∃ rt1 w1,
    sameBaseDocuments w w1
    ∧ applyPhase fs (pathsToCopyOf reindexedFiles fs) rt1 w1 = Done tt rt' w'.
Proof.
  unfold patchData.
  intros (w0 & rt0 & w0' & [= -> -> ->] & H)%bind_Done.
  apply bind_Done in H as ([] & rt1 & w1 & (chunks0 & _ & ->)%zoom_Done & H).
  apply bind_Done in H as ([] & rt2 & w2 & [s2 ->]%discard_error_zoom_Done & H).
  apply bind_Done in H as (d & rt3 & w3 & Hc%pr_collectDefResults & H).
  apply bind_Done in H as ([] & rt4 & w4 & Hm%pr_mergeDefResults & H).
  exists rt4, w4. split; [|done].
  etrans; [|exact Hm]. etrans; [|exact Hc]. done.
Qed.

(** X2: a merge that returns without error leaves both shard counts as
    they were and changes no base document other than those at deleted
    paths and at the paths in [pathsToCopy]. *)
Theorem patchData_other_documents_untouched (reindexedFiles : list string)
    (fileStatus : gmap string Status) (rt : RT) (w : World) (rt' : RT) (w' : World) :
  patchData reindexedFiles fileStatus rt w = Done tt rt' w' →
  Meta (base w') = Meta (base w) ∧ Meta (patch w') = Meta (patch w)
  ∧ ∀ p, p ∉ pathsToCopyOf reindexedFiles fileStatus →
         fileStatus !! p ≠ Some Deleted →
         mlookup (Documents (base w')) p = mlookup (Documents (base w)) p.
Proof.
  intros (rt1 & w1 & (Hd & Hmb & Hmp) & Happly)%patchData_before_apply.
  pose proof (applyPhase_spec fileStatus
                (pathsToCopyOf reindexedFiles fileStatus) rt1 w1) as Hspec.
  rewrite Happly in Hspec.
  destruct Hspec as (Hp & Hm & _ & _ & _ & Hother).
  split_and!; [congruence|by rewrite Hp|].
  intros p Hptc Hdel. rewrite Hother by done. by rewrite Hd.
Qed.

(** ** What [removeRefsIn] does to each list *)

Lemma setLocations_DocumentPaths cid id locs chunks chunks' cid' :
  setLocations cid id locs chunks = Some chunks' →
  DocumentPaths (mget chunks' cid') = DocumentPaths (mget chunks cid').
Proof.
  intros (g & chunk & tbl & -> & Hg & Ht & ->)%setLocations_inv.
  unfold mget, mlookup. simpl.
  destruct (decide (cid' = cid)) as [->|Hne].
  - by rewrite lookup_insert_eq, Hg.
  - by rewrite lookup_insert_ne.
Qed.

Lemma removeRefsRange_lists paths meta docs chunks0 acc rng rt chunks :
  referencedAt paths docs (ReferenceResultID rng) →
  listsFiltered paths meta docs chunks0 acc chunks →
  match removeRefsRange paths meta acc rng rt chunks with
  | Done acc' _ chunks' => listsFiltered paths meta docs chunks0 acc' chunks'
  | _ => True
  end.
Proof.
  destruct acc as [deletedRefs written]. intros Href (Hdp & Hin & Hout & Hrefd).
  unfold removeRefsRange. case_decide as Hd.
  { unfold mret, M_ret. by split_and!. }
  unfold mbind, M_bind, get, update.
  destruct (getDefRef (ReferenceResultID rng) meta chunks) as [refs refChunk] eqn:Hget.
  destruct (setLocations _ _ _ chunks) as [chunks'|] eqn:Hset; [|done].
  unfold mret, M_ret. cbn [fst snd] in *. cbv beta iota.
  unfold listsFiltered. cbn [fst snd]. split_and!.
  - intros cid. by rewrite (setLocations_DocumentPaths _ _ _ _ _ cid Hset).
  - intros id Hid.
    destruct (getDefRef_setLocations meta _ _ _ _ id Hset) as [-> _].
    case_decide as Heq.
    + subst id. unfold withoutPaths.
      rewrite <-(Hout _ Hd), Hget. cbn [fst snd].
      assert (refChunk = mget chunks (chunkOf (ReferenceResultID rng) meta))
        as -> by (by injection Hget as _ <-).
      unfold ownerPath, getDefRef. simpl. unfold chunkOf. by rewrite Hdp.
    + apply Hin. by apply elem_of_union in Hid as [?%elem_of_singleton|?].
  - intros id Hid.
    destruct (getDefRef_setLocations meta _ _ _ _ id Hset) as [-> _].
    rewrite decide_False.
    + apply Hout. intros ?. apply Hid. by apply elem_of_union_r.
    + intros ->. apply Hid. by apply elem_of_union_l, elem_of_singleton.
  - intros id [->%elem_of_singleton|?]%elem_of_union; auto.
Qed.

Lemma removeRefsLoop_lists paths meta docs rt chunks :
  match removeRefsLoop paths meta docs rt chunks with
  | Done acc _ chunks' => listsFiltered paths meta docs chunks acc chunks'
  | _ => True
  end.
Proof.
  unfold removeRefsLoop.
  destruct (rangeOver_Done (elements paths) rt chunks) as (ps & Hps & Hperm).
  unfold mbind at 1, M_bind at 1. rewrite Hps.
  loop_rule
    (λ (_ : list string) (acc : gset ID * list ID) (_ : RT)
       (chunks' : gomap Z ResultChunkData),
       listsFiltered paths meta docs chunks acc chunks')
    (λ _ : outcome (gomap Z ResultChunkData) (gset ID * list ID), True).
  - intros seen path acc rt1 chunks1 Hpath HJ.
    destruct (rangeMap_Done (Ranges (mget docs path)) rt1 chunks1)
      as (rngs & Hrngs & Hrperm).
    unfold mbind, M_bind. rewrite Hrngs.
    loop_rule
      (λ (_ : list (string * RangeData)) (acc : gset ID * list ID) (_ : RT)
         (chunks' : gomap Z ResultChunkData),
         listsFiltered paths meta docs chunks acc chunks')
      (λ _ : outcome (gomap Z ResultChunkData) (gset ID * list ID), True).
    + intros seen' [rngID rng] acc2 rt2 chunks2 Hkv HJ2. simpl.
      pose proof (removeRefsRange_lists paths meta docs chunks acc2 rng rt2 chunks2)
        as Hstep.
      destruct (removeRefsRange _ _ _ rng rt2 chunks2); [|done..].
      apply Hstep; [|done].
      exists path, rngID, rng. split_and!; [|
        |done].
      * rewrite Hperm in Hpath. by apply elem_of_elements in Hpath.
      * rewrite Hrperm in Hkv.
        destruct (Ranges (mget docs path)) as [g|]; simpl in *;
          [by apply elem_of_map_to_list|by apply elem_of_nil in Hkv].
    + done.
    + by destruct (foldM _ rngs acc _ chunks1).
  - split_and!; simpl; [done|by intros ? ?%elem_of_empty|done
                        |by intros ? ?%elem_of_empty].
  - by destruct (foldM _ ps _ _ chunks).
Qed.

Lemma removeRefsIn_acc paths meta docs rt chunks rt' chunks' :
  removeRefsIn paths meta docs rt chunks = Done tt rt' chunks' →
  ∃ acc, listsFiltered paths meta docs chunks acc chunks'
         ∧ (∀ id, referencedAt paths docs id → id ∈ acc.1).
Proof.
  unfold removeRefsIn.
  intros (acc & rt1 & chunks1 & Hloop & (_ & -> & ->)%ret_Done)%bind_Done.
  pose proof (removeRefsLoop_lists paths meta docs rt chunks) as Hl.
  pose proof (removeRefsLoop_spec paths meta docs rt chunks) as Hs.
  rewrite Hloop in Hl, Hs. destruct Hs as (_ & Hseen & _).
  exists acc. split; [done|].
  intros id (path & rngID & rng & Hp & Hlk & <-). eauto.
Qed.

(** X3: when the stale-reference remover completes, it has changed no
    shard's document table; the list of a result that some range of a
    document at one of the paths carries as its reference result is the
    old list without the locations owned by these paths, in the old
    order; and the list of every other result is the old list. *)
Theorem removeRefsIn_lists (paths : gset string) (meta : MetaData)
    (docs : gomap string DocumentData) (rt : RT)
    (chunks : gomap Z ResultChunkData) (rt' : RT)
    (chunks' : gomap Z ResultChunkData) :
  removeRefsIn paths meta docs rt chunks = Done tt rt' chunks' →
  (∀ cid, DocumentPaths (mget chunks' cid) = DocumentPaths (mget chunks cid))
  ∧ (∀ id, referencedAt paths docs id →
           (getDefRef id meta chunks').1 = withoutPaths paths meta chunks id)
  ∧ (∀ id, ¬ referencedAt paths docs id →
           (getDefRef id meta chunks').1 = (getDefRef id meta chunks).1).
Proof.
  intros (acc & (Hdp & Hin & Hout & Hrefd) & Hseen)%removeRefsIn_acc.
  split_and!; [done| |].
  - intros id Href. by apply Hin, Hseen.
  - intros id Hid. apply Hout. intros ?. apply Hid. auto.
Qed.

(** ** [unifyRangeIDs]: errors, and patches without unchanged documents *)

Lemma fo_fail {St A} e0 : failsOnlyWith (St := St) (A := A) e0 (fail e0).
Proof. by intros rt s e rt' s' [= <- _ _]. Qed.

Lemma fo_unifyUnchanged {St} updateToDoc toUpdateDoc :
  failsOnlyWith (St := St) unequalUnmodifiedPathsErr
    (unifyUnchanged updateToDoc toUpdateDoc).
Proof. unfold unifyUnchanged, sortedRangeIDs. fo; apply fo_fail. Qed.

Lemma unifyChanged_count {St} (toUpdateDoc : DocumentData) u rt (s : St) :
  match unifyChanged toUpdateDoc u rt s with
  | Done _ rt' s' =>
      s' = s
      ∧ nextID rt' = (nextID rt + length (mkeys (Ranges toUpdateDoc)))%nat
  | Fail e _ s' => e = IDGenerationError ∧ s' = s
  | Panic => False
  end.
Proof.
  unfold unifyChanged.
  destruct (rangeOver_Done (mkeys (Ranges toUpdateDoc)) rt s) as (ks & Hks & Hperm).
  unfold mbind at 1, M_bind at 1. rewrite Hks, <-(Permutation_length Hperm).
  apply (foldM_loop
           (λ seen _ rt' s', s' = s ∧ nextID rt' = (nextID rt + length seen)%nat)
           (λ o, match o with
                 | Fail e _ s' => e = IDGenerationError ∧ s' = s
                 | Panic => False
                 | _ => True
                 end)).
  - intros seen k u1 rt1 s1 _ [-> Hn]. unfold mbind, M_bind, newID.
    destruct (idsrc (nextID rt1)); [|done].
    unfold mret, M_ret. split; [done|]. rewrite length_app. simpl. lia.
  - split; [done|]. simpl. lia.
Qed.

Lemma unifyPath_outcome updateToDocs fs acc path rt docs chunks :
  match unifyPath updateToDocs fs acc path rt (docs, chunks) with
  | Done acc' rt' s' =>
      s'.2 = chunks
      ∧ (isUnchanged fs path = false →
         acc'.2 = acc.2 ∧ s' = (docs, chunks)
         ∧ nextID rt'
           = (nextID rt + length (mkeys (Ranges (mget docs path))))%nat)
  | Fail e rt' s' =>
      s' = (docs, chunks)
      ∧ e = (if isUnchanged fs path then unequalUnmodifiedPathsErr
             else IDGenerationError)
  | Panic => False
  end.
Proof.
  destruct acc as [u res].
  unfold unifyPath, mbind, M_bind, get, mret, M_ret. simpl.
  destruct (isUnchanged fs path).
  - pose proof (unifyUnchanged_spec (mget updateToDocs path) (mget docs path)
                  rt (docs, chunks)) as Hu.
    destruct (unifyUnchanged _ _ rt (docs, chunks)) as [p rt1 s1|e rt1 s1|] eqn:E;
      [|split; [done|by eapply fo_unifyUnchanged]|done].
    destruct Hu as [-> Hp].
    assert (p = ∅ ∨ ∃ doc g, mlookup docs path = Some doc ∧ Ranges doc = Some g)
      as Hpre.
    { destruct (Ranges (mget docs path)) as [g|] eqn:Hg; [|auto].
      right. apply mget_Ranges_present in Hg as (doc & ? & ?). eauto. }
    pose proof (relabel_spec path p res rt1 docs chunks Hpre) as Hr.
    destruct (relabel path p res rt1 (docs, chunks)) as [res' rt2 s2| |];
      [|done..].
    split; [done|]. by intros.
  - pose proof (unifyChanged_count (mget docs path) u rt (docs, chunks)) as Hu.
    destruct (unifyChanged _ u rt (docs, chunks)) as [u' rt1 s1|e rt1 s1|];
      [|by destruct Hu as [-> ->]|done].
    destruct Hu as [-> Hn].
    unfold relabel, rangeMap, rangeOver, mbind, M_bind, mret, M_ret, mkeys.
    simpl. rewrite map_to_list_empty. simpl.
    split; [done|]. intros _. by split_and!.
Qed.

(** X4: on a patch none of whose documents is at an unchanged path,
    [unifyRangeIDs] never panics, changes neither a document nor a
    shard, whether it returns nil or an error, returns no error but
    that of the ID source, and on success has requested one identifier
    for every range of the patch. *)
Theorem unifyRangeIDs_changed_only (updateToDocs : gomap string DocumentData)
    (toUpdateMeta : MetaData) (fileStatus : gmap string Status) (rt : RT)
    (toUpdateDocs : gomap string DocumentData)
    (toUpdateChunks : gomap Z ResultChunkData) :
  (∀ path, path ∈ mkeys toUpdateDocs →
           statusOf fileStatus path ≠ Some Unchanged) →
  match unifyRangeIDs updateToDocs toUpdateMeta fileStatus rt
                      (toUpdateDocs, toUpdateChunks) with
  | Done _ rt' s' =>
      s' = (toUpdateDocs, toUpdateChunks)
      ∧ nextID rt'
        = (nextID rt + rangeCount toUpdateDocs (mkeys toUpdateDocs))%nat
  | Fail e _ s' => e = IDGenerationError ∧ s' = (toUpdateDocs, toUpdateChunks)
  | Panic => False
  end.
Proof.
  intros Hch. unfold unifyRangeIDs.
  unfold mbind at 1, M_bind at 1, get. cbn [fst snd].
  destruct (rangeOver_Done (mkeys toUpdateDocs) rt (toUpdateDocs, toUpdateChunks))
    as (paths & Hps & Hperm).
  unfold mbind at 1, M_bind at 1. rewrite Hps.
  unfold mbind at 1, M_bind at 1.
  loop_rule
    (λ (seen : list string) (acc : gmap ID ID * gset ID) (rt' : RT)
       (s' : gomap string DocumentData * gomap Z ResultChunkData),
       acc.2 = ∅ ∧ s' = (toUpdateDocs, toUpdateChunks)
       ∧ nextID rt' = (nextID rt + rangeCount toUpdateDocs seen)%nat)
    (λ o : outcome (gomap string DocumentData * gomap Z ResultChunkData)
                   (gmap ID ID * gset ID),
       match o with
       | Fail e _ s' => e = IDGenerationError ∧ s' = (toUpdateDocs, toUpdateChunks)
       | Panic => False
       | _ => True
       end).
  { intros seen path acc rt1 s1 Hin (Hres & -> & Hn).
    pose proof (unifyPath_outcome updateToDocs fileStatus acc path rt1
                  toUpdateDocs toUpdateChunks) as Hp.
    assert (isUnchanged fileStatus path = false) as Hu.
    { apply isUnchanged_false, Hch. by rewrite <-Hperm. }
    rewrite Hu in Hp.
    destruct (unifyPath _ _ _ _ rt1 _) as [acc' rt2 s2|e rt2 s2|]; [| |done].
    - destruct Hp as (_ & Hp). destruct (Hp eq_refl) as (Hacc & -> & Hn2).
      split_and!; [congruence|done|].
      unfold rangeCount in *. rewrite sum_list_with_app. simpl. lia.
    - by destruct Hp as (-> & ->). }
  { split_and!; [done..|]. unfold rangeCount. simpl. lia. }
  destruct (foldM _ paths _ _ _) as [[u res] rt2 s2|e rt2 s2|]; [|done..].
  cbn [fst snd] in Hloop. destruct Hloop as (-> & -> & Hn).
  unfold rangeOver, mbind, M_bind. rewrite elements_empty. simpl.
  split; [done|]. rewrite Hn. unfold rangeCount. by rewrite Hperm.
Qed.

(** X5: an error [unifyRangeIDs] returns is the mismatch error of an
    unmodified path or the error of the ID source, and it is returned
    before any shard has been changed. *)
Theorem unifyRangeIDs_error (updateToDocs : gomap string DocumentData)
    (toUpdateMeta : MetaData) (fileStatus : gmap string Status) (rt : RT)
    (toUpdateDocs : gomap string DocumentData)
    (toUpdateChunks : gomap Z ResultChunkData) (e : error) (rt' : RT)
    (s' : gomap string DocumentData * gomap Z ResultChunkData) :
  unifyRangeIDs updateToDocs toUpdateMeta fileStatus rt
                (toUpdateDocs, toUpdateChunks) = Fail e rt' s' →
  (e = unequalUnmodifiedPathsErr ∨ e = IDGenerationError)
  ∧ s'.2 = toUpdateChunks.
Proof.
  unfold unifyRangeIDs.
  unfold mbind at 1, M_bind at 1, get. cbn [fst snd].
  destruct (rangeOver_Done (mkeys toUpdateDocs) rt (toUpdateDocs, toUpdateChunks))
    as (paths & Hps & Hperm).
  unfold mbind at 1, M_bind at 1. rewrite Hps.
  unfold mbind at 1, M_bind at 1.
  loop_rule
    (λ (seen : list string) (acc : gmap ID ID * gset ID) (rt' : RT)
       (s' : gomap string DocumentData * gomap Z ResultChunkData),
       s'.2 = toUpdateChunks)
    (λ o : outcome (gomap string DocumentData * gomap Z ResultChunkData)
                   (gmap ID ID * gset ID),
       match o with
       | Fail e _ s' => (e = unequalUnmodifiedPathsErr ∨ e = IDGenerationError)
                        ∧ s'.2 = toUpdateChunks
       | _ => True
       end).
  { intros seen path acc rt1 [docs1 chunks1] Hin Hc. simpl in Hc. subst chunks1.
    pose proof (unifyPath_outcome updateToDocs fileStatus acc path rt1
                  docs1 toUpdateChunks) as Hp.
    destruct (unifyPath _ _ _ _ rt1 _) as [acc' rt2 s2|e2 rt2 s2|]; [tauto| |done].
    destruct Hp as (-> & ->). split; [|done].
    destruct (isUnchanged fileStatus path); auto. }
  { done. }
  destruct (foldM _ paths _ _ _) as [[u res] rt2 s2|e2 rt2 s2|]; [| |done].
  - destruct (rangeOver_Done (elements res) rt2 s2) as (ids & Hids & _).
    unfold mbind at 1, M_bind at 1. rewrite Hids.
    loop_rule
      (λ (_ : list string) (_ : unit) (_ : RT)
         (_ : gomap string DocumentData * gomap Z ResultChunkData), True)
      (λ o : outcome (gomap string DocumentData * gomap Z ResultChunkData) unit,
         match o with Fail _ _ _ => False | _ => True end).
    { intros seen id [] rt3 [docs3 chunks3] _ _.
      pose proof (updateResult_spec toUpdateMeta u id rt3 docs3 chunks3) as Hu.
      by destruct (updateResult _ _ _ rt3 _). }
    { done. }
    by destruct (foldM _ ids _ _ _).
  - by intros [= <- _ <-].
Qed.

(** ** The pairing of the ranges of an unchanged document *)

Local Instance tupleLe_antisymm : AntiSymm (=) tupleLe.
Proof.
  intros [[[a1 a2] a3] a4] [[[b1 b2] b3] b4]. unfold tupleLe. intros Hab Hba.
  assert (a1 = b1 ∧ a2 = b2 ∧ a3 = b3 ∧ a4 = b4) as (-> & -> & -> & ->) by lia.
  done.
Qed.

Lemma sorted_positions ranges (l : list ID) :
  l ≡ₚ mkeys ranges →
  StronglySorted (λ i j, positionLe (mget ranges i) (mget ranges j)) l →
  (λ id, position (mget ranges id)) <$> l ≡ₚ positionsOf ranges
  ∧ StronglySorted tupleLe ((λ id, position (mget ranges id)) <$> l).
Proof.
  intros Hperm Hsorted. split; [unfold positionsOf; by rewrite Hperm|].
  eapply StronglySorted_fmap; [|exact Hsorted]. by intros i j.
Qed.

Lemma unifyUnchanged_pairing {St} (updateToDoc toUpdateDoc : DocumentData)
    (rt : RT) (s : St) :
  match unifyUnchanged updateToDoc toUpdateDoc rt s with
  | Done p rt' s' =>
      s' = s ∧ nextID rt' = nextID rt
      ∧ positionsOf (Ranges updateToDoc) ≡ₚ positionsOf (Ranges toUpdateDoc)
      ∧ (∀ old, old ∈ mkeys (Ranges toUpdateDoc) ↔ is_Some (p !! old))
      ∧ (∀ new, new ∈ mkeys (Ranges updateToDoc) ↔ ∃ old, p !! old = Some new)
      ∧ (∀ old old' new, p !! old = Some new → p !! old' = Some new → old = old')
      ∧ (∀ old new, p !! old = Some new →
                    position (mget (Ranges toUpdateDoc) old)
                    = position (mget (Ranges updateToDoc) new))
  | Fail e _ s' =>
      e = unequalUnmodifiedPathsErr ∧ s' = s
      ∧ ¬ positionsOf (Ranges updateToDoc) ≡ₚ positionsOf (Ranges toUpdateDoc)
  | Panic => False
  end.
Proof.
  unfold unifyUnchanged.
  destruct (sortedRangeIDs_Done (Ranges updateToDoc) rt s)
    as (us & Hus & Huperm & Husort).
  unfold mbind at 1, M_bind at 1. rewrite Hus.
  destruct (sortedRangeIDs_Done (Ranges toUpdateDoc)
              (mkRT (nextID rt) (S (nextRange rt))) s)
    as (ts & Hts & Htperm & Htsort).
  unfold mbind at 1, M_bind at 1. rewrite Hts.
  assert (NoDup us) as Hund by (rewrite Huperm; apply NoDup_mkeys).
  assert (NoDup ts) as Htnd by (rewrite Htperm; apply NoDup_mkeys).
  destruct (sorted_positions _ _ Huperm Husort) as [Hpu Hsu].
  destruct (sorted_positions _ _ Htperm Htsort) as [Hpt Hst].
  case_decide as Hlen.
  { unfold fail. split_and!; [done..|]. intros Hperm. apply Hlen.
    rewrite <-Hpu, <-Hpt in Hperm. apply Permutation_length in Hperm.
    by rewrite !length_fmap in Hperm. }
  assert (length ts = length us) as Hlen' by lia. clear Hlen.
  loop_rule
    (λ (seen : list (nat * ID)) (p : gmap ID ID) (rt' : RT) (s' : St),
       s' = s ∧ nextID rt' = nextID rt
       ∧ (∀ x, x ∈ seen → x ∈ imap pair us)
       ∧ (∀ old new, p !! old = Some new ↔
                     ∃ i, (i, new) ∈ seen ∧ ts !! i = Some old)
       ∧ (∀ i u t, (i, u) ∈ seen → ts !! i = Some t →
                   position (mget (Ranges updateToDoc) u)
                   = position (mget (Ranges toUpdateDoc) t)))
    (λ o : outcome St (gmap ID ID),
       match o with
       | Fail e _ s' =>
           e = unequalUnmodifiedPathsErr ∧ s' = s
           ∧ ∃ i u t, us !! i = Some u ∧ ts !! i = Some t
                      ∧ position (mget (Ranges updateToDoc) u)
                        ≠ position (mget (Ranges toUpdateDoc) t)
       | Panic => False
       | _ => True
       end).
  - intros seen [idx u] p rt1 s1 Hin (-> & Hn & Hsub & Hp & Hpos).
    pose proof Hin as Hin'.
    apply elem_of_lookup_imap in Hin' as (i & y & [= -> ->] & Hi).
    pose proof (lookup_lt_Some _ _ _ Hi) as Hlt. rewrite <-Hlen' in Hlt.
    apply lookup_lt_is_Some_2 in Hlt as [t Ht]. rewrite Ht.
    case_decide as Hc.
    { unfold fail. split_and!; [done..|]. exists i, y, t. split_and!; [done..|].
      by rewrite <-CompareRanges_eq_0. }
    assert (CompareRanges (mget (Ranges updateToDoc) y)
                          (mget (Ranges toUpdateDoc) t) = 0) as Hc0 by lia.
    unfold mret, M_ret. split_and!; [done..| | |].
    + intros x [?|Hx%list_elem_of_singleton]%elem_of_app; [auto|by subst x].
    + intros old new. rewrite lookup_insert_Some. split.
      * intros [[<- <-]|[Hne Hlk]].
        -- exists i. split; [|done]. apply elem_of_app. right.
           by apply list_elem_of_singleton.
        -- apply Hp in Hlk as (j & Hj & Htj). exists j. split; [|done].
           apply elem_of_app. by left.
      * intros (j & [Hj|[= -> ->]%list_elem_of_singleton]%elem_of_app & Htj).
        -- destruct (decide (t = old)) as [<-|Hne].
           ++ left. split; [done|].
              assert (j = i) as -> by by eapply NoDup_lookup.
              apply Hsub, elem_of_lookup_imap in Hj as (i' & y' & [= <- <-] & Hi').
              congruence.
           ++ right. split; [done|]. apply Hp. eauto.
        -- left. split; congruence.
    + intros j u' t' [Hj|[= -> ->]%list_elem_of_singleton]%elem_of_app Htj;
        [eauto|].
      assert (t' = t) as -> by congruence. by apply CompareRanges_eq_0.
  - split_and!; [done..|by intros ? ?%elem_of_nil| |by intros ? ? ? ?%elem_of_nil].
    intros old new. rewrite lookup_empty. split; [done|].
    by intros (i & ?%elem_of_nil & _).
  - destruct (foldM _ (imap pair us) ∅ _ s) as [p rt2 s2|e rt2 s2|]; [| |done].
    + destruct Hloop as (-> & Hn & _ & Hp & Hpos).
      assert (∀ old new, p !! old = Some new ↔
                ∃ i, us !! i = Some new ∧ ts !! i = Some old) as Hp'.
      { intros old new. rewrite Hp. split.
        - intros (i & (i' & y & [= <- <-] & Hi)%elem_of_lookup_imap & Ht). eauto.
        - intros (i & Hi & Ht). exists i. split; [|done].
          apply elem_of_lookup_imap. eauto. }
      assert (∀ i u t, us !! i = Some u → ts !! i = Some t →
                position (mget (Ranges updateToDoc) u)
                = position (mget (Ranges toUpdateDoc) t)) as Hpos'.
      { intros i u t Hi Ht. apply (Hpos i); [|done].
        apply elem_of_lookup_imap. eauto. }
      split_and!; [done|done| | | | |].
      * rewrite <-Hpu, <-Hpt.
        assert ((λ id, position (mget (Ranges updateToDoc) id)) <$> us
                = (λ id, position (mget (Ranges toUpdateDoc) id)) <$> ts) as ->;
          [|done].
        apply (list_eq_same_length _ _ (length us)).
        -- by rewrite length_fmap.
        -- by rewrite length_fmap.
        -- intros i x y _. rewrite !list_lookup_fmap.
           destruct (us !! i) as [u|] eqn:Hi; [|done].
           destruct (ts !! i) as [t|] eqn:Ht; [|done].
           simpl. intros [= <-] [= <-]. eauto.
      * intros old. rewrite <-Htperm, list_elem_of_lookup. split.
        -- intros [i Ht]. pose proof (lookup_lt_Some _ _ _ Ht) as Hlt.
           rewrite Hlen' in Hlt. apply lookup_lt_is_Some_2 in Hlt as [u Hu].
           exists u. apply Hp'. eauto.
        -- intros [new (i & _ & Ht)%Hp']. eauto.
      * intros new. rewrite <-Huperm, list_elem_of_lookup. split.
        -- intros [i Hu]. pose proof (lookup_lt_Some _ _ _ Hu) as Hlt.
           rewrite <-Hlen' in Hlt. apply lookup_lt_is_Some_2 in Hlt as [t Ht].
           exists t. apply Hp'. eauto.
        -- intros [old (i & Hu & _)%Hp']. eauto.
      * intros old old' new (i & Hi & Ht)%Hp' (j & Hj & Ht')%Hp'.
        assert (j = i) as -> by by apply (NoDup_lookup us j i new). congruence.
      * intros old new (i & Hi & Ht)%Hp'. symmetry. eauto.
    + destruct Hloop as (-> & -> & i & u & t & Hi & Ht & Hne).
      split_and!; [done..|]. intros Hperm.
      rewrite <-Hpu, <-Hpt in Hperm.
      apply (StronglySorted_unique tupleLe) in Hperm; [|done..].
      apply (f_equal (.!! i)) in Hperm. rewrite !list_lookup_fmap, Hi, Ht in Hperm.
      simpl in Hperm. congruence.
Qed.

(** X6: the pairing [unifyRangeIDs] computes for an unchanged path.
    Exactly one of two things happens, and in both no identifier is
    requested and nothing is changed.  Either the two documents have
    the same range positions, counted with multiplicity, and the
    pairing returns a table that maps the range IDs of the patch's
    document one to one onto the range IDs of the base's document, each
    to the ID of a range at the same position; or they do not, and the
    pairing returns the mismatch error. *)
Theorem unifyUnchanged_outcome {St} (updateToDoc toUpdateDoc : DocumentData)
    (rt : RT) (s : St) :
  (positionsOf (Ranges updateToDoc) ≡ₚ positionsOf (Ranges toUpdateDoc)
   ∧ ∃ p rt',
       unifyUnchanged updateToDoc toUpdateDoc rt s = Done p rt' s
       ∧ nextID rt' = nextID rt
       ∧ (∀ old, old ∈ mkeys (Ranges toUpdateDoc) ↔ is_Some (p !! old))
       ∧ (∀ new, new ∈ mkeys (Ranges updateToDoc) ↔ ∃ old, p !! old = Some new)
       ∧ (∀ old old' new, p !! old = Some new → p !! old' = Some new →
                          old = old')
       ∧ (∀ old new, p !! old = Some new →
                     position (mget (Ranges toUpdateDoc) old)
                     = position (mget (Ranges updateToDoc) new)))
  ∨ (¬ positionsOf (Ranges updateToDoc) ≡ₚ positionsOf (Ranges toUpdateDoc)
     ∧ ∃ rt', unifyUnchanged updateToDoc toUpdateDoc rt s
              = Fail unequalUnmodifiedPathsErr rt' s).
Proof.
  pose proof (unifyUnchanged_pairing updateToDoc toUpdateDoc rt s) as H.
  destruct (unifyUnchanged updateToDoc toUpdateDoc rt s)
    as [p rt' s'|e rt' s'|]; [| |done].
  - destruct H as (-> & Hn & Hperm & Hdom & Himg & Hinj & Hpos).
    left. split; [done|]. exists p, rt'. by split_and!.
  - destruct H as (-> & -> & Hperm). right. split; [done|]. by exists rt'.
Qed.

(** ** The relabelling of a document's ranges *)

(** The loop rule with the position in the list: the body runs on [k]
    after the elements [seen] and before the elements [rest]. *)
Lemma foldM_split {St K B} (I : list K → B → RT → St → Prop)
    (E : outcome St B → Prop) (f : B → K → M St B) (l : list K) b rt s :
  (∀ seen k rest b rt s, l = seen ++ k :: rest → I seen b rt s →
     match f b k rt s with
     | Done b' rt' s' => I (seen ++ [k]) b' rt' s'
     | Fail e rt' s' => E (Fail e rt' s')
     | Panic => E Panic
     end) →
  I [] b rt s →
  match foldM f l b rt s with
  | Done b' rt' s' => I l b' rt' s'
  | Fail e rt' s' => E (Fail e rt' s')
  | Panic => E Panic
  end.
Proof.
  intros Hstep HI.
  assert (∀ rest seen b rt s, l = seen ++ rest → I seen b rt s →
            match foldM f rest b rt s with
            | Done b' rt' s' => I l b' rt' s'
            | Fail e rt' s' => E (Fail e rt' s')
            | Panic => E Panic
            end) as H.
  { induction rest as [|k rest IH]; intros seen b0 rt0 s0 Hl HI0; simpl.
    - rewrite app_nil_r in Hl. by subst.
    - unfold mbind, M_bind.
      pose proof (Hstep seen k rest b0 rt0 s0 Hl HI0) as Hk.
      destruct (f b0 k rt0 s0); [|done..].
      apply (IH (seen ++ [k])); [by rewrite <-app_assoc|done]. }
  by apply (H l []).
Qed.

Ltac loop_split I E :=
  lazymatch goal with
  | |- context [foldM ?f ?l ?b ?rt ?s] =>
      let H := fresh "Hloop" in
      assert (match foldM f l b rt s with
              | Done b' rt' s' => I l b' rt' s'
              | Fail e rt' s' => E (Fail e rt' s')
              | Panic => E Panic
              end) as H;
      [apply (foldM_split I E)|cbv beta in H]
  end.

Lemma mget_insert {V} `{!Zero V} (k : string) (v : V) (d : gmap string V) :
  mget (Some (<[k := v]> d)) k = v.
Proof. unfold mget, mlookup. simpl. by rewrite lookup_insert_eq. Qed.

Lemma setRange_insert path id rng (d : gmap string DocumentData) g :
  setRange path id rng (Some (<[path := mkDoc (Some g)]> d))
  = Some (Some (<[path := mkDoc (Some (<[id := rng]> g))]> d)).
Proof.
  unfold setRange, mlookup, mstore. simpl. rewrite lookup_insert_eq. simpl.
  by rewrite insert_insert_eq.
Qed.

Lemma deleteRange_insert path id (d : gmap string DocumentData) g :
  deleteRange path id (Some (<[path := mkDoc (Some g)]> d))
  = Some (<[path := mkDoc (Some (delete id g))]> d).
Proof.
  unfold deleteRange. simpl. f_equal. by rewrite alter_insert_eq.
Qed.

Lemma relabel_renames (path : string) (pathUpdatedRngIDs : gmap ID ID)
    (resultsToUpdate : gset ID) (rt : RT) (d : gmap string DocumentData)
    (chunks : gomap Z ResultChunkData) (g : gmap ID RangeData) :
  d !! path = Some (mkDoc (Some g)) →
  (∀ old old' new, pathUpdatedRngIDs !! old = Some new →
                   pathUpdatedRngIDs !! old' = Some new → old = old') →
  (∀ old new, pathUpdatedRngIDs !! old = Some new →
              is_Some (pathUpdatedRngIDs !! new) → new = old) →
  ∃ res' rt' g',
    relabel path pathUpdatedRngIDs resultsToUpdate rt (Some d, chunks)
      = Done res' rt' (Some (<[path := mkDoc (Some g')]> d), chunks)
    ∧ nextID rt' = nextID rt
    ∧ (∀ old, is_Some (pathUpdatedRngIDs !! old) → g' !! old = None)
    ∧ (∀ old new, pathUpdatedRngIDs !! old = Some new → new ≠ old →
                  g' !! new = Some (mget (Some g) old))
    ∧ (∀ id, pathUpdatedRngIDs !! id = None →
             (∀ old, pathUpdatedRngIDs !! old ≠ Some id) →
             g' !! id = g !! id)
    ∧ (∀ id, id ∈ res' ↔
             id ∈ resultsToUpdate
             ∨ ∃ old, is_Some (pathUpdatedRngIDs !! old)
                      ∧ (id = DefinitionResultID (mget (Some g) old)
                         ∨ id = ReferenceResultID (mget (Some g) old))).
Proof.
  intros Hdoc Hinj Hfix. unfold relabel.
  destruct (rangeMap_Done (Some pathUpdatedRngIDs) rt (Some d, chunks))
    as (renames & Hr & Hperm).
  unfold mbind at 1, M_bind at 1. rewrite Hr. simpl in Hperm.
  assert (NoDup renames.*1) as Hnd.
  { rewrite Hperm. apply NoDup_fst_map_to_list. }
  assert (∀ old new, (old, new) ∈ renames ↔ pathUpdatedRngIDs !! old = Some new)
    as Hin.
  { intros old new. rewrite Hperm. apply elem_of_map_to_list. }
  loop_split
    (λ (seen : list (ID * ID)) (res1 : gset ID) (rt1 : RT)
       (s1 : gomap string DocumentData * gomap Z ResultChunkData),
       nextID rt1 = nextID rt
       ∧ ∃ g1, s1 = (Some (<[path := mkDoc (Some g1)]> d), chunks)
         ∧ (∀ old new, (old, new) ∈ seen → g1 !! old = None)
         ∧ (∀ old new, (old, new) ∈ seen → new ≠ old →
                       g1 !! new = Some (mget (Some g) old))
         ∧ (∀ id, id ∉ seen.*1 → id ∉ seen.*2 → g1 !! id = g !! id)
         ∧ (∀ id, id ∈ res1 ↔
                  id ∈ resultsToUpdate
                  ∨ ∃ old new, (old, new) ∈ seen
                      ∧ (id = DefinitionResultID (mget (Some g) old)
                         ∨ id = ReferenceResultID (mget (Some g) old))))
    (λ _ : outcome (gomap string DocumentData * gomap Z ResultChunkData)
                   (gset ID), False).
  - intros seen [old new] rest res1 rt1 s1 Hl
      (Hn & g1 & -> & Ha & Hb & Hc & Hres).
    assert (∀ x, x ∈ seen → x ∈ renames) as Hsub.
    { intros x Hx. rewrite Hl. apply elem_of_app. by left. }
    assert ((old, new) ∈ renames) as Hk.
    { rewrite Hl. apply elem_of_app. right. by left. }
    assert (old ∉ seen.*1) as Hold1.
    { rewrite Hl, fmap_app, fmap_cons in Hnd. simpl in Hnd.
      apply NoDup_app in Hnd as (_ & Hnd & _). intros Ho. apply (Hnd _ Ho).
      by left. }
    assert (old ∉ seen.*2) as Hold2.
    { intros ([o n] & Ho & Hon)%list_elem_of_fmap. simpl in Ho. subst n.
      assert (old = o) as <-.
      { apply (Hfix o old); [by apply Hin, Hsub|].
        exists new. by apply Hin. }
      apply Hold1. apply list_elem_of_fmap. by exists (old, old). }
    unfold mbind, M_bind, get, update, onDocs. cbn [fst snd].
    rewrite mget_insert. cbn [Ranges].
    assert (mget (Some g1) old = mget (Some g) old) as ->.
    { unfold mget, mlookup. simpl. by rewrite Hc. }
    rewrite setRange_insert. cbn [fmap option_fmap option_map fst snd].
    rewrite deleteRange_insert. unfold mret, M_ret.
    split; [done|]. eexists. split; [done|]. split_and!.
    + intros o n [Hon|Hon%list_elem_of_singleton]%elem_of_app.
      * destruct (decide (o = old)) as [->|Hne]; [by rewrite lookup_delete_eq|].
        rewrite lookup_delete_ne by done.
        destruct (decide (o = new)) as [->|Hne'].
        -- exfalso. apply Hne. apply (Hfix old new); [by apply Hin|].
           exists n. by apply Hin, Hsub.
        -- rewrite lookup_insert_ne by done. eauto.
      * injection Hon as -> ->. by rewrite lookup_delete_eq.
    + intros o n [Hon|Hon%list_elem_of_singleton]%elem_of_app Hne.
      * assert (n ≠ old) as Hn1.
        { intros ->. apply Hne. apply (Hfix o old); [by apply Hin, Hsub|].
          exists new. by apply Hin. }
        assert (n ≠ new) as Hn2.
        { intros ->. apply Hold1.
          assert (o = old) as -> by (eapply Hinj; apply Hin; eauto).
          apply list_elem_of_fmap. by exists (old, new). }
        rewrite lookup_delete_ne, lookup_insert_ne by done. eauto.
      * injection Hon as -> ->.
        by rewrite lookup_delete_ne, lookup_insert_eq.
    + intros id. rewrite !fmap_app, !not_elem_of_app. simpl.
      rewrite !not_elem_of_cons. intros (Hi1 & Hio & _) (Hi2 & Hin' & _).
      rewrite lookup_delete_ne, lookup_insert_ne by done. auto.
    + intros id. rewrite !elem_of_union, !elem_of_singleton, Hres. split.
      * intros [->|[->|[?|(o & n & Hon & Hid)]]]; [| |by left|].
        -- right. exists old, new. split; [|by left].
           apply elem_of_app. right. by apply list_elem_of_singleton.
        -- right. exists old, new. split; [|by right].
           apply elem_of_app. right. by apply list_elem_of_singleton.
        -- right. exists o, n. split; [|done]. apply elem_of_app. by left.
      * intros [?|(o & n & [Hon|Hon%list_elem_of_singleton]%elem_of_app & Hid)].
        -- auto.
        -- right. right. right. eauto.
        -- injection Hon as -> ->. destruct Hid as [->| ->]; auto.
  - split; [done|]. exists g. split_and!.
    + by rewrite insert_id.
    + by intros ? ? ?%elem_of_nil.
    + by intros ? ? ?%elem_of_nil.
    + done.
    + intros id. split; [auto|]. by intros [?|(? & ? & ?%elem_of_nil & _)].
  - destruct (foldM _ renames _ _ _) as [res' rt' s'| |]; [|done..].
    destruct Hloop as (Hn & g' & -> & Ha & Hb & Hc & Hres).
    exists res', rt', g'. split; [done|]. split; [done|]. split_and!.
    + intros old [new Hon]. eapply Ha. by apply Hin.
    + intros old new Hon Hne. apply Hb; [by apply Hin|done].
    + intros id Hnone Himg. apply Hc.
      * intros ([o n] & -> & Hon%Hin)%list_elem_of_fmap. simpl in *. congruence.
      * intros ([o n] & -> & Hon%Hin)%list_elem_of_fmap. simpl in *.
        by apply (Himg o).
    + intros id. rewrite Hres. split.
      * intros [?|(o & n & Hon%Hin & Hid)]; [by left|]. right. exists o.
        split; [by exists n|done].
      * intros [?|(o & [n Hon%Hin] & Hid)]; [by left|]. right. eauto.
Qed.

(** X7: the relabelling loop on a document with an allocated range
    table, for a renaming that sends no two IDs to the same ID and
    sends an ID to another renamed ID only if that is the ID itself.
    The loop completes, whatever order the walk takes, requests no
    identifier and changes no shard and no other document.  Afterwards
    no renamed ID is a key of the table: a range whose new ID is its
    old ID is gone.  Every new ID that differs from its old ID holds
    the range the old ID had, every other key holds what it held, and
    the results to update are the given ones together with the
    definition and reference results of the ranges at the renamed
    IDs. *)
Theorem relabel_outcome (path : string) (pathUpdatedRngIDs : gmap ID ID)
    (resultsToUpdate : gset ID) (rt : RT) (docs : gomap string DocumentData)
    (chunks : gomap Z ResultChunkData) (g : gmap ID RangeData) :
  mlookup docs path = Some (mkDoc (Some g)) →
  (∀ old old' new, pathUpdatedRngIDs !! old = Some new →
                   pathUpdatedRngIDs !! old' = Some new → old = old') →
  (∀ old new, pathUpdatedRngIDs !! old = Some new →
              is_Some (pathUpdatedRngIDs !! new) → new = old) →
  ∃ res' rt' docs',
    relabel path pathUpdatedRngIDs resultsToUpdate rt (docs, chunks)
      = Done res' rt' (docs', chunks)
    ∧ nextID rt' = nextID rt
    ∧ (∀ path', path' ≠ path → mlookup docs' path' = mlookup docs path')
    ∧ (∀ old, is_Some (pathUpdatedRngIDs !! old) →
              mlookup (Ranges (mget docs' path)) old = None)
    ∧ (∀ old new, pathUpdatedRngIDs !! old = Some new → new ≠ old →
                  mlookup (Ranges (mget docs' path)) new
                  = Some (mget (Some g) old))
    ∧ (∀ id, pathUpdatedRngIDs !! id = None →
             (∀ old, pathUpdatedRngIDs !! old ≠ Some id) →
             mlookup (Ranges (mget docs' path)) id = g !! id)
    ∧ (∀ id, id ∈ res' ↔
             id ∈ resultsToUpdate
             ∨ ∃ old, is_Some (pathUpdatedRngIDs !! old)
                      ∧ (id = DefinitionResultID (mget (Some g) old)
                         ∨ id = ReferenceResultID (mget (Some g) old))).
Proof.
  intros Hdoc Hinj Hfix. destruct docs as [d|]; [|done]. simpl in Hdoc.
  destruct (relabel_renames path pathUpdatedRngIDs resultsToUpdate rt d chunks g
              Hdoc Hinj Hfix)
    as (res' & rt' & g' & Hrun & Hn & Hgone & Hnew & Hrest & Hres).
  exists res', rt', (Some (<[path := mkDoc (Some g')]> d)).
  split; [done|]. split; [done|].
  rewrite mget_insert. cbn [Ranges mlookup mbind option_bind].
  split_and!; [|done..].
  intros path' Hne. simpl. by rewrite lookup_insert_ne.
Qed.

(** ** The locations the merge keeps *)

Global Instance listsExtended_refl : Reflexive listsExtended.
Proof. by intros w. Qed.

Global Instance listsExtended_trans : Transitive listsExtended.
Proof.
  intros w1 w2 w3 [Hm1 Hl1] [Hm2 Hl2]. split; [congruence|].
  intros id. etrans; [apply Hl1|]. rewrite <-Hm1. apply Hl2.
Qed.

Lemma getDefRef_setDocumentPath meta cid documentID path chunks chunks' id :
  setDocumentPath cid documentID path chunks = Some chunks' →
  (getDefRef id meta chunks').1 = (getDefRef id meta chunks).1.
Proof.
  unfold setDocumentPath, mlookup, mstore.
  destruct chunks as [g|]; simpl; [|done].
  destruct (g !! cid) as [[[tbl|] locs]|] eqn:Hg; simpl; [|done..].
  intros [= <-]. unfold getDefRef, mget, mlookup. simpl.
  destruct (decide (HashKey id (NumResultChunks meta) = cid)) as [->|Hne].
  - by rewrite lookup_insert_eq, Hg.
  - by rewrite lookup_insert_ne.
Qed.

Lemma baseDocumentID_listsExtended path resultID ids rt w r rt' w' :
  baseDocumentID path resultID ids rt w = Done r rt' w' → listsExtended w w'.
Proof.
  unfold baseDocumentID. destruct (ids !! path).
  - by intros (_ & _ & ->)%ret_Done.
  - intros (id & rt1 & w1 & (_ & _ & ->)%newID_Done & H)%bind_Done.
    apply bind_Done in H as (w2 & rt2 & w3 & [= -> -> ->] & H).
    apply bind_Done in H as ([] & rt3 & w4 & [Hu _]%update_Done & H).
    apply ret_Done in H as (_ & _ & ->).
    apply onBaseChunks_Some in Hu as (chunks' & Hset & ->).
    split; [done|]. intros id'. unfold setResultChunks. cbn [base ResultChunks].
    by rewrite (getDefRef_setDocumentPath _ _ _ _ _ _ id' Hset).
Qed.

Lemma mergeReference_listsExtended fs ptc path defID refID rc pds dc l loc
    rt w l' rt' w' :
  mergeReference fs ptc path defID refID rc pds dc l loc rt w = Done l' rt' w' →
  listsExtended w w'
  ∧ baseRefs l `prefix_of` baseRefs l' ∧ baseDefs l `prefix_of` baseDefs l'.
Proof.
  unfold mergeReference.
  intros (l1 & rt1 & w1 & H1 & H)%bind_Done.
  apply bind_Done in H as (l2 & rt2 & w2 & H2 & H).
  apply bind_Done in H as ([] & rt3 & w3 & H3 & H).
  apply ret_Done in H as (-> & _ & ->).
  assert (listsExtended w w1 ∧ baseRefs l `prefix_of` baseRefs l1
          ∧ baseDefs l1 = baseDefs l) as (Hm1 & Hr1 & Hd1).
  { destruct (isUnchanged fs _); [by apply ret_Done in H1 as (-> & _ & ->)|].
    apply bind_Done in H1 as ([id ids] & rt0 & w0 & Hb & H1).
    apply ret_Done in H1 as (<- & _ & ->). simpl.
    split_and!; [by eapply baseDocumentID_listsExtended| |done].
    by apply prefix_app_r. }
  assert (listsExtended w1 w2 ∧ baseRefs l' = baseRefs l1
          ∧ baseDefs l1 `prefix_of` baseDefs l') as (Hm2 & Hr2 & Hd2).
  { destruct (decide (length (baseDefs l1) = 0%nat));
      [|by apply ret_Done in H2 as (-> & _ & ->)].
    destruct (findPatchDef _ _ _ _); [|by apply ret_Done in H2 as (-> & _ & ->)].
    apply bind_Done in H2 as ([id ids] & rt0 & w0 & Hb & H2).
    apply ret_Done in H2 as (<- & _ & ->). simpl.
    split_and!; [by eapply baseDocumentID_listsExtended|done|].
    by apply prefix_app_r. }
  assert (listsExtended w2 w') as Hm3.
  { destruct (decide (_ ∈ ptc)); [|by apply ret_Done in H3 as (_ & _ & ->)].
    apply bind_Done in H3 as (w0 & rt0 & w0' & [= -> -> ->] & H3).
    apply update_Done in H3 as [Hu _].
    by apply onPatchDocuments_Some in Hu as (docs' & _ & ->). }
  split_and!.
  - by repeat (etrans; [done|]).
  - by rewrite Hr2.
  - by rewrite <-Hd1.
Qed.

Lemma pr_mergeDefinition fs ptc path baseDoc defsMap defRngID :
  preserves listsExtended
    (mergeDefinition fs ptc path baseDoc defsMap defRngID).
Proof.
  intros rt w [] rt' w'. unfold mergeDefinition.
  intros ([defID refID] & rt1 & w1 & Hc & H)%bind_Done.
  pose proof (canonicalIDs_state _ _ _ _ _ _ _ _ _ Hc) as ->.
  apply bind_Done in H as (w0 & rt2 & w2 & [= <- <- <-] & H).
  destruct (getDefRef (ReferenceResultID _) _ _) as [patchRefs patchRefChunk].
  destruct (getDefRef (DefinitionResultID _) _ _) as [patchDefs patchDefChunk].
  destruct (getDefRef refID _ _) as [baseRefs0 baseRefChunk] eqn:Hrefs.
  destruct (getDefRef defID _ _) as [baseDefs0 baseDefChunk] eqn:Hdefs.
  apply bind_Done in H as (ids1 & rt3 & w3 & ->%documentIDsByPath_state & H).
  apply bind_Done in H as (ids2 & rt4 & w4 & ->%documentIDsByPath_state & H).
  apply bind_Done in H as (l & rt5 & w5 & Hfold & H).
  apply bind_Done in H as ([] & rt6 & w6 & [Hu1 _]%update_Done & [Hu2 _]%update_Done).
  pose proof (foldM_loop
    (λ _ l1 _ w1, listsExtended w w1 ∧ baseRefs0 `prefix_of` baseRefs l1
                  ∧ baseDefs0 `prefix_of` baseDefs l1)
    (λ _, True)
    (mergeReference fs ptc path defID refID patchRefChunk patchDefs patchDefChunk)
    patchRefs (mkLocals baseRefs0 baseDefs0 ids1 ids2) rt4 w) as Hl.
  rewrite Hfold in Hl. destruct Hl as ((Hm & Hext) & Hr & Hd).
  { intros seen loc l1 rt0 w0 _ (Hw & Hr & Hd).
    destruct (mergeReference _ _ _ _ _ _ _ _ l1 loc rt0 w0) as [l2 rt7 w7| |] eqn:E;
      [|done..].
    apply mergeReference_listsExtended in E as (Hw' & Hr' & Hd').
    split_and!; by etrans. }
  { by split_and!. }
  apply onBaseChunks_Some in Hu1 as (chunks6 & Hs1 & ->).
  apply onBaseChunks_Some in Hu2 as (chunks7 & Hs2 & ->).
  unfold setResultChunks in *. cbn [base ResultChunks Meta] in *.
  split; [done|]. intros id. cbn [base ResultChunks].
  destruct (getDefRef_setLocations _ _ _ _ _ id Hs2) as [-> _].
  destruct (getDefRef_setLocations _ _ _ _ _ id Hs1) as [-> _].
  case_decide as Hid1; [subst id; by rewrite Hdefs|].
  case_decide as Hid2; [subst id; by rewrite Hrefs|].
  apply Hext.
Qed.

Lemma pr_mergeDefResults_lists fs ptc d :
  preserves listsExtended (mergeDefResults fs ptc d).
Proof.
  unfold mergeDefResults.
  apply pr_bind; [apply _|unfold rangeMap; pr|intros entries].
  apply pr_foldM; [apply _..|intros [] [path defsMap]].
  apply pr_bind; [apply _|apply pr_get; apply _|intros w0].
  apply pr_bind; [apply _|unfold sortedRangeIDs; pr|intros defIdxs].
  apply pr_foldM; [apply _..|intros [] defRngID].
  apply pr_mergeDefinition.
Qed.

Lemma collectDefResults_state ptc rt w d rt' w' :
  collectDefResults ptc rt w = Done d rt' w' → w' = w.
Proof.
  assert (preserves (=) (collectDefResults ptc)) as Hp.
  { unfold collectDefResults, rangeMap. pr. }
  intros H. symmetry. by eapply Hp.
Qed.

Lemma prefix_sublist_of {A} (l k : list A) : l `prefix_of` k → l `sublist_of` k.
Proof. intros [k' ->]. by apply sublist_inserts_r. Qed.

(** X8: a merge that returns without error drops no location from a
    location list of the base other than those the stale-reference
    remover filters out.  The final list of a result that a range of a
    modified or deleted base document carries as its reference result
    begins with the old list without the locations owned by modified
    or deleted paths; the final list of any other result begins with
    the old list; so every final list contains, in their old order,
    the old locations not owned by a modified or deleted path. *)
Theorem patchData_keeps_locations (reindexedFiles : list string)
    (fileStatus : gmap string Status) (rt : RT) (w : World) (rt' : RT) (w' : World) :
  patchData reindexedFiles fileStatus rt w = Done tt rt' w' →
  ∀ id,
    (referencedAt (modifiedOrDeleted fileStatus) (Documents (base w)) id →
     withoutPaths (modifiedOrDeleted fileStatus) (Meta (base w))
                  (ResultChunks (base w)) id
     `prefix_of` (getDefRef id (Meta (base w')) (ResultChunks (base w'))).1)
    ∧ (¬ referencedAt (modifiedOrDeleted fileStatus) (Documents (base w)) id →
       (getDefRef id (Meta (base w)) (ResultChunks (base w))).1
       `prefix_of` (getDefRef id (Meta (base w')) (ResultChunks (base w'))).1)
    ∧ withoutPaths (modifiedOrDeleted fileStatus) (Meta (base w))
                   (ResultChunks (base w)) id
      `sublist_of` (getDefRef id (Meta (base w')) (ResultChunks (base w'))).1.
Proof.
  unfold patchData.
  intros (w0 & rt0 & w0' & [= <- <- <-] & H)%bind_Done.
  apply bind_Done in H as ([] & rt1 & w1 & (chunks1 & Hrem & ->)%zoom_Done & H).
  apply bind_Done in H as ([] & rt2 & w2 & [s2 ->]%discard_error_zoom_Done & H).
  apply bind_Done in H as (d & rt3 & w3 & ->%collectDefResults_state & H).
  apply bind_Done in H as ([] & rt4 & w4 & [Hm Hext]%pr_mergeDefResults_lists & H).
  pose proof (applyPhase_spec fileStatus
                (pathsToCopyOf reindexedFiles fileStatus) rt4 w4) as Hspec.
  rewrite H in Hspec. destruct Hspec as (_ & Hm' & Hc' & _).
  unfold baseChunks, setPatchDocsChunks, setBaseChunks, setResultChunks in *.
  cbn [base patch Meta ResultChunks] in *. rewrite Hm', Hc', Hm.
  apply removeRefsIn_acc in Hrem as (acc & (_ & Hin & Hout & Hrefd) & Hseen).
  intros id. specialize (Hext id). split_and!.
  - intros Href. by rewrite <-(Hin id) by by apply Hseen.
  - intros Href. rewrite <-(Hout id); [done|]. intros ?. apply Href. auto.
  - destruct (decide (id ∈ acc.1)) as [Hid|Hid].
    + rewrite (Hin id Hid) in Hext. by apply prefix_sublist_of.
    + rewrite (Hout id Hid) in Hext.
      etrans; [|by apply prefix_sublist_of]. apply sublist_filter.
Qed.

(** ** The candidate definitions *)

Lemma collectedFrom_proper p (C C' : string → ID → Prop) d :
  (∀ defPath rngID, C defPath rngID ↔ C' defPath rngID) →
  collectedFrom p C d → collectedFrom p C' d.
Proof.
  intros HC [H1 H2]. split; [|done].
  intros defPath rngID def. by rewrite H1, HC.
Qed.

Lemma addDefResult_collected p defChunk C d defLoc :
  collectedFrom p C d →
  collectedFrom p
    (λ defPath rngID,
       C defPath rngID
       ∨ (defPath = ownerPath defChunk defLoc ∧ rngID = RangeID defLoc))
    (addDefResult p defChunk d defLoc).
Proof.
  intros [H1 H2]. unfold addDefResult, ownerPath.
  set (dp0 := mget (DocumentPaths defChunk) (DocumentID defLoc)).
  set (r0 := RangeID defLoc).
  set (m0 := default ∅ (d !! dp0)).
  assert (∀ r, m0 !! r = d !! dp0 ≫= (.!! r)) as Hm0.
  { intros r. unfold m0. destruct (d !! dp0); [done|apply lookup_empty]. }
  split.
  - intros defPath rngID def.
    destruct (decide (defPath = dp0)) as [->|Hdp].
    + rewrite lookup_insert_eq. simpl.
      destruct (m0 !! r0) as [x|] eqn:Hr0.
      * rewrite Hm0, H1. split; [intros [? ?]; auto|].
        intros [[?|[_ ->]] ->]; [done|]. split; [|done].
        rewrite Hm0 in Hr0. by apply H1 in Hr0 as [? _].
      * destruct (decide (rngID = r0)) as [->|Hr].
        -- rewrite lookup_insert_eq. split; [intros [= <-]; auto|].
           by intros [_ ->].
        -- rewrite lookup_insert_ne by done. rewrite Hm0, H1.
           split; [intros [? ?]; auto|]. by intros [[?|[_ ?]] ->].
    + rewrite lookup_insert_ne by done. rewrite H1.
      split; [intros [? ?]; auto|]. by intros [[?|[? _]] ->].
  - intros defPath m.
    destruct (decide (defPath = dp0)) as [->|Hdp].
    + rewrite lookup_insert_eq. intros [= <-]. exists r0.
      destruct (m0 !! r0) eqn:Hr0; [by rewrite Hr0|by rewrite lookup_insert_eq].
    + rewrite lookup_insert_ne by done. apply H2.
Qed.

Lemma foldl_addDefResult_collected p defChunk defs C d :
  collectedFrom p C d →
  collectedFrom p
    (λ defPath rngID,
       C defPath rngID
       ∨ ∃ loc, loc ∈ defs ∧ defPath = ownerPath defChunk loc
                ∧ rngID = RangeID loc)
    (foldl (addDefResult p defChunk) d defs).
Proof.
  revert C d. induction defs as [|loc defs IH]; intros C d Hd; simpl.
  - eapply collectedFrom_proper; [|done]. intros dp r. split; [auto|].
    by intros [?|(? & ?%elem_of_nil & _)].
  - eapply collectedFrom_proper;
      [|apply IH, (addDefResult_collected p defChunk C d loc), Hd].
    intros dp r. simpl. split.
    + intros [[?|[-> ->]]|(loc' & Hin & -> & ->)]; [by left| |].
      * right. exists loc. split; [by left|done].
      * right. exists loc'. split; [by right|done].
    + intros [?|(loc' & [->|Hin]%elem_of_cons & -> & ->)]; [by left; left| |].
      * left. by right.
      * right. eauto.
Qed.

(** X9: the search for candidate definitions never fails and never
    panics, requests no identifier and changes nothing.  Whatever order
    its walks take, the table it returns has an entry for a path and a
    range ID exactly when that range is a candidate definition, the
    entry is the range the patch has at that path under that ID (the
    zero range if it has none), and a path has an inner table exactly
    when the document at it has a candidate. *)
Theorem collectDefResults_outcome (pathsToCopy : gset string) (rt : RT)
    (w : World) :
  ∃ d rt',
    collectDefResults pathsToCopy rt w = Done d rt' w
    ∧ nextID rt' = nextID rt
    ∧ (∀ defPath rngID def,
         d !! defPath ≫= (.!! rngID) = Some def ↔
         definitionCandidate (patch w) pathsToCopy defPath rngID
         ∧ def = mget (Ranges (mget (Documents (patch w)) defPath)) rngID)
    ∧ (∀ defPath,
         is_Some (d !! defPath) ↔
         ∃ rngID, definitionCandidate (patch w) pathsToCopy defPath rngID).
Proof.
  unfold collectDefResults. unfold mbind at 1, M_bind at 1, get.
  destruct (rangeOver_Done (elements pathsToCopy) rt w) as (paths & Hps & Hperm).
  unfold mbind at 1, M_bind at 1. rewrite Hps.
  set (p := patch w).
  loop_rule
    (λ (seen : list string) (d : gmap string (gmap ID RangeData)) (rt' : RT)
       (w' : World),
       w' = w ∧ nextID rt' = nextID rt
       ∧ collectedFrom p
           (definitionCandidate p (list_to_set seen)) d)
    (λ _ : outcome World (gmap string (gmap ID RangeData)), False).
  - intros seen path d rt1 w1 _ (-> & Hn & Hd).
    destruct (rangeMap_Done (Ranges (mget (Documents p) path)) rt1 w)
      as (rngs & Hrngs & Hrperm).
    unfold mbind, M_bind. rewrite Hrngs.
    loop_rule
      (λ (seen' : list (ID * RangeData)) (d : gmap string (gmap ID RangeData))
         (rt' : RT) (w' : World),
         w' = w ∧ nextID rt' = nextID rt
         ∧ collectedFrom p
             (λ defPath rngID,
                definitionCandidate p (list_to_set seen) defPath rngID
                ∨ ∃ kv loc,
                    kv ∈ seen' ∧ DefinitionResultID kv.2 ≠ ""%string
                    ∧ loc ∈ (getDefRef (DefinitionResultID kv.2) (Meta p)
                                       (ResultChunks p)).1
                    ∧ defPath
                      = ownerPath (getDefRef (DefinitionResultID kv.2) (Meta p)
                                             (ResultChunks p)).2 loc
                    ∧ rngID = RangeID loc) d)
      (λ _ : outcome World (gmap string (gmap ID RangeData)), False).
    + intros seen' [srcID rng] d2 rt2 w2 _ (-> & Hn2 & Hd2). cbn [snd].
      case_decide as Hdef.
      * unfold mret, M_ret. split_and!; [done..|].
        eapply collectedFrom_proper; [|exact Hd2]. intros dp r. cbn [fst snd]. split.
        -- intros [?|(kv & loc & Hkv & ?)]; [by left|]. right. exists kv, loc.
           split; [|done]. apply elem_of_app. by left.
        -- intros [?|(kv & loc & [Hkv|Hkv%list_elem_of_singleton]%elem_of_app
                      & Hne & ?)]; [by left| |].
           ++ right. eauto.
           ++ subst kv. done.
      * destruct (getDefRef (DefinitionResultID rng) (Meta p) (ResultChunks p))
          as [defs defChunk] eqn:Hget.
        unfold mret, M_ret. split_and!; [done..|].
        eapply collectedFrom_proper;
          [|apply (foldl_addDefResult_collected p defChunk defs), Hd2].
        intros dp r. cbn [fst snd]. split.
        -- intros [[?|(kv & loc & Hkv & ?)]|(loc & Hloc & -> & ->)].
           ++ by left.
           ++ right. exists kv, loc. split; [|done]. apply elem_of_app. by left.
           ++ right. exists (srcID, rng), loc. cbn [fst snd]. rewrite Hget.
              split_and!; [|done..]. apply elem_of_app. right.
              by apply list_elem_of_singleton.
        -- intros [?|(kv & loc & [Hkv|Hkv%list_elem_of_singleton]%elem_of_app
                      & Hne & Hloc & -> & ->)]; [by left; left| |].
           ++ left. right. exists kv, loc. eauto.
           ++ subst kv. cbn [fst snd] in *. rewrite Hget in *. right. eauto.
    + split_and!; [done..|]. eapply collectedFrom_proper; [|exact Hd].
      intros dp r. split; [auto|]. by intros [?|(? & ? & ?%elem_of_nil & _)].
    + destruct (foldM _ rngs d _ w) as [d3 rt3 w3| |]; [|done..].
      destruct Hloop as (-> & Hn3 & Hd3). split_and!; [done..|].
      eapply collectedFrom_proper; [|exact Hd3].
      assert (∀ kv, kv ∈ rngs ↔
                mlookup (Ranges (mget (Documents p) path)) kv.1 = Some kv.2)
        as Hkv.
      { intros [k v]. rewrite Hrperm.
        destruct (Ranges (mget (Documents p) path)) as [g|]; simpl.
        - apply elem_of_map_to_list.
        - split; [by intros ?%elem_of_nil|done]. }
      intros dp r. unfold definitionCandidate. split.
      * intros [(path' & srcID & rng & loc & Hin & ?)|(kv & loc & Hin & ?)].
        -- exists path', srcID, rng, loc. split; [|done].
           rewrite list_to_set_app_L. by apply elem_of_union_l.
        -- exists path, kv.1, kv.2, loc. split_and!; try tauto.
           ++ rewrite list_to_set_app_L. apply elem_of_union_r.
              apply elem_of_list_to_set. by left.
           ++ by apply Hkv.
           ++ symmetry. tauto.
           ++ symmetry. tauto.
      * intros (path' & srcID & rng & loc & Hin & Hlk & Hne & Hloc & <- & <-).
        rewrite list_to_set_app_L in Hin.
        apply elem_of_union in Hin as [Hin|Hin].
        -- left. exists path', srcID, rng, loc. by split_and!.
        -- right. apply elem_of_list_to_set, list_elem_of_singleton in Hin.
           subst path'.
           exists (srcID, rng), loc. cbn [fst snd]. split_and!; [|done..].
           by apply (Hkv (srcID, rng)).
  - split_and!; [done..|]. split.
    + intros dp r def. rewrite lookup_empty. simpl. split; [done|].
      by intros [(? & ? & ? & ? & ?%elem_of_empty & _) _].
    + intros dp m. by rewrite lookup_empty.
  - destruct (foldM _ paths ∅ _ w) as [d rt' w'| |]; [|done..].
    destruct Hloop as (-> & Hn & Hd).
    assert (list_to_set paths = pathsToCopy) as Hset.
    { apply set_eq. intros x.
      by rewrite elem_of_list_to_set, Hperm, elem_of_elements. }
    rewrite Hset in Hd. destruct Hd as [H1 H2].
    exists d, rt'. split_and!; [done..|].
    intros dp. split.
    + intros [m Hm]. destruct (H2 dp m Hm) as (r & def & Hr). exists r.
      assert (d !! dp ≫= (.!! r) = Some def) as Hlk by by rewrite Hm.
      by apply H1 in Hlk as [? _].
    + intros [r Hc].
      assert (d !! dp ≫= (.!! r)
              = Some (mget (Ranges (mget (Documents p) dp)) r)) as Hlk
        by by apply H1.
      destruct (d !! dp); [by eexists|done].
Qed.

(** ** What the definition/reference merge keeps of the patch *)

(** A relation on stores that every assignment of the merge respects is
    respected by the merge. *)
Section merge_preserves.
Context (R : relation World) `{!Reflexive R, !Transitive R}.
Context (fs : gmap string Status) (ptc : gset string).
Hypothesis R_base : ∀ f w w', onBaseChunks f w = Some w' → R w w'.
Hypothesis R_patch : ∀ patchPath id defID refID w w',
  patchPath ∈ ptc →
  onPatchDocuments
    (setRange patchPath id
       (let rng := mget (Ranges (mget (Documents (patch w)) patchPath)) id in
        {| StartLine := StartLine rng;
           StartCharacter := StartCharacter rng;
           EndLine := EndLine rng;
           EndCharacter := EndCharacter rng;
           DefinitionResultID := defID;
           ReferenceResultID := refID;
           HoverResultID := HoverResultID rng;
           MonikerIDs := MonikerIDs rng |})) w = Some w' →
  R w w'.

Lemma baseDocumentID_preserves path resultID ids :
  preserves R (baseDocumentID path resultID ids).
Proof.
  unfold baseDocumentID. pr. apply pr_update, R_base.
Qed.

Lemma mergeReference_preserves path defID refID rc pds dc l loc :
  preserves R (mergeReference fs ptc path defID refID rc pds dc l loc).
Proof.
  intros rt w l' rt' w'. unfold mergeReference.
  intros (l1 & rt1 & w1 & H1 & H)%bind_Done.
  apply bind_Done in H as (l2 & rt2 & w2 & H2 & H).
  apply bind_Done in H as ([] & rt3 & w3 & H3 & H).
  apply ret_Done in H as (_ & _ & ->).
  assert (R w w1) as Hm1.
  { destruct (isUnchanged fs _); [by apply ret_Done in H1 as (_ & _ & ->)|].
    apply bind_Done in H1 as ([id ids] & rt0 & w0 & Hb & H1).
    apply ret_Done in H1 as (_ & _ & ->). by eapply baseDocumentID_preserves. }
  assert (R w1 w2) as Hm2.
  { destruct (decide (length (baseDefs l1) = 0%nat));
      [|by apply ret_Done in H2 as (_ & _ & ->)].
    destruct (findPatchDef _ _ _ _); [|by apply ret_Done in H2 as (_ & _ & ->)].
    apply bind_Done in H2 as ([id ids] & rt0 & w0 & Hb & H2).
    apply ret_Done in H2 as (_ & _ & ->). by eapply baseDocumentID_preserves. }
  assert (R w2 w') as Hm3.
  { destruct (decide (_ ∈ ptc)) as [Hin|];
      [|by apply ret_Done in H3 as (_ & _ & ->)].
    apply bind_Done in H3 as (w0 & rt0 & w0' & [= <- <- <-] & H3).
    apply update_Done in H3 as [Hu _]. by eapply R_patch. }
  by repeat (etrans; [done|]).
Qed.

Lemma mergeDefinition_preserves path baseDoc defsMap defRngID :
  preserves R (mergeDefinition fs ptc path baseDoc defsMap defRngID).
Proof.
  unfold mergeDefinition.
  apply pr_bind; [done|unfold canonicalIDs; pr|intros [defID refID]].
  apply pr_bind; [done|by apply pr_get|intros w0].
  destruct (getDefRef (ReferenceResultID _) _ _) as [patchRefs patchRefChunk].
  destruct (getDefRef (DefinitionResultID _) _ _) as [patchDefs patchDefChunk].
  destruct (getDefRef refID _ _) as [baseRefs0 baseRefChunk].
  destruct (getDefRef defID _ _) as [baseDefs0 baseDefChunk].
  apply pr_bind; [done|unfold documentIDsByPath, rangeMap; pr|intros ids1].
  apply pr_bind; [done|unfold documentIDsByPath, rangeMap; pr|intros ids2].
  apply pr_bind; [done| |intros l].
  { apply pr_foldM; [done..|]. intros l loc. apply mergeReference_preserves. }
  apply pr_bind; [done| |intros []]; apply pr_update, R_base.
Qed.

Lemma mergeDefResults_preserves d : preserves R (mergeDefResults fs ptc d).
Proof.
  unfold mergeDefResults.
  apply pr_bind; [done|unfold rangeMap; pr|intros entries].
  apply pr_foldM; [done..|intros [] [path defsMap]].
  apply pr_bind; [done|by apply pr_get|intros w0].
  apply pr_bind; [done|unfold sortedRangeIDs; pr|intros defIdxs].
  apply pr_foldM; [done..|intros [] defRngID].
  apply mergeDefinition_preserves.
Qed.
End merge_preserves.

Global Instance patchRangesKept_refl paths : Reflexive (patchRangesKept paths).
Proof. intros w. split_and!; [done..|]. intros path id rng Hlk. eauto. Qed.

Global Instance patchRangesKept_trans paths : Transitive (patchRangesKept paths).
Proof.
  intros w1 w2 w3 (Hm1 & Hc1 & Ho1 & Hr1) (Hm2 & Hc2 & Ho2 & Hr2).
  split_and!; [congruence|congruence| |].
  - intros path Hp. by rewrite Ho2, Ho1.
  - intros path id rng Hlk.
    destruct (Hr1 path id rng Hlk) as (rng1 & Hlk1 & Hp1 & Hh1 & Hk1).
    destruct (Hr2 path id rng1 Hlk1) as (rng2 & Hlk2 & Hp2 & Hh2 & Hk2).
    exists rng2. split_and!; [done|congruence..].
Qed.

Lemma setRange_inv path id rng docs docs' :
  setRange path id rng docs = Some docs' →
  ∃ d g, docs = Some d ∧ d !! path = Some (mkDoc (Some g))
         ∧ docs' = Some (<[path := mkDoc (Some (<[id := rng]> g))]> d).
Proof.
  unfold setRange, mlookup, mstore.
  destruct docs as [d|]; simpl; [|done].
  destruct (d !! path) as [[[g|]]|] eqn:Hd; simpl; [|done..].
  intros [= <-]. eauto.
Qed.

Lemma mergeDefResults_patch_step (ptc : gset string) patchPath id defID refID w1 w2 :
  patchPath ∈ ptc →
  onPatchDocuments
    (setRange patchPath id
       (let rng := mget (Ranges (mget (Documents (patch w1)) patchPath)) id in
        {| StartLine := StartLine rng;
           StartCharacter := StartCharacter rng;
           EndLine := EndLine rng;
           EndCharacter := EndCharacter rng;
           DefinitionResultID := defID;
           ReferenceResultID := refID;
           HoverResultID := HoverResultID rng;
           MonikerIDs := MonikerIDs rng |})) w1 = Some w2 →
  patchRangesKept ptc w1 w2.
Proof.
  intros Hin
      (docs' & (d0 & g & Hd & Hg & ->)%setRange_inv & ->)%onPatchDocuments_Some.
  - unfold setDocuments. cbn [patch Meta ResultChunks Documents].
    split_and!; [done..| |].
    + intros path Hp. rewrite Hd. simpl. rewrite lookup_insert_ne; [done|].
      by intros ->.
    + intros path id' rng. rewrite Hd. unfold mget, mlookup at 2 4. simpl.
      destruct (decide (path = patchPath)) as [->|Hne].
      * rewrite lookup_insert_eq, Hg. simpl.
        destruct (decide (id' = id)) as [->|Hid].
        -- rewrite lookup_insert_eq. intros Hlk. rewrite Hlk. simpl.
           eexists. split; [done|]. by destruct rng.
        -- rewrite lookup_insert_ne by done. eauto.
      * rewrite lookup_insert_ne by done. eauto.
Qed.

Lemma pr_mergeDefResults_patch fs ptc d :
  preserves (patchRangesKept ptc) (mergeDefResults fs ptc d).
Proof.
  apply (mergeDefResults_preserves (patchRangesKept ptc)).
  - intros f w1 w2 (chunks' & _ & ->)%onBaseChunks_Some.
    split_and!; [done..|]. intros path id rng Hlk. eauto.
  - intros patchPath id defID refID w1 w2 Hin Hset.
    by apply (mergeDefResults_patch_step ptc patchPath id defID refID).
Qed.

Global Instance patchRangesOnly_refl paths : Reflexive (patchRangesOnly paths).
Proof.
  intros w. split; [reflexivity|]. intros path id rng Hlk. left. eauto.
Qed.

Global Instance patchRangesOnly_trans paths : Transitive (patchRangesOnly paths).
Proof.
  intros w1 w2 w3 [Hk1 Hf1] [Hk2 Hf2]. split; [by etrans|].
  intros path id rng3 Hlk3.
  destruct (Hf2 path id rng3 Hlk3)
    as [(rng2 & Hlk2 & Hp2 & Hh2 & Hm2)|(Hno2 & Hp2 & Hh2 & Hm2)].
  - destruct (Hf1 path id rng2 Hlk2)
      as [(rng1 & Hlk1 & Hp1 & Hh1 & Hm1)|(Hno1 & Hp1 & Hh1 & Hm1)].
    + left. exists rng1. split_and!; [done|congruence..].
    + right. split_and!; [done|congruence..].
  - right. split_and!; [|done..].
    destruct (mlookup (Ranges (mget (Documents (patch w1)) path)) id)
      as [rng1|] eqn:Hlk1; [|done].
    destruct Hk1 as (_ & _ & _ & Hr1).
    destruct (Hr1 path id rng1 Hlk1) as (rng2 & Hlk2 & _). congruence.
Qed.

Lemma pr_mergeDefResults_patch_only fs ptc d :
  preserves (patchRangesOnly ptc) (mergeDefResults fs ptc d).
Proof.
  apply (mergeDefResults_preserves (patchRangesOnly ptc)).
  - intros f w1 w2 (chunks' & _ & ->)%onBaseChunks_Some.
    split; [split_and!; [done..|]; intros path id rng Hlk; eauto|].
    intros path id rng Hlk. left. eauto.
  - intros patchPath id defID refID w1 w2 Hin Hset. split.
    { by apply (mergeDefResults_patch_step ptc patchPath id defID refID). }
    apply onPatchDocuments_Some in Hset
      as (docs' & (d0 & g & Hd & Hg & ->)%setRange_inv & ->).
    unfold setDocuments. cbn [patch Meta ResultChunks Documents].
    intros path id' rng'. rewrite Hd. unfold mget, mlookup at 1 3 4. simpl.
    destruct (decide (path = patchPath)) as [->|Hne].
    + rewrite lookup_insert_eq, Hg. simpl.
      destruct (decide (id' = id)) as [->|Hid].
      * rewrite lookup_insert_eq. intros [= <-]. unfold mlookup. simpl.
        destruct (g !! id) as [rng|] eqn:Hlk; simpl; [left|right].
        -- eexists. split; [done|]. by destruct rng.
        -- done.
      * rewrite lookup_insert_ne by done. intros Hlk. left. eauto.
    + rewrite lookup_insert_ne by done. intros Hlk. left. eauto.
Qed.

(** X10: when the definition/reference merge completes, the patch has
    the shard count and the shards it had, its documents at paths
    outside [pathsToCopy] are the same, and every range of every patch
    document is still there under the same range ID, with the same
    position, hover result and monikers; its definition and reference
    result IDs may have been rewritten.  A range that the patch has
    afterwards is such a range, or it stands under a range ID its
    document lacked before (a location of a reference list named a
    range the document does not have) and has the zero position, no
    hover result and no monikers. *)
Theorem mergeDefResults_patch_ranges (fileStatus : gmap string Status)
    (pathsToCopy : gset string)
    (defResultsByPath : gmap string (gmap ID RangeData))
    (rt : RT) (w : World) (rt' : RT) (w' : World) :
  mergeDefResults fileStatus pathsToCopy defResultsByPath rt w = Done tt rt' w' →
  Meta (patch w') = Meta (patch w)
  ∧ ResultChunks (patch w') = ResultChunks (patch w)
  ∧ (∀ path, path ∉ pathsToCopy →
             mlookup (Documents (patch w')) path
             = mlookup (Documents (patch w)) path)
  ∧ (∀ path id rng,
       mlookup (Ranges (mget (Documents (patch w)) path)) id = Some rng →
       ∃ rng', mlookup (Ranges (mget (Documents (patch w')) path)) id = Some rng'
               ∧ position rng' = position rng
               ∧ HoverResultID rng' = HoverResultID rng
               ∧ MonikerIDs rng' = MonikerIDs rng)
  ∧ (∀ path id rng',
       mlookup (Ranges (mget (Documents (patch w')) path)) id = Some rng' →
       (∃ rng, mlookup (Ranges (mget (Documents (patch w)) path)) id = Some rng
               ∧ position rng' = position rng
               ∧ HoverResultID rng' = HoverResultID rng
               ∧ MonikerIDs rng' = MonikerIDs rng)
       ∨ (mlookup (Ranges (mget (Documents (patch w)) path)) id = None
          ∧ position rng' = (0, 0, 0, 0)
          ∧ HoverResultID rng' = EmptyString
          ∧ MonikerIDs rng' = [])).
Proof.
  intros Hrun.
  pose proof (pr_mergeDefResults_patch_only fileStatus pathsToCopy
                defResultsByPath rt w tt rt' w' Hrun)
    as [(Hm & Hc & Hother & Hranges) Hfrom].
  by split_and!.
Qed.

(** ** What [unifyRangeIDs] leaves alone *)

Lemma deleteRange_lookup path id docs path' :
  mlookup (deleteRange path id docs) path'
  = if decide (path' = path)
    then (λ doc, mkDoc (mdelete id (Ranges doc))) <$> mlookup docs path
    else mlookup docs path'.
Proof.
  unfold deleteRange. destruct docs as [d|]; simpl; [|by case_decide].
  case_decide as Hp.
  - subst. by rewrite lookup_alter_eq.
  - by rewrite lookup_alter_ne.
Qed.

Lemma relabel_frame path (p : gmap ID ID) res rt docs chunks :
  match relabel path p res rt (docs, chunks) with
  | Done _ _ s' =>
      s'.2 = chunks
      ∧ (∀ path', path' ≠ path → mlookup s'.1 path' = mlookup docs path')
      ∧ (is_Some (mlookup s'.1 path) ↔ is_Some (mlookup docs path))
  | Fail _ _ _ => False
  | Panic => True
  end.
Proof.
  unfold relabel.
  destruct (rangeMap_Done (Some p) rt (docs, chunks)) as (renames & Hr & _).
  unfold mbind at 1, M_bind at 1. rewrite Hr.
  apply (foldM_loop
    (λ (_ : list (ID * ID)) (_ : gset ID) (_ : RT)
       (s' : gomap string DocumentData * gomap Z ResultChunkData),
       s'.2 = chunks
       ∧ (∀ path', path' ≠ path → mlookup s'.1 path' = mlookup docs path')
       ∧ (is_Some (mlookup s'.1 path) ↔ is_Some (mlookup docs path)))
    (λ o, match o with Fail _ _ _ => False | _ => True end)); [|done].
  intros seen [old new] res1 rt1 [docs1 chunks1] _ (Hc & Hother & Hsame).
  cbn [fst snd] in *. subst chunks1.
  unfold mbind, M_bind, get, update, onDocs. cbn [fst snd].
  destruct (setRange path new _ docs1) as [docs2|] eqn:Hset; [|done].
  apply setRange_inv in Hset as (d & g & -> & Hd & ->).
  cbn [fmap option_fmap option_map fst snd]. unfold mret, M_ret.
  split; [done|]. cbn [fst snd]. split.
  - intros path' Hne. rewrite deleteRange_lookup, decide_False by done.
    rewrite <-Hother by done. simpl. by rewrite lookup_insert_ne.
  - rewrite deleteRange_lookup, decide_True by done.
    rewrite <-Hsame. simpl. rewrite lookup_insert_eq, Hd. simpl.
    split; by eexists.
Qed.

Lemma unifyPath_frame updateToDocs fs acc path rt docs chunks :
  match unifyPath updateToDocs fs acc path rt (docs, chunks) with
  | Done _ _ s' =>
      s'.2 = chunks
      ∧ (∀ path', path' ≠ path → mlookup s'.1 path' = mlookup docs path')
      ∧ (is_Some (mlookup s'.1 path) ↔ is_Some (mlookup docs path))
      ∧ (isUnchanged fs path = false → s'.1 = docs)
  | Fail _ _ s' => s' = (docs, chunks)
  | Panic => True
  end.
Proof.
  pose proof (unifyPath_outcome updateToDocs fs acc path rt docs chunks) as Ho.
  destruct acc as [u res].
  unfold unifyPath, mbind, M_bind, get, mret, M_ret in *. cbn [fst snd] in *.
  destruct (isUnchanged fs path).
  - pose proof (unifyUnchanged_spec (mget updateToDocs path) (mget docs path)
                  rt (docs, chunks)) as Hu.
    destruct (unifyUnchanged _ _ rt (docs, chunks)) as [p rt1 s1|e rt1 s1|];
      [|tauto|done].
    destruct Hu as [-> _].
    pose proof (relabel_frame path p res rt1 docs chunks) as Hr.
    destruct (relabel path p res rt1 (docs, chunks)) as [res' rt2 s2| |];
      [|done..].
    destruct Hr as (? & ? & ?). by split_and!.
  - destruct (unifyChanged _ u rt (docs, chunks)) as [u' rt1 s1|e rt1 s1|];
      [|tauto|done].
    destruct (relabel path ∅ res rt1 s1) as [res' rt2 s2| |]; [|tauto|done].
    destruct Ho as (? & Ho). destruct (Ho eq_refl) as (_ & -> & _).
    by split_and!.
Qed.

Lemma updateResult_Done meta u resultID rt docs chunks a rt' s' :
  updateResult meta u resultID rt (docs, chunks) = Done a rt' s' →
  s'.1 = docs ∧ documentIDsKept meta chunks s'.2.
Proof.
  unfold updateResult, mbind, M_bind, get, update, onChunks. cbn [fst snd].
  destruct (getDefRef resultID meta chunks) as [results chunk] eqn:Hget.
  cbn [fst snd].
  destruct (setLocations _ _ _ chunks) as [chunks'|] eqn:Hset; [|done].
  intros [= _ _ <-]. cbn [fst snd]. split; [done|]. split.
  - intros cid. by apply (setLocations_DocumentPaths _ _ _ _ _ cid Hset).
  - intros id. destruct (getDefRef_setLocations meta _ _ _ _ id Hset) as [-> _].
    case_decide as Hid; [|done]. subst id. rewrite Hget. cbn [fst].
    rewrite <-list_fmap_compose. apply list_fmap_ext. intros _ loc _. simpl.
    unfold renameLocation. by destruct (u !! RangeID loc).
Qed.

Lemma unifyRangeIDs_frame updateToDocs meta fs rt docs chunks :
  match unifyRangeIDs updateToDocs meta fs rt (docs, chunks) with
  | Done _ _ s' =>
      changedDocumentsKept fs docs s'.1 ∧ documentIDsKept meta chunks s'.2
  | Fail _ _ s' => changedDocumentsKept fs docs s'.1 ∧ s'.2 = chunks
  | Panic => True
  end.
Proof.
  unfold unifyRangeIDs.
  unfold mbind at 1, M_bind at 1, get. cbn [fst snd].
  destruct (rangeOver_Done (mkeys docs) rt (docs, chunks)) as (paths & Hps & _).
  unfold mbind at 1, M_bind at 1. rewrite Hps.
  unfold mbind at 1, M_bind at 1.
  loop_rule
    (λ (_ : list string) (_ : gmap ID ID * gset ID) (_ : RT)
       (s' : gomap string DocumentData * gomap Z ResultChunkData),
       changedDocumentsKept fs docs s'.1 ∧ s'.2 = chunks)
    (λ o : outcome (gomap string DocumentData * gomap Z ResultChunkData)
                   (gmap ID ID * gset ID),
       match o with
       | Fail _ _ s' => changedDocumentsKept fs docs s'.1 ∧ s'.2 = chunks
       | _ => True
       end).
  { intros seen path acc rt1 [docs1 chunks1] _ [[Hch Hsame] Hc].
    cbn [fst snd] in *. subst chunks1.
    pose proof (unifyPath_frame updateToDocs fs acc path rt1 docs1 chunks) as Hp.
    destruct (unifyPath _ _ _ _ rt1 _) as [acc' rt2 s2|e2 rt2 s2|]; [| |done].
    - destruct Hp as (Hc2 & Hother & Hsame2 & Hkeep). split; [|done]. split.
      + intros path' Hu. rewrite <-Hch by done.
        destruct (decide (path' = path)) as [->|Hne]; [|by apply Hother].
        by rewrite Hkeep by by apply isUnchanged_false.
      + intros path'. rewrite <-Hsame.
        destruct (decide (path' = path)) as [->|Hne]; [done|].
        by rewrite Hother.
    - by subst s2. }
  { by split. }
  destruct (foldM _ paths _ _ _) as [[u res] rt2 [docs2 chunks2]| |]; [|done..].
  cbn [fst snd] in Hloop. destruct Hloop as [Hdocs ->].
  destruct (rangeOver_Done (elements res) rt2 (docs2, chunks)) as (ids & Hids & _).
  unfold mbind at 1, M_bind at 1. rewrite Hids.
  loop_rule
    (λ (_ : list string) (_ : unit) (_ : RT)
       (s' : gomap string DocumentData * gomap Z ResultChunkData),
       s'.1 = docs2 ∧ documentIDsKept meta chunks s'.2)
    (λ o : outcome (gomap string DocumentData * gomap Z ResultChunkData) unit,
       match o with Fail _ _ _ => False | _ => True end).
  { intros seen id [] rt3 [docs3 chunks3] _ [Hd [Hdp Hl]]. cbn [fst snd] in *.
    subst docs3.
    pose proof (updateResult_spec meta u id rt3 docs2 chunks3) as Hnf.
    destruct (updateResult _ _ _ rt3 _) as [[] rt4 s4| |] eqn:E; [|done..].
    apply updateResult_Done in E as [-> [Hdp' Hl']]. split; [done|]. split.
    - intros cid. by rewrite Hdp'.
    - intros id'. by rewrite Hl'. }
  { by split. }
  destruct (foldM _ ids _ _ _) as [[] rt5 s5| |]; [|done..].
  destruct Hloop as [-> ?]. by split.
Qed.

(** X11: whether [unifyRangeIDs] returns nil or an error, the patch has
    documents at the paths it had, and its documents at paths that are
    not unchanged are as they were; a shard is changed only on a return
    without error, and then every shard has the document table it had
    and every location list names the same document IDs in the same
    order: only range IDs are rewritten. *)
Theorem unifyRangeIDs_untouched (updateToDocs : gomap string DocumentData)
    (toUpdateMeta : MetaData) (fileStatus : gmap string Status) (rt : RT)
    (toUpdateDocs : gomap string DocumentData)
    (toUpdateChunks : gomap Z ResultChunkData) :
  match unifyRangeIDs updateToDocs toUpdateMeta fileStatus rt
                      (toUpdateDocs, toUpdateChunks) with
  | Done _ _ (docs', chunks') =>
      (∀ path, statusOf fileStatus path ≠ Some Unchanged →
               mlookup docs' path = mlookup toUpdateDocs path)
      ∧ (∀ path, is_Some (mlookup docs' path)
                 ↔ is_Some (mlookup toUpdateDocs path))
      ∧ (∀ cid, DocumentPaths (mget chunks' cid)
                = DocumentPaths (mget toUpdateChunks cid))
      ∧ (∀ id, DocumentID <$> (getDefRef id toUpdateMeta chunks').1
               = DocumentID <$> (getDefRef id toUpdateMeta toUpdateChunks).1)
  | Fail _ _ (docs', chunks') =>
      (∀ path, statusOf fileStatus path ≠ Some Unchanged →
               mlookup docs' path = mlookup toUpdateDocs path)
      ∧ (∀ path, is_Some (mlookup docs' path)
                 ↔ is_Some (mlookup toUpdateDocs path))
      ∧ chunks' = toUpdateChunks
  | Panic => True
  end.
Proof.
  pose proof (unifyRangeIDs_frame updateToDocs toUpdateMeta fileStatus rt
                toUpdateDocs toUpdateChunks) as H.
  destruct (unifyRangeIDs _ _ _ _ _) as [[] rt' [docs' chunks']
                                        |e rt' [docs' chunks']|]; [| |done].
  - destruct H as [[? ?] [? ?]]. by split_and!.
  - destruct H as [[? ?] ?]. by split_and!.
Qed.

(** ** The ranges of the copied documents *)

Lemma discard_error_zoom_inv {St T} (proj : St → T) (inj : T → St → St)
    (m : M T unit) rt s a rt' s' :
  discard_error (zoom proj inj m) rt s = Done a rt' s' →
  ∃ t, s' = inj t s
       ∧ (m rt (proj s) = Done tt rt' t ∨ ∃ e, m rt (proj s) = Fail e rt' t).
Proof.
  unfold discard_error, zoom.
  destruct (m rt (proj s)) as [[] ? t|e ? t|]; [| |done];
    intros [= _ <- <-]; eauto.
Qed.

(** X12: after a merge that returns without error, the merged document
    at a path in [pathsToCopy] that is not unchanged holds every range
    the patch's document at that path had when the merge began, under
    the same range ID and with the same position, hover result and
    monikers. *)
Theorem patchData_copies_ranges (reindexedFiles : list string)
    (fileStatus : gmap string Status) (rt : RT) (w : World) (rt' : RT) (w' : World)
    (p : string) (id : ID) (rng : RangeData) :
  patchData reindexedFiles fileStatus rt w = Done tt rt' w' →
  p ∈ pathsToCopyOf reindexedFiles fileStatus →
  statusOf fileStatus p ≠ Some Unchanged →
  mlookup (Ranges (mget (Documents (patch w)) p)) id = Some rng →
  ∃ rng', mlookup (Ranges (mget (Documents (base w')) p)) id = Some rng'
          ∧ position rng' = position rng
          ∧ HoverResultID rng' = HoverResultID rng
          ∧ MonikerIDs rng' = MonikerIDs rng.
Proof.
  unfold patchData.
  intros (w0 & rt0 & w0' & [= <- <- <-] & H)%bind_Done Hp Hst Hlk.
  apply bind_Done in H as ([] & rt1 & w1 & (chunks1 & _ & ->)%zoom_Done & H).
  apply bind_Done in H as ([] & rt2 & w2 & (s2 & -> & Hu)%discard_error_zoom_inv & H).
  apply bind_Done in H as (d & rt3 & w3 & ->%collectDefResults_state & H).
  apply bind_Done in H as ([] & rt4 & w4 & Hm%pr_mergeDefResults_patch & H).
  pose proof (applyPhase_spec fileStatus
                (pathsToCopyOf reindexedFiles fileStatus) rt4 w4) as Hspec.
  rewrite H in Hspec. destruct Hspec as (_ & _ & _ & Hcopy & _).
  pose proof (unifyRangeIDs_frame (Documents (base w)) (Meta (patch w)) fileStatus
                rt1 (Documents (patch w)) (ResultChunks (patch w))) as Hf.
  unfold patchDocsChunks, setPatchDocsChunks, setBaseChunks in *.
  cbn [base patch Documents ResultChunks Meta] in *.
  assert (mlookup s2.1 p = mlookup (Documents (patch w)) p) as Hsame.
  { destruct Hu as [Hu|[e Hu]]; rewrite Hu in Hf; destruct Hf as [[Hkeep _] _];
      by apply Hkeep. }
  destruct Hm as (_ & _ & _ & Hr). cbn [base patch Documents] in Hr.
  destruct (Hr p id rng) as (rng' & Hlk' & ?).
  { unfold mget. by rewrite Hsame. }
  exists rng'. split; [|done].
  unfold mget at 1. by rewrite (Hcopy p Hp).
Qed.

(** ** The unification of an unchanged document *)

Lemma mget_mlookup {V} `{!Zero V} (m m' : gomap string V) k :
  mlookup m' k = mlookup m k → mget m' k = mget m k.
Proof. unfold mget. by intros ->. Qed.

Lemma unifyPath_unified updateToDocs fs acc path rt docs chunks g :
  isUnchanged fs path = true →
  mlookup docs path = Some (mkDoc (Some g)) →
  (∀ id, id ∈ mkeys (Ranges (mget updateToDocs path)) → g !! id = None) →
  match unifyPath updateToDocs fs acc path rt (docs, chunks) with
  | Done _ _ s' => unifiedAt updateToDocs docs s'.1 path
  | _ => True
  end.
Proof.
  intros Hu Hdoc Hdisj. destruct acc as [u res].
  unfold unifyPath, mbind, M_bind, get, mret, M_ret. cbn [fst snd]. rewrite Hu.
  assert (mget docs path = mkDoc (Some g)) as Hmget.
  { unfold mget. by rewrite Hdoc. }
  pose proof (unifyUnchanged_pairing (mget updateToDocs path) (mget docs path)
                rt (docs, chunks)) as Hp.
  destruct (unifyUnchanged _ _ rt (docs, chunks)) as [p rt1 s1|e rt1 s1|];
    [|done..].
  destruct Hp as (-> & _ & _ & Hdom & Himg & Hinj & Hpos).
  rewrite Hmget in Hdom, Hpos. cbn [Ranges] in Hdom, Hpos.
  assert (∀ old, is_Some (p !! old) ↔ is_Some (g !! old)) as Hdom'.
  { intros old. rewrite <-Hdom. apply (elem_of_mkeys (Some g)). }
  destruct docs as [d|]; [|done]. simpl in Hdoc.
  destruct (relabel_renames path p res rt1 d chunks g Hdoc Hinj)
    as (res' & rt2 & g' & -> & _ & Hgone & Hnew & Hrest & _).
  { intros old new Hon [x Hx]. exfalso.
    assert (g !! new = None) as Hn by (apply Hdisj, Himg; eauto).
    assert (is_Some (g !! new)) as [y Hy] by (apply Hdom'; eauto).
    congruence. }
  cbn [fst snd]. unfold unifiedAt. rewrite mget_insert.
  cbn [Ranges mlookup mbind option_bind].
  assert (∀ old new, p !! old = Some new → new ≠ old) as Hne.
  { intros old new Hon ->.
    assert (g !! old = None) as Hn by (apply Hdisj, Himg; eauto).
    assert (is_Some (g !! old)) as [y Hy] by (apply Hdom'; eauto).
    congruence. }
  assert (∀ id rng, g' !! id = Some rng → ∃ old, p !! old = Some id) as Hsrc.
  { intros id rng Hlk.
    destruct (decide (id ∈ mkeys (Ranges (mget updateToDocs path)))) as [Hin|Hin];
      [by apply Himg|].
    exfalso. destruct (p !! id) as [x|] eqn:Hpid.
    - rewrite Hgone in Hlk by eauto. done.
    - rewrite Hrest in Hlk; [|done|].
      + assert (is_Some (p !! id)) as [? ?] by (apply Hdom'; eauto). congruence.
      + intros old Hon. apply Hin, Himg. eauto. }
  split.
  - intros id. split.
    + intros [rng Hlk]. apply Himg. by eapply Hsrc.
    + intros (old & Hon)%Himg. rewrite (Hnew old id Hon) by by eapply Hne.
      by eexists.
  - intros id rng Hlk. destruct (Hsrc id rng Hlk) as [old Hon].
    rewrite (Hnew old id Hon) in Hlk by by eapply Hne.
    injection Hlk as <-. split.
    + rewrite <-(Hpos old id Hon). done.
    + exists old. rewrite Hmget. cbn [Ranges].
      destruct (proj1 (Hdom' old)) as [x Hx]; [eauto|].
      unfold mget, mlookup. simpl. by rewrite Hx.
Qed.

Lemma updateResults_documents meta u ids rt docs chunks a rt' s' :
  foldM (λ _ resultID, updateResult meta u resultID) ids tt rt (docs, chunks)
    = Done a rt' s' →
  s'.1 = docs.
Proof.
  intros Hfold.
  pose proof (foldM_loop
    (λ (_ : list string) (_ : unit) (_ : RT)
       (s1 : gomap string DocumentData * gomap Z ResultChunkData), s1.1 = docs)
    (λ _, True)
    (λ _ resultID, updateResult meta u resultID) ids tt rt (docs, chunks)) as Hl.
  rewrite Hfold in Hl. apply Hl; [|done].
  intros seen id [] rt1 [docs1 chunks1] _ Hd. cbn [fst] in Hd. subst docs1.
  destruct (updateResult _ _ _ rt1 _) as [[] rt2 s2| |] eqn:E; [|done..].
  by apply updateResult_Done in E as [-> _].
Qed.

(** X13: what [unifyRangeIDs] is for.  Suppose every patch document at
    an unchanged path has an allocated range table that shares no range
    ID with the base document at that path.  When [unifyRangeIDs]
    returns nil, whatever order its walks took, each such patch
    document has exactly the range IDs of the base document, each at
    the position the base has there, and each holding a range the patch
    document had before. *)
Theorem unifyRangeIDs_unifies (updateToDocs : gomap string DocumentData)
    (toUpdateMeta : MetaData) (fileStatus : gmap string Status) (rt : RT)
    (toUpdateDocs : gomap string DocumentData)
    (toUpdateChunks : gomap Z ResultChunkData) (rt' : RT)
    (docs' : gomap string DocumentData) (chunks' : gomap Z ResultChunkData) :
  (∀ path, path ∈ mkeys toUpdateDocs →
           statusOf fileStatus path = Some Unchanged →
           ∃ g, mlookup toUpdateDocs path = Some (mkDoc (Some g))
                ∧ ∀ id, id ∈ mkeys (Ranges (mget updateToDocs path)) →
                        g !! id = None) →
  unifyRangeIDs updateToDocs toUpdateMeta fileStatus rt
                (toUpdateDocs, toUpdateChunks) = Done tt rt' (docs', chunks') →
  ∀ path, path ∈ mkeys toUpdateDocs →
          statusOf fileStatus path = Some Unchanged →
          unifiedAt updateToDocs toUpdateDocs docs' path.
Proof.
  intros Hpre. unfold unifyRangeIDs.
  unfold mbind at 1, M_bind at 1, get. cbn [fst snd].
  destruct (rangeOver_Done (mkeys toUpdateDocs) rt (toUpdateDocs, toUpdateChunks))
    as (paths & Hps & Hperm).
  unfold mbind at 1, M_bind at 1. rewrite Hps.
  unfold mbind at 1, M_bind at 1.
  assert (NoDup paths) as Hnd by (rewrite Hperm; apply NoDup_mkeys).
  loop_split
    (λ (seen : list string) (_ : gmap ID ID * gset ID) (_ : RT)
       (s' : gomap string DocumentData * gomap Z ResultChunkData),
       (∀ path, path ∈ seen → statusOf fileStatus path = Some Unchanged →
                unifiedAt updateToDocs toUpdateDocs s'.1 path)
       ∧ (∀ path, path ∉ seen →
                  mlookup s'.1 path = mlookup toUpdateDocs path))
    (λ _ : outcome (gomap string DocumentData * gomap Z ResultChunkData)
                   (gmap ID ID * gset ID), True).
  { intros seen path rest acc rt1 [docs1 chunks1] Hl [Hseen Hrest].
    cbn [fst snd] in *.
    assert (path ∉ seen) as Hnew.
    { rewrite Hl in Hnd. apply NoDup_app in Hnd as (_ & Hnd & _).
      intros Hin. apply (Hnd _ Hin). by left. }
    assert (path ∈ mkeys toUpdateDocs) as Hkey.
    { rewrite <-Hperm, Hl. apply elem_of_app. right. by left. }
    pose proof (unifyPath_frame updateToDocs fileStatus acc path rt1 docs1 chunks1)
      as Hf.
    destruct (isUnchanged fileStatus path) eqn:Hu.
    - apply isUnchanged_true in Hu as Hst.
      destruct (Hpre path Hkey Hst) as (g & Hdoc & Hdisj).
      rewrite <-(Hrest path Hnew) in Hdoc.
      pose proof (unifyPath_unified updateToDocs fileStatus acc path rt1 docs1
                    chunks1 g Hu Hdoc Hdisj) as Hp.
      destruct (unifyPath _ _ _ _ rt1 _) as [acc' rt2 [docs2 chunks2]| |];
        [|done..].
      cbn [fst snd] in *. destruct Hf as (_ & Hother & _). split.
      + intros path' [Hin|Hin%list_elem_of_singleton]%elem_of_app Hst'.
        * assert (path' ≠ path) as Hne by (by intros ->).
          destruct (Hseen path' Hin Hst') as [H1 H2].
          unfold unifiedAt.
          by rewrite (mget_mlookup docs1 docs2 path' (Hother path' Hne)).
        * subst path'. destruct Hp as [H1 H2]. split; [done|].
          intros id rng Hlk. destruct (H2 id rng Hlk) as [? [old Hold]].
          split; [done|]. exists old.
          by rewrite <-(mget_mlookup toUpdateDocs docs1 path (Hrest path Hnew)).
      + intros path' [Hn1 Hn2%not_elem_of_cons]%not_elem_of_app.
        rewrite Hother by tauto. by apply Hrest.
    - destruct (unifyPath _ _ _ _ rt1 _) as [acc' rt2 [docs2 chunks2]| |];
        [|done..].
      cbn [fst snd] in *. destruct Hf as (_ & _ & _ & Hkeep).
      rewrite (Hkeep eq_refl). split.
      + intros path' [Hin|Hin%list_elem_of_singleton]%elem_of_app Hst'; [auto|].
        subst path'. apply isUnchanged_true in Hst'. congruence.
      + intros path' [Hn1 _]%not_elem_of_app. by apply Hrest. }
  { split; [by intros ? ?%elem_of_nil|done]. }
  destruct (foldM _ paths _ _ _) as [[u res] rt2 [docs2 chunks2]| |]; [|done..].
  cbn [fst snd] in Hloop. destruct Hloop as [Hall _].
  unfold mbind, M_bind.
  destruct (rangeOver (elements res) rt2 (docs2, chunks2))
    as [ids rt3 s3| |] eqn:Hids; [|done..].
  injection Hids as <- <- <-.
  intros Hfold%updateResults_documents. cbn [fst] in Hfold. subst docs'.
  intros path Hkey Hst. apply Hall; [|done]. by rewrite Hperm.
Qed.

(** ** The store after an error *)

Section keeps.
Context {St : Type} (R : relation St) `{!Reflexive R, !Transitive R}.

Lemma kp_ret {A} (a : A) : keeps R (mret a).
Proof. intros rt s. unfold mret, M_ret. reflexivity. Qed.

Lemma kp_get : keeps R get.
Proof. intros rt s. unfold get. reflexivity. Qed.

Lemma kp_panic {A} : keeps R (panic (A := A)).
Proof. by intros rt s. Qed.

Lemma kp_fail {A} e : keeps R (fail (A := A) e).
Proof. intros rt s. unfold fail. reflexivity. Qed.

Lemma kp_rangeOver ks : keeps R (rangeOver ks).
Proof. intros rt s. unfold rangeOver. reflexivity. Qed.

Lemma kp_newID : keeps R newID.
Proof. intros rt s. unfold newID. destruct (idsrc _); reflexivity. Qed.

Lemma kp_update (f : St → option St) :
  (∀ s s', f s = Some s' → R s s') → keeps R (update f).
Proof. intros Hf rt s. unfold update. destruct (f s) eqn:E; [by apply Hf|done]. Qed.

Lemma kp_bind {A B} (m : M St A) (f : A → M St B) :
  keeps R m → (∀ a, keeps R (f a)) → keeps R (m ≫= f).
Proof.
  intros Hm Hf rt s. unfold mbind, M_bind.
  specialize (Hm rt s). destruct (m rt s) as [a rt1 s1|e rt1 s1|]; [|done..].
  specialize (Hf a rt1 s1). destruct (f a rt1 s1); [by etrans..|done].
Qed.

Lemma kp_foldM {K B} (f : B → K → M St B) l b :
  (∀ b k, keeps R (f b k)) → keeps R (foldM f l b).
Proof.
  intros Hf. revert b. induction l as [|k l IH]; intros b; simpl.
  - apply kp_ret.
  - apply kp_bind; [apply Hf|done].
Qed.
End keeps.

Ltac kp_step :=
  first
    [ apply kp_ret; apply _ | apply kp_get; apply _ | apply kp_panic
    | apply kp_fail; apply _
    | apply kp_rangeOver; apply _ | apply kp_newID; apply _
    | apply kp_foldM; [apply _..|intros ? ?]
    | apply kp_bind; [apply _| |intros ?]
    | match goal with
      | |- keeps _ (match ?x with _ => _ end) => destruct x
      end ].

Ltac kp := repeat kp_step.

Lemma kp_mergeDefResults fs ptc d :
  keeps sameBaseDocuments (mergeDefResults fs ptc d).
Proof.
  unfold mergeDefResults, mergeDefinition, mergeReference, baseDocumentID,
    canonicalIDs, documentIDsByPath, sortedRangeIDs, rangeMap.
  kp; apply kp_update;
    first [apply onBaseChunks_sameBaseDocuments
          |apply onPatchDocuments_sameBaseDocuments].
Qed.

Lemma bind_Fail {St A B} (m : M St A) (f : A → M St B) rt s e rt' s' :
  (m ≫= f) rt s = Fail e rt' s' ↔
  m rt s = Fail e rt' s'
  ∨ ∃ a rt1 s1, m rt s = Done a rt1 s1 ∧ f a rt1 s1 = Fail e rt' s'.
Proof.
  unfold mbind, M_bind. destruct (m rt s) as [a rt1 s1|e1 rt1 s1|]; simpl.
  - split; [eauto 6|]. intros [H|(a0 & rt2 & s2 & H1 & H2)]; [discriminate|].
    by simplify_eq.
  - split; [intros [= -> -> ->]; by left|].
    intros [[= -> -> ->]|(a0 & rt2 & s2 & H1 & _)]; [done|discriminate].
  - split; [done|]. intros [H|(a0 & rt2 & s2 & H1 & _)]; discriminate.
Qed.

(** X14: when [patchData] returns an error, no document of the base has
    been deleted or replaced: the base's documents and both shard
    counts are as they were.  (The base's location lists may by then
    have been filtered and extended, and the patch relabelled.) *)
Theorem patchData_error_keeps_documents (reindexedFiles : list string)
    (fileStatus : gmap string Status) (rt : RT) (w : World)
    (e : error) (rt' : RT) (w' : World) :
  patchData reindexedFiles fileStatus rt w = Fail e rt' w' →
  Documents (base w') = Documents (base w)
  ∧ Meta (base w') = Meta (base w) ∧ Meta (patch w') = Meta (patch w).
Proof.
  unfold patchData.
  intros [?|(w0 & rt0 & w0' & [= <- <- <-] & H)]%bind_Fail; [done|].
  apply bind_Fail in H as [H|([] & rt1 & w1 & (chunks1 & _ & ->)%zoom_Done & H)].
  { exfalso. revert H. unfold zoom.
    pose proof (removeRefsLoop_spec (modifiedOrDeleted fileStatus) (Meta (base w))
                  (Documents (base w)) rt (baseChunks w)) as Hs.
    unfold removeRefsIn, mbind, M_bind.
    by destruct (removeRefsLoop _ _ _ rt (baseChunks w)). }
  apply bind_Fail in H as [H|([] & rt2 & w2 & [s2 ->]%discard_error_zoom_Done & H)].
  { exfalso. revert H. unfold discard_error. by destruct (zoom _ _ _ rt1 _). }
  apply bind_Fail in H as [H|(d & rt3 & w3 & ->%collectDefResults_state & H)].
  { by apply (fo_collectDefResults unequalUnmodifiedPathsErr) in H as Hf;
      apply (fo_collectDefResults IDGenerationError) in H; subst. }
  apply bind_Fail in H as [H|([] & rt4 & w4 & _ & H)].
  - pose proof (kp_mergeDefResults fileStatus
                  (pathsToCopyOf reindexedFiles fileStatus) d rt3
                  (setPatchDocsChunks s2 (setBaseChunks chunks1 w))) as Hk.
    rewrite H in Hk. by destruct Hk as (? & ? & ?).
  - exfalso.
    pose proof (applyPhase_spec fileStatus
                  (pathsToCopyOf reindexedFiles fileStatus) rt4 w4) as Hspec.
    by rewrite H in Hspec.
Qed.

(** ** Bundles on which the merge does not panic *)

Section safe.
Context {St : Type} (I : St → Prop).

Lemma sf_ret {A} (a : A) : safe I (mret a).
Proof. by intros rt s. Qed.

Lemma sf_fail {A} e : safe I (fail (A := A) e).
Proof. by intros rt s. Qed.

Lemma sf_rangeOver ks : safe I (rangeOver ks).
Proof. by intros rt s. Qed.

Lemma sf_newID : safe I newID.
Proof. intros rt s HI. unfold newID. by destruct (idsrc _). Qed.

Lemma sf_update (f : St → option St) :
  (∀ s, I s → ∃ s', f s = Some s' ∧ I s') → safe I (update f).
Proof. intros Hf rt s HI. unfold update. by destruct (Hf s HI) as (s' & -> & ?). Qed.

Lemma sf_bind {A B} (m : M St A) (f : A → M St B) :
  safe I m → (∀ a, safe I (f a)) → safe I (m ≫= f).
Proof.
  intros Hm Hf rt s HI. unfold mbind, M_bind.
  specialize (Hm rt s HI). destruct (m rt s) as [a rt1 s1|e rt1 s1|]; [|done..].
  by apply Hf.
Qed.

(** The store a computation reads is one that satisfies [I]. *)
Lemma sf_get_bind {B} (f : St → M St B) :
  (∀ s0, I s0 → safe I (f s0)) → safe I (get ≫= f).
Proof. intros Hf rt s HI. unfold mbind, M_bind, get. by apply Hf. Qed.

Lemma sf_foldM {K B} (f : B → K → M St B) l b :
  (∀ b k, safe I (f b k)) → safe I (foldM f l b).
Proof.
  intros Hf. revert b. induction l as [|k l IH]; intros b; simpl.
  - apply sf_ret.
  - apply sf_bind; [apply Hf|done].
Qed.
End safe.

Ltac sf_step :=
  lazymatch goal with
  | |- safe _ (mret _) => apply sf_ret
  | |- safe _ (fail _) => apply sf_fail
  | |- safe _ (rangeOver _) => apply sf_rangeOver
  | |- safe _ newID => apply sf_newID
  | |- safe _ (foldM _ _ _) => apply sf_foldM; intros ? ?
  | |- safe _ (get ≫= _) => apply sf_get_bind; intros ? ?
  | |- safe _ (_ ≫= _) => apply sf_bind; [|intros ?]
  | |- safe _ (match ?x with _ => _ end) => destruct x
  end.

Ltac sf := repeat sf_step.

Lemma fullyAllocated_allAllocated meta chunks :
  fullyAllocated meta chunks → allAllocated meta chunks.
Proof. intros HA id. destruct (HA id) as (chunk & dp & tbl & ? & ? & ?). by exists chunk, tbl. Qed.

Lemma setDocumentPath_allocated meta resultID documentID path chunks :
  fullyAllocated meta chunks →
  ∃ chunks', setDocumentPath (chunkOf resultID meta) documentID path chunks
             = Some chunks'
             ∧ fullyAllocated meta chunks'.
Proof.
  intros HA. destruct (HA resultID) as (chunk & dp & tbl & Hc & Hdp & Ht).
  unfold setDocumentPath. rewrite Hc. simpl. rewrite Hdp. simpl.
  destruct chunks as [g|]; [|done]. simpl in *. eexists. split; [done|].
  intros id. destruct (decide (chunkOf id meta = chunkOf resultID meta)) as [->|Hne].
  - simpl. rewrite lookup_insert_eq. eexists _, _, _. by split_and!.
  - simpl. rewrite lookup_insert_ne by done. apply HA.
Qed.

Lemma setLocations_allocated meta resultID locs chunks :
  fullyAllocated meta chunks →
  ∃ chunks', setLocations (chunkOf resultID meta) resultID locs chunks
             = Some chunks'
             ∧ fullyAllocated meta chunks'.
Proof.
  intros HA. destruct (HA resultID) as (chunk & dp & tbl & Hc & Hdp & Ht).
  unfold setLocations. rewrite Hc. simpl. rewrite Ht. simpl.
  destruct chunks as [g|]; [|done]. simpl in *. eexists. split; [done|].
  intros id. destruct (decide (chunkOf id meta = chunkOf resultID meta)) as [->|Hne].
  - simpl. rewrite lookup_insert_eq. eexists _, _, _. by split_and!.
  - simpl. rewrite lookup_insert_ne by done. apply HA.
Qed.

Lemma setRange_allocated path id rng docs :
  documentAllocated docs path →
  ∃ docs', setRange path id rng docs = Some docs'
           ∧ ∀ p, documentAllocated docs p → documentAllocated docs' p.
Proof.
  intros [g Hg]. unfold setRange. rewrite Hg. simpl.
  destruct docs as [d|]; [|done]. simpl in *. eexists. split; [done|].
  intros p [g' Hg']. unfold documentAllocated. simpl.
  destruct (decide (p = path)) as [->|Hne].
  - rewrite lookup_insert_eq. eauto.
  - rewrite lookup_insert_ne by done. eauto.
Qed.

Lemma sf_mergeDefResults meta fs ptc d :
  safe (mergeable meta ptc) (mergeDefResults fs ptc d).
Proof.
  unfold mergeDefResults, mergeDefinition, mergeReference, baseDocumentID,
    canonicalIDs, documentIDsByPath, sortedRangeIDs, rangeMap.
  sf; apply sf_update; intros w (Hm & HA & Hd & Hb);
    repeat match goal with
           | H : mergeable _ _ ?w0 |- context [Meta (base ?w0)] =>
               rewrite (proj1 H)
           end;
    unfold onBaseChunks, onPatchDocuments;
    lazymatch goal with
    | |- context [setDocumentPath (chunkOf ?r _) ?i ?p _] =>
        destruct (setDocumentPath_allocated _ r i p _ HA) as (c & -> & ?)
    | |- context [setLocations (chunkOf ?r _) ?r ?l _] =>
        destruct (setLocations_allocated _ r l _ HA) as (c & -> & ?)
    | Hin : ?p ∈ _ |- context [setRange ?p ?i ?r _] =>
        destruct (setRange_allocated p i r _ (Hd p Hin)) as (c & -> & Hk)
    end;
    simpl; (eexists; split; [done|]); split_and!; try done.
  intros p Hp. by apply Hk, Hd.
Qed.

Global Instance allocationKept_refl : Reflexive allocationKept.
Proof. by intros s path. Qed.

Global Instance allocationKept_trans : Transitive allocationKept.
Proof. intros s1 s2 s3 H1 H2 path ?. by apply H2, H1. Qed.

Lemma onDocs_setRange_allocationKept path id rng
    (s s' : gomap string DocumentData * gomap Z ResultChunkData) :
  onDocs (setRange path id rng) s = Some s' → allocationKept s s'.
Proof.
  destruct s as [docs chunks]. unfold onDocs. cbn [fst snd].
  destruct (setRange _ _ _ docs) as [docs2|] eqn:Hset; [|done].
  intros [= <-]. apply setRange_inv in Hset as (d0 & g0 & -> & Hd & ->).
  intros p [g' Hg']. unfold documentAllocated. cbn [fst] in *. simpl in *.
  destruct (decide (p = path)) as [->|Hne].
  - rewrite lookup_insert_eq. eauto.
  - rewrite lookup_insert_ne by done. eauto.
Qed.

Lemma onDocs_deleteRange_allocationKept path id
    (s s' : gomap string DocumentData * gomap Z ResultChunkData) :
  onDocs (λ docs, Some (deleteRange path id docs)) s = Some s' →
  allocationKept s s'.
Proof.
  destruct s as [docs chunks]. unfold onDocs. cbn [fst snd fmap option_fmap option_map].
  intros [= <-]. intros p [g' Hg']. unfold documentAllocated. cbn [fst] in *.
  rewrite deleteRange_lookup. case_decide; [|eauto].
  subst. rewrite Hg'. simpl. eauto.
Qed.

Lemma onChunks_allocationKept f
    (s s' : gomap string DocumentData * gomap Z ResultChunkData) :
  onChunks f s = Some s' → allocationKept s s'.
Proof.
  destruct s as [docs chunks]. unfold onChunks. cbn [fst snd].
  destruct (f chunks); [|done]. intros [= <-]. by intros p.
Qed.

Lemma kp_unifyRangeIDs updateToDocs meta fs :
  keeps allocationKept (unifyRangeIDs updateToDocs meta fs).
Proof.
  unfold unifyRangeIDs, unifyPath, unifyUnchanged, unifyChanged, relabel,
    updateResult, sortedRangeIDs, rangeMap.
  kp; apply kp_update;
    first [apply onDocs_setRange_allocationKept
          |apply onDocs_deleteRange_allocationKept
          |apply onChunks_allocationKept].
Qed.

Lemma sf_collectDefResults (I : World → Prop) ptc : safe I (collectDefResults ptc).
Proof. unfold collectDefResults, rangeMap. sf. Qed.

Lemma removeRefsIn_allocated paths meta docs rt chunks :
  fullyAllocated meta chunks →
  match removeRefsIn paths meta docs rt chunks with
  | Done _ _ chunks' => fullyAllocated meta chunks'
  | Fail _ _ _ => True
  | Panic => False
  end.
Proof.
  intros HA. unfold removeRefsIn, mbind, M_bind.
  pose proof (removeRefsLoop_spec paths meta docs rt chunks) as Hs.
  pose proof (removeRefsLoop_lists paths meta docs rt chunks) as Hl.
  destruct (removeRefsLoop paths meta docs rt chunks) as [acc rt1 chunks1| |];
    [|done|by apply Hs, fullyAllocated_allAllocated].
  unfold mret, M_ret. destruct Hs as (_ & _ & Hall). destruct Hl as (Hdp & _).
  intros id. destruct (HA id) as (chunk & dp & tbl & Hc & Hd & Ht).
  destruct (Hall (fullyAllocated_allAllocated _ _ HA) id) as (chunk' & tbl' & Hc' & Ht').
  specialize (Hdp (chunkOf id meta)). unfold mget in Hdp.
  rewrite Hc, Hc' in Hdp. simpl in Hdp.
  exists chunk', dp, tbl'. split_and!; [done|congruence|done].
Qed.

(** X15: the merge does not panic on well-formed bundles.  If every
    shard of the base that a result ID hashes to is present with both
    tables allocated, every such shard of the patch is present with an
    allocated location table, the patch has a document with an
    allocated range table at every path in [pathsToCopy], and the base's
    document map is allocated, then [patchData] returns nil or an
    error: no assignment into a nil map and no index out of range
    occurs.  (The two bundle pointers are taken to be non-nil, as
    everywhere in this development.) *)
Theorem patchData_no_panic (reindexedFiles : list string)
    (fileStatus : gmap string Status) (rt : RT) (w : World) :
  fullyAllocated (Meta (base w)) (ResultChunks (base w)) →
  allAllocated (Meta (patch w)) (ResultChunks (patch w)) →
  (∀ p, p ∈ pathsToCopyOf reindexedFiles fileStatus →
        documentAllocated (Documents (patch w)) p) →
  is_Some (Documents (base w)) →
  patchData reindexedFiles fileStatus rt w ≠ Panic.
Proof.
  intros HA HP Hdocs Hbase. unfold patchData.
  unfold mbind at 1, M_bind at 1, get.
  unfold mbind at 1, M_bind at 1, zoom at 1, baseChunks, setBaseChunks.
  pose proof (removeRefsIn_allocated (modifiedOrDeleted fileStatus) (Meta (base w))
                (Documents (base w)) rt (ResultChunks (base w)) HA) as Hrem.
  destruct (removeRefsIn _ _ _ rt _) as [[] rt1 chunks1|e rt1 chunks1|];
    [|done..].
  unfold mbind at 1, M_bind at 1, discard_error, zoom, patchDocsChunks,
    setPatchDocsChunks.
  cbn [base patch Meta Documents ResultChunks].
  pose proof (unifyRangeIDs_spec (Documents (base w)) (Meta (patch w)) fileStatus
                rt1 (Documents (patch w)) (ResultChunks (patch w))) as Hu.
  pose proof (kp_unifyRangeIDs (Documents (base w)) (Meta (patch w)) fileStatus
                rt1 (Documents (patch w), ResultChunks (patch w))) as Hk.
  assert (∀ rt2 s2,
            allocationKept (Documents (patch w), ResultChunks (patch w)) s2 →
            (defResultsByPath ← collectDefResults
                                  (pathsToCopyOf reindexedFiles fileStatus);
             mergeDefResults fileStatus
               (pathsToCopyOf reindexedFiles fileStatus) defResultsByPath;;
             applyPhase fileStatus (pathsToCopyOf reindexedFiles fileStatus))
              rt2 (mkWorld (setResultChunks chunks1 (base w))
                           (mkBundle (Meta (patch w)) s2.1 s2.2))
            ≠ Panic) as Hrest.
  { intros rt2 s2 Hkept.
    set (ptc := pathsToCopyOf reindexedFiles fileStatus).
    set (w2 := mkWorld _ _).
    assert (mergeable (Meta (base w)) ptc w2) as Hw2.
    { split_and!; [done|done| |done].
      intros p Hp. apply (Hkept p), Hdocs, Hp. }
    unfold mbind at 1, M_bind at 1.
    pose proof (sf_collectDefResults (mergeable (Meta (base w)) ptc) ptc
                  rt2 w2 Hw2) as Hc.
    destruct (collectDefResults ptc rt2 w2) as [d rt3 w3|e rt3 w3|]; [|done..].
    unfold mbind at 1, M_bind at 1.
    pose proof (sf_mergeDefResults (Meta (base w)) fileStatus ptc d rt3 w3 Hc) as Hm.
    destruct (mergeDefResults fileStatus ptc d rt3 w3) as [[] rt4 w4|e rt4 w4|];
      [|done..].
    pose proof (applyPhase_spec fileStatus ptc rt4 w4) as Hspec.
    destruct (applyPhase fileStatus ptc rt4 w4); [done..|].
    destruct Hm as (_ & _ & _ & [? Hb]). destruct Hspec as [Hnone _]. congruence. }
  destruct (unifyRangeIDs _ _ _ rt1 _) as [[] rt2 s2|e rt2 s2|];
    [by apply Hrest..|done].
Qed.

(** ** The references filed for a candidate definition *)

Lemma baseDocumentID_Done path resultID ids rt w d ids' rt' w' :
  baseDocumentID path resultID ids rt w = Done (d, ids') rt' w' →
  ids' !! path = Some d ∧ (∀ d0, ids !! path = Some d0 → d0 = d).
Proof.
  unfold baseDocumentID. destruct (ids !! path) as [d1|] eqn:Hd.
  - intros ([= -> ->] & _ & _)%ret_Done. split; [done|]. by intros ? [= ->].
  - intros (id & rt1 & w1 & _ & H)%bind_Done.
    apply bind_Done in H as (w2 & rt2 & w3 & _ & H).
    apply bind_Done in H as ([] & rt3 & w4 & _ & H).
    apply ret_Done in H as ([= -> <-] & _ & _).
    split; [apply lookup_insert_eq|done].
Qed.

Lemma mergeReference_refs fs ptc path defID refID rc pds dc l loc
    rt w l' rt' w' :
  mergeReference fs ptc path defID refID rc pds dc l loc rt w = Done l' rt' w' →
  if isUnchanged fs (ownerPath rc loc)
  then baseRefs l' = baseRefs l ∧ baseRefDocumentIDs l' = baseRefDocumentIDs l
  else ∃ d, baseRefs l' = baseRefs l ++ [mkLoc d (RangeID loc)]
            ∧ baseRefDocumentIDs l' !! path = Some d
            ∧ (∀ d0, baseRefDocumentIDs l !! path = Some d0 → d0 = d).
Proof.
  unfold mergeReference, ownerPath.
  intros (l1 & rt1 & w1 & H1 & H)%bind_Done.
  apply bind_Done in H as (l2 & rt2 & w2 & H2 & H).
  apply bind_Done in H as ([] & rt3 & w3 & _ & H).
  apply ret_Done in H as (-> & _ & _).
  assert (baseRefs l' = baseRefs l1
          ∧ baseRefDocumentIDs l' = baseRefDocumentIDs l1) as [-> ->].
  { destruct (decide (length (baseDefs l1) = 0%nat));
      [|by apply ret_Done in H2 as (-> & _ & _)].
    destruct (findPatchDef _ _ _ _); [|by apply ret_Done in H2 as (-> & _ & _)].
    apply bind_Done in H2 as ([id ids] & rt0 & w0 & _ & H2).
    by apply ret_Done in H2 as (<- & _ & _). }
  destruct (isUnchanged fs _); [by apply ret_Done in H1 as (-> & _ & _)|].
  apply bind_Done in H1 as ([d ids] & rt0 & w0 & Hb & H1).
  apply ret_Done in H1 as (<- & _ & _). cbn [baseRefs baseRefDocumentIDs].
  apply baseDocumentID_Done in Hb as [? ?]. eauto.
Qed.

(** X16: the reference list a candidate definition is merged into.
    When the merge of a candidate definition at [path] completes and
    its two result IDs differ, the base's list under the reference
    result ID is the list the base had there, followed by one location
    for every reference of the patch's list that lies at a path that is
    not unchanged, in the order of that list and with the patch's range
    IDs; and all these locations carry one and the same document ID,
    whatever documents the references lie in. *)
Theorem mergeDefinition_references (fileStatus : gmap string Status)
    (pathsToCopy : gset string) (path : string) (baseDoc : DocumentData)
    (defsMap : gmap ID RangeData) (defRngID : ID) (rt : RT) (w : World)
    (rt' : RT) (w' : World) :
  mergeDefinition fileStatus pathsToCopy path baseDoc defsMap defRngID rt w
    = Done tt rt' w' →
  let def := mget (Some defsMap) defRngID in
  let patchRefs :=
    getDefRef (ReferenceResultID def) (Meta (patch w)) (ResultChunks (patch w)) in
  ∃ defID refID rt1 documentID,
    canonicalIDs fileStatus path baseDoc defRngID rt w = Done (defID, refID) rt1 w
    ∧ (refID ≠ defID →
       (getDefRef refID (Meta (base w)) (ResultChunks (base w'))).1
       = (getDefRef refID (Meta (base w)) (ResultChunks (base w))).1
         ++ ((λ ref, mkLoc documentID (RangeID ref))
               <$> filter (λ ref, statusOf fileStatus (ownerPath patchRefs.2 ref)
                                  ≠ Some Unchanged) patchRefs.1)).
Proof.
  intros Hrun def patchRefs0. subst def patchRefs0. revert Hrun.
  unfold mergeDefinition.
  intros ([defID refID] & rt1 & w1 & Hc & H)%bind_Done.
  pose proof (canonicalIDs_state _ _ _ _ _ _ _ _ _ Hc) as ->.
  apply bind_Done in H as (w0 & rt2 & w2 & [= <- <- <-] & H).
  destruct (getDefRef (ReferenceResultID _) _ _) as [patchRefs patchRefChunk].
  destruct (getDefRef (DefinitionResultID _) _ _) as [patchDefs patchDefChunk].
  destruct (getDefRef refID _ _) as [baseRefs0 baseRefChunk] eqn:Hrefs.
  destruct (getDefRef defID _ _) as [baseDefs0 baseDefChunk] eqn:Hdefs.
  apply bind_Done in H as (ids1 & rt3 & w3 & ->%documentIDsByPath_state & H).
  apply bind_Done in H as (ids2 & rt4 & w4 & ->%documentIDsByPath_state & H).
  apply bind_Done in H as (l & rt5 & w5 & Hfold & H).
  apply bind_Done in H as ([] & rt6 & w6 & [Hu1 _]%update_Done & [Hu2 _]%update_Done).
  set (P := λ ref : DocumentIDRangeID,
              isUnchanged fileStatus (ownerPath patchRefChunk ref) = false).
  pose proof (foldM_loop
    (λ seen l1 _ _,
       baseRefs l1
       = baseRefs0
         ++ ((λ ref, mkLoc (default ""%string (baseRefDocumentIDs l1 !! path))
                           (RangeID ref)) <$> filter P seen)
       ∧ (filter P seen ≠ [] → is_Some (baseRefDocumentIDs l1 !! path)))
    (λ _, True)
    (mergeReference fileStatus pathsToCopy path defID refID patchRefChunk
                    patchDefs patchDefChunk)
    patchRefs (mkLocals baseRefs0 baseDefs0 ids1 ids2) rt4 w) as Hl.
  rewrite Hfold in Hl. destruct Hl as [Hlist _].
  { intros seen loc l1 rt0 w0 _ [Hl1 Hsome].
    destruct (mergeReference _ _ _ _ _ _ _ _ l1 loc rt0 w0) as [l2 rt7 w7| |] eqn:E;
      [|done..].
    apply mergeReference_refs in E. rewrite filter_app, filter_cons, filter_nil.
    destruct (decide (P loc)) as [Hp|Hp]; unfold P in Hp.
    2:{ apply not_false_is_true in Hp. rewrite Hp in E. destruct E as [-> ->].
        by rewrite app_nil_r. }
    rewrite Hp in E. destruct E as (d & -> & Hd & Hsame).
    - rewrite Hd. cbn [default from_option]. split; [|by intros _; eexists].
      rewrite fmap_app, app_assoc. f_equal. rewrite Hl1. f_equal.
      destruct (filter P seen) as [|x xs] eqn:Hf; [done|].
      destruct Hsome as [d0 Hd0]; [done|]. rewrite Hd0.
      by rewrite (Hsame d0 Hd0). }
  { split; [by rewrite app_nil_r|done]. }
  apply (foldM_preserves sameMeta) in Hfold as [Hm _];
    [|intros; by eapply mergeReference_sameMeta].
  apply onBaseChunks_Some in Hu1 as (chunks6 & Hs1 & ->).
  apply onBaseChunks_Some in Hu2 as (chunks7 & Hs2 & ->).
  unfold setResultChunks in *. cbn [base ResultChunks Meta] in *.
  exists defID, refID, rt1, (default ""%string (baseRefDocumentIDs l !! path)).
  split; [done|]. intros Hne. cbn [fst snd].
  destruct (getDefRef_setLocations _ _ _ _ _ refID Hs2) as [-> _].
  rewrite decide_False by done.
  destruct (getDefRef_setLocations _ _ _ _ _ refID Hs1) as [-> _].
  rewrite decide_True by done. rewrite Hlist, Hrefs. cbn [fst snd].
  f_equal. f_equal.
  apply list_filter_iff. intros ref. unfold P. apply isUnchanged_false.
Qed.

(** ** Deleted paths in the merged location lists *)

Lemma elem_of_deletedPaths fs p :
  p ∈ deletedPaths fs ↔ fs !! p = Some Deleted.
Proof.
  unfold deletedPaths. rewrite elem_of_dom. unfold is_Some.
  setoid_rewrite map_lookup_filter_Some. simpl. split.
  - by intros (st & Hst & ->).
  - intros H. eexists; split; eauto.
Qed.

Lemma setDocumentPath_ownerAt cid documentID path chunks chunks' cid' d :
  setDocumentPath cid documentID path chunks = Some chunks' →
  ownerAt chunks' cid' d
  = if decide (cid' = cid ∧ d = documentID) then path
    else ownerAt chunks cid' d.
Proof.
  unfold setDocumentPath, mlookup, mstore.
  destruct chunks as [g|]; simpl; [|done].
  destruct (g !! cid) as [[[tbl|] locs]|] eqn:Hg; simpl; [|done..].
  intros [= <-]. unfold ownerAt, mget, mlookup. simpl.
  destruct (decide (cid' = cid)) as [->|Hne].
  - rewrite lookup_insert_eq, Hg. simpl.
    destruct (decide (d = documentID)) as [->|Hd].
    + rewrite decide_True by done. by rewrite lookup_insert_eq.
    + rewrite decide_False by (by intros [_ ?]). by rewrite lookup_insert_ne.
  - rewrite decide_False by (by intros [? _]). by rewrite lookup_insert_ne.
Qed.

Global Instance ownersKept_refl D : Reflexive (ownersKept D).
Proof. by intros w. Qed.

Global Instance ownersKept_trans D : Transitive (ownersKept D).
Proof.
  intros w1 w2 w3 (Hm1 & Hl1 & Ho1) (Hm2 & Hl2 & Ho2).
  split_and!; [congruence| |by auto].
  intros id. by rewrite Hl2, Hl1.
Qed.

Lemma localsAvoid_mono D path defID refID Gr Gd meta l w w' :
  ownersKept D w w' →
  localsAvoid D path defID refID Gr Gd meta l (ResultChunks (base w)) →
  localsAvoid D path defID refID Gr Gd meta l (ResultChunks (base w')).
Proof. intros (_ & _ & Hk) (H1 & H2 & H3 & H4). split_and!; eauto. Qed.

Lemma baseDocumentID_avoids D path resultID ids rt w d ids' rt' w' :
  baseDocumentID path resultID ids rt w = Done (d, ids') rt' w' →
  path ∉ D →
  (∀ d0, ids !! path = Some d0 →
         ownerAt (ResultChunks (base w)) (chunkOf resultID (Meta (base w))) d0 ∉ D) →
  ownersKept D w w'
  ∧ ids' !! path = Some d
  ∧ ownerAt (ResultChunks (base w')) (chunkOf resultID (Meta (base w))) d ∉ D.
Proof.
  unfold baseDocumentID. intros H Hpath Hids.
  destruct (ids !! path) as [d0|] eqn:Hlk.
  - apply ret_Done in H as ([= <- <-] & _ & <-).
    split_and!; [reflexivity|done|by apply Hids].
  - apply bind_Done in H as (id & rt1 & w1 & (_ & _ & ->)%newID_Done & H).
    apply bind_Done in H as (w2 & rt2 & w3 & [= <- <- <-] & H).
    apply bind_Done in H as ([] & rt3 & w4 & [Hu _]%update_Done & H).
    apply ret_Done in H as ([= <- <-] & _ & <-).
    apply onBaseChunks_Some in Hu as (chunks' & Hset & ->).
    unfold setResultChunks. cbn [base ResultChunks Meta]. split_and!.
    + split_and!; cbn [base ResultChunks Meta]; [done| |].
      * intros id'. by rewrite (getDefRef_setDocumentPath _ _ _ _ _ _ id' Hset).
      * intros cid d0 Hd0.
        rewrite (setDocumentPath_ownerAt _ _ _ _ _ cid d0 Hset). by case_decide.
    + apply lookup_insert_eq.
    + rewrite (setDocumentPath_ownerAt _ _ _ _ _ _ _ Hset).
      by rewrite decide_True.
Qed.

Lemma mergeReference_avoids D fs ptc path defID refID Gr Gd rc pds dc l loc
    rt w l' rt' w' :
  mergeReference fs ptc path defID refID rc pds dc l loc rt w = Done l' rt' w' →
  path ∉ D →
  localsAvoid D path defID refID Gr Gd (Meta (base w)) l (ResultChunks (base w)) →
  ownersKept D w w'
  ∧ localsAvoid D path defID refID Gr Gd (Meta (base w)) l' (ResultChunks (base w')).
Proof.
  unfold mergeReference.
  intros (l1 & rt1 & w1 & H1 & H)%bind_Done Hpath Hl.
  apply bind_Done in H as (l2 & rt2 & w2 & H2 & H).
  apply bind_Done in H as ([] & rt3 & w3 & H3 & H).
  apply ret_Done in H as (-> & _ & ->).
  assert (ownersKept D w w1
          ∧ localsAvoid D path defID refID Gr Gd (Meta (base w)) l1
                        (ResultChunks (base w1))) as [Hk1 Hl1].
  { destruct (isUnchanged fs _); [by apply ret_Done in H1 as (-> & _ & ->)|].
    apply bind_Done in H1 as ([id ids] & rt0 & w0 & Hb & H1).
    apply ret_Done in H1 as (<- & _ & ->).
    apply (baseDocumentID_avoids D) in Hb as (Hk & Hid & Hown);
      [|done|apply Hl].
    split; [done|].
    destruct (localsAvoid_mono _ _ _ _ _ _ _ _ _ _ Hk Hl) as (_ & Hd & Hr & Hds).
    split_and!; cbn [baseRefs baseDefs baseRefDocumentIDs baseDefDocumentIDs];
      [|done| |done].
    - intros d0 Hd0. by simplify_eq.
    - intros HG loc0 [Hin|Hx%list_elem_of_singleton]%elem_of_app;
        [by apply Hr|by subst]. }
  assert (ownersKept D w1 w2
          ∧ localsAvoid D path defID refID Gr Gd (Meta (base w)) l'
                        (ResultChunks (base w2))) as [Hk2 Hl2].
  { destruct (decide (length (baseDefs l1) = 0%nat));
      [|by apply ret_Done in H2 as (-> & _ & ->)].
    destruct (findPatchDef _ _ _ _); [|by apply ret_Done in H2 as (-> & _ & ->)].
    apply bind_Done in H2 as ([id ids] & rt0 & w0 & Hb & H2).
    apply ret_Done in H2 as (<- & _ & ->).
    assert (Meta (base w1) = Meta (base w)) as Hm by apply Hk1.
    apply (baseDocumentID_avoids D) in Hb as (Hk & Hid & Hown);
      [|done|rewrite Hm; apply Hl1].
    rewrite Hm in Hown. split; [done|].
    destruct (localsAvoid_mono _ _ _ _ _ _ _ _ _ _ Hk Hl1) as (Hr' & _ & Hr & Hds).
    split_and!; cbn [baseRefs baseDefs baseRefDocumentIDs baseDefDocumentIDs];
      [done| |done|].
    - intros d0 Hd0. by simplify_eq.
    - intros HG loc0 [Hin|Hx%list_elem_of_singleton]%elem_of_app;
        [by apply Hds|by subst]. }
  assert (base w' = base w2) as Hb3.
  { destruct (decide (_ ∈ ptc)); [|by apply ret_Done in H3 as (_ & _ & ->)].
    apply bind_Done in H3 as (w0 & rt0 & w0' & [= <- <- <-] & H3).
    apply update_Done in H3 as [Hu _].
    by apply onPatchDocuments_Some in Hu as (docs' & _ & ->). }
  rewrite Hb3. split; [|done].
  assert (ownersKept D w2 w') as Hk3 by (by unfold ownersKept; rewrite Hb3).
  by repeat (etrans; [done|]).
Qed.

Lemma foldl_documentIDs (l : list (ID * string)) (ids0 : gmap string ID) p d :
  foldl (λ ids kv, <[kv.2 := kv.1]> ids) ids0 l !! p = Some d →
  (d, p) ∈ l ∨ ids0 !! p = Some d.
Proof.
  revert ids0. induction l as [|[d1 p1] l IH]; intros ids0; simpl; [auto|].
  intros [Hin|H]%IH; [left; by right|].
  destruct (decide (p = p1)) as [->|Hne].
  - rewrite lookup_insert_eq in H. injection H as <-. left. by left.
  - rewrite lookup_insert_ne in H by done. auto.
Qed.

Lemma documentIDsByPath_Done {St} (documentPaths : gomap ID string)
    rt (s : St) ids rt' s' :
  documentIDsByPath documentPaths rt s = Done ids rt' s' →
  s' = s ∧ ∀ p d, ids !! p = Some d → mlookup documentPaths d = Some p.
Proof.
  unfold documentIDsByPath.
  intros (entries & rt1 & s1 & He & H)%bind_Done.
  apply ret_Done in H as (<- & _ & <-).
  destruct (rangeMap_Done documentPaths rt s) as (l & Hl & Hperm).
  rewrite Hl in He. injection He as <- <- <-. split; [done|].
  intros p d [Hin|H]%foldl_documentIDs; [|done].
  rewrite Hperm in Hin. destruct documentPaths as [m|]; simpl in *.
  - by apply elem_of_map_to_list in Hin.
  - by apply elem_of_nil in Hin.
Qed.

Lemma mergeDefinition_cleanOn D G fs ptc path baseDoc defsMap defRngID
    rt w rt' w' :
  mergeDefinition fs ptc path baseDoc defsMap defRngID rt w = Done tt rt' w' →
  path ∉ D → cleanOn D G w → cleanOn D G w'.
Proof.
  unfold mergeDefinition.
  intros ([defID refID] & rt1 & w1 & Hc & H)%bind_Done Hpath Hclean.
  pose proof (canonicalIDs_state _ _ _ _ _ _ _ _ _ Hc) as ->.
  apply bind_Done in H as (w0 & rt2 & w2 & [= <- <- <-] & H).
  destruct (getDefRef (ReferenceResultID _) _ _) as [patchRefs patchRefChunk].
  destruct (getDefRef (DefinitionResultID _) _ _) as [patchDefs patchDefChunk].
  destruct (getDefRef refID _ _) as [baseRefs0 baseRefChunk] eqn:Hrefs.
  destruct (getDefRef defID _ _) as [baseDefs0 baseDefChunk] eqn:Hdefs.
  apply bind_Done in H as (ids1 & rt3 & w3 & [-> Hids1]%documentIDsByPath_Done & H).
  apply bind_Done in H as (ids2 & rt4 & w4 & [-> Hids2]%documentIDsByPath_Done & H).
  apply bind_Done in H as (l & rt5 & w5 & Hfold & H).
  apply bind_Done in H as ([] & rt6 & w6 & [Hu1 _]%update_Done & [Hu2 _]%update_Done).
  pose proof (foldM_loop
    (λ _ l1 _ w1,
       ownersKept D w w1
       ∧ localsAvoid D path defID refID (G refID) (G defID) (Meta (base w)) l1
                     (ResultChunks (base w1)))
    (λ _, True)
    (mergeReference fs ptc path defID refID patchRefChunk patchDefs patchDefChunk)
    patchRefs (mkLocals baseRefs0 baseDefs0 ids1 ids2) rt4 w) as Hl.
  rewrite Hfold in Hl. destruct Hl as ((Hm & Hlists & Hown) & Hlocals).
  { intros seen loc l1 rt0 w0 _ (Hk & Hl0).
    destruct (mergeReference _ _ _ _ _ _ _ _ l1 loc rt0 w0) as [l2 rt7 w7| |] eqn:E;
      [|done..].
    assert (Meta (base w0) = Meta (base w)) as Hm0 by apply Hk.
    apply (mergeReference_avoids D _ _ _ _ _ (G refID) (G defID)) in E
      as (Hk' & Hl'); [|done|by rewrite Hm0].
    rewrite Hm0 in Hl'. split; [by etrans|done]. }
  { split; [reflexivity|].
    apply (f_equal fst) in Hrefs as Hrefs1. apply (f_equal snd) in Hrefs as Hrefs2.
    apply (f_equal fst) in Hdefs as Hdefs1. apply (f_equal snd) in Hdefs as Hdefs2.
    simpl in *. subst.
    split_and!; cbn [baseRefs baseDefs baseRefDocumentIDs baseDefDocumentIDs].
    - intros d Hd%Hids1. unfold ownerAt, mget at 1. simpl in Hd.
      unfold getDefRef in Hd. simpl in Hd. unfold chunkOf. by rewrite Hd.
    - intros d Hd%Hids2. unfold ownerAt, mget at 1. simpl in Hd.
      unfold getDefRef in Hd. simpl in Hd. unfold chunkOf. by rewrite Hd.
    - intros HG loc Hin. by apply (Hclean refID HG loc).
    - intros HG loc Hin. by apply (Hclean defID HG loc). }
  destruct Hlocals as (_ & _ & Hr & Hd).
  apply onBaseChunks_Some in Hu1 as (chunks6 & Hs1 & ->).
  apply onBaseChunks_Some in Hu2 as (chunks7 & Hs2 & ->).
  unfold setResultChunks in *. cbn [base ResultChunks Meta] in *.
  intros id HG loc. unfold setResultChunks. cbn [base ResultChunks Meta].
  rewrite Hm.
  destruct (getDefRef_setLocations _ _ _ _ _ id Hs2) as [-> Hp2].
  destruct (getDefRef_setLocations _ _ _ _ _ id Hs1) as [-> Hp1].
  unfold ownerPath. rewrite Hp2, Hp1.
  change (mget (DocumentPaths (getDefRef id (Meta (base w)) (ResultChunks (base w5))).2)
               (DocumentID loc))
    with (ownerAt (ResultChunks (base w5)) (chunkOf id (Meta (base w))) (DocumentID loc)).
  case_decide as Hid1; [subst id; by apply Hd|].
  case_decide as Hid2; [subst id; by apply Hr|].
  pose proof (Hlists id) as Hli. rewrite Hm in Hli. rewrite Hli.
  intros Hin. apply Hown. exact (Hclean id HG loc Hin).
Qed.

Lemma mergeDefResults_cleanOn D G fs ptc d rt w rt' w' :
  mergeDefResults fs ptc d rt w = Done tt rt' w' →
  (∀ path, is_Some (d !! path) → path ∉ D) →
  cleanOn D G w → cleanOn D G w'.
Proof.
  unfold mergeDefResults.
  intros (entries & rt1 & w1 & He & H)%bind_Done Hd Hclean.
  destruct (rangeMap_Done (Some d) rt w) as (l & Hl & Hperm).
  rewrite Hl in He. injection He as <- <- <-. simpl in Hperm.
  pose proof (foldM_loop (λ _ _ _ w1, cleanOn D G w1) (λ _, True)
                (λ _ kv,
                   w ← get;
                   defIdxs ← sortedRangeIDs (Some kv.2);
                   foldM (λ _ defRngID,
                            mergeDefinition fs ptc kv.1
                              (mget (Documents (base w)) kv.1) kv.2 defRngID)
                         defIdxs tt)
                l tt (mkRT (nextID rt) (S (nextRange rt))) w) as Hloop.
  simpl in Hloop. rewrite H in Hloop. apply Hloop; [|done].
  intros seen [path defsMap] [] rt0 w0 Hin Hc0. simpl.
  destruct (sortedRangeIDs_Done (Some defsMap) rt0 w0) as (ids & Hids & _).
  unfold mbind at 1, M_bind at 1, get. unfold mbind at 1, M_bind at 1.
  rewrite Hids.
  apply (foldM_loop (λ _ _ _ w1, cleanOn D G w1) (λ _, True)); [|done].
  intros seen' id [] rt2 w2 _ Hc2.
  destruct (mergeDefinition _ _ _ _ _ _ rt2 w2) as [[] rt3 w3| |] eqn:E; [|done..].
  eapply mergeDefinition_cleanOn; [exact E| |done].
  apply Hd. rewrite Hperm in Hin. apply elem_of_map_to_list in Hin. by eexists.
Qed.

Lemma foldl_addDefResult_keys p defChunk (Q : string → Prop) defs d :
  (∀ loc, Q (ownerPath defChunk loc)) →
  (∀ path, is_Some (d !! path) → Q path) →
  ∀ path, is_Some (foldl (addDefResult p defChunk) d defs !! path) → Q path.
Proof.
  intros HQ. revert d. induction defs as [|loc defs IH]; intros d Hd; simpl; [done|].
  apply IH. intros path. unfold addDefResult.
  destruct (decide (path = mget (DocumentPaths defChunk) (DocumentID loc)))
    as [->|Hne].
  - intros _. apply HQ.
  - rewrite lookup_insert_ne by done. apply Hd.
Qed.

Lemma collectDefResults_keys (Q : string → Prop) ptc rt w d rt' w' :
  collectDefResults ptc rt w = Done d rt' w' →
  (∀ cid documentID, Q (ownerAt (ResultChunks (patch w)) cid documentID)) →
  ∀ path, is_Some (d !! path) → Q path.
Proof.
  unfold collectDefResults.
  intros (w0 & rt0 & w0' & [= <- <- <-] & H)%bind_Done HQ.
  apply bind_Done in H as (paths & rt1 & w1 & Hps & H).
  lazymatch type of H with
  | foldM ?f ?l ?b ?rt ?s = _ =>
      pose proof (foldM_loop
        (λ _ (d1 : gmap string (gmap ID RangeData)) _ (_ : World),
           ∀ path, is_Some (d1 !! path) → Q path)
        (λ _, True) f l b rt s) as Hloop
  end.
  rewrite H in Hloop. apply Hloop; [|by intros path [? ?%lookup_empty_Some]].
  intros seen path d1 rt2 w2 _ Hd1.
  destruct (rangeMap_Done (Ranges (mget (Documents (patch w)) path)) rt2 w2)
    as (rngs & Hr & _).
  unfold mbind at 1, M_bind at 1. rewrite Hr.
  apply (foldM_loop
    (λ _ (d1 : gmap string (gmap ID RangeData)) _ (_ : World),
       ∀ path, is_Some (d1 !! path) → Q path)
    (λ _, True)); [|done].
  intros seen' [k rng] d2 rt3 w3 _ Hd2. simpl.
  destruct (decide (DefinitionResultID rng = "")); [done|].
  unfold getDefRef. simpl. apply foldl_addDefResult_keys; [|done].
  intros loc. apply HQ.
Qed.

(** C7 (as amended): on inputs where no deleted path is listed in
    [reindexedFiles] and no document table of the patch names a deleted
    path, when the merge returns without error, every path with status
    deleted has no entry in the merged documents; every path in
    [pathsToCopy] has as its entry the patch's document at that path as
    the merge left it (the zero document if the patch has none); and in
    the merged shards no location resolves to a deleted path in the
    list of a result that is the reference result of a range that a
    base document at a deleted or modified path had, nor in the list of
    a result whose list held no such location before the merge.  The
    list of any other result is not filtered, and the locations of
    deleted files it held are still in it. *)
Theorem patchData_apply (reindexedFiles : list string)
    (fileStatus : gmap string Status) (rt : RT) (w : World) (rt' : RT) (w' : World) :
  patchData reindexedFiles fileStatus rt w = Done tt rt' w' →
  (∀ p, fileStatus !! p = Some Deleted → p ∉ reindexedFiles) →
  (∀ cid documentID,
     fileStatus !! mget (DocumentPaths (mget (ResultChunks (patch w)) cid)) documentID
     ≠ Some Deleted) →
  (∀ p, fileStatus !! p = Some Deleted →
        mlookup (Documents (base w')) p = None)
  ∧ (∀ p, p ∈ pathsToCopyOf reindexedFiles fileStatus →
          mlookup (Documents (base w')) p
          = Some (mget (Documents (patch w')) p))
  ∧ (∀ id loc,
       ((∃ p rngID rng,
           (fileStatus !! p = Some Deleted ∨ fileStatus !! p = Some Modified)
           ∧ mlookup (Ranges (mget (Documents (base w)) p)) rngID = Some rng
           ∧ ReferenceResultID rng = id)
        ∨ (∀ loc0,
             loc0 ∈ (getDefRef id (Meta (base w)) (ResultChunks (base w))).1 →
             fileStatus !! ownerPath (getDefRef id (Meta (base w))
                                                (ResultChunks (base w))).2 loc0
             ≠ Some Deleted)) →
       loc ∈ (getDefRef id (Meta (base w')) (ResultChunks (base w'))).1 →
       fileStatus !! ownerPath (getDefRef id (Meta (base w'))
                                          (ResultChunks (base w'))).2 loc
       ≠ Some Deleted)
  ∧ (∀ id loc,
       ¬ (∃ p rngID rng,
            (fileStatus !! p = Some Deleted ∨ fileStatus !! p = Some Modified)
            ∧ mlookup (Ranges (mget (Documents (base w)) p)) rngID = Some rng
            ∧ ReferenceResultID rng = id) →
       loc ∈ (getDefRef id (Meta (base w)) (ResultChunks (base w))).1 →
       loc ∈ (getDefRef id (Meta (base w')) (ResultChunks (base w'))).1).
Proof.
  unfold patchData.
  intros (w0 & rt0 & w0' & [= <- <- <-] & H)%bind_Done Hmodel Hpatch.
  apply bind_Done in H as ([] & rt1 & w1 & (chunks1 & Hrem & ->)%zoom_Done & H).
  apply bind_Done in H as ([] & rt2 & w2 & (s2 & -> & Hu)%discard_error_zoom_inv & H).
  apply bind_Done in H as (d & rt3 & w3 & Hcol & H).
  pose proof (collectDefResults_state _ _ _ _ _ _ Hcol) as ->.
  apply bind_Done in H as ([] & rt4 & w4 & Hmerge & Happly).
  pose proof (applyPhase_spec fileStatus
                (pathsToCopyOf reindexedFiles fileStatus) rt4 w4) as Hspec.
  rewrite Happly in Hspec.
  destruct Hspec as (Hp & Hm' & Hc' & Hin & Hdel & _).
  apply removeRefsIn_acc in Hrem as (acc & (Htbl & Hfil & Hout & Hrefd) & Hseen).
  unfold baseChunks in *.
  split_and!.
  - intros p Hd. apply Hdel; [|done].
    rewrite elem_of_pathsToCopyOf. intros [?|?]; [by eapply Hmodel|congruence].
  - intros p Hptc. rewrite Hp. by apply Hin.
  - set (D := deletedPaths fileStatus).
    set (G := λ id,
           referencedAt (modifiedOrDeleted fileStatus) (Documents (base w)) id
           ∨ cleanOf D (Meta (base w)) (ResultChunks (base w)) id).
    assert (cleanOn D G w4) as Hclean.
    { eapply (mergeDefResults_cleanOn D G); [exact Hmerge| |].
      - apply (collectDefResults_keys (λ p, p ∉ D) _ _ _ _ _ _ Hcol).
        intros cid documentID. unfold D. rewrite elem_of_deletedPaths.
        pose proof (unifyRangeIDs_frame (Documents (base w)) (Meta (patch w))
                      fileStatus rt1 (Documents (patch w))
                      (ResultChunks (patch w))) as Hf.
        unfold patchDocsChunks, setPatchDocsChunks, setBaseChunks, ownerAt in *.
        cbn [base patch Documents ResultChunks Meta] in *.
        assert (DocumentPaths (mget s2.2 cid)
                = DocumentPaths (mget (ResultChunks (patch w)) cid)) as ->;
          [|apply Hpatch].
        destruct Hu as [Hu|[e Hu]]; rewrite Hu in Hf.
        + by destruct Hf as [_ [Hkeep _]].
        + destruct Hf as [_ Hkeep]. by rewrite Hkeep.
      - intros id Hid.
        unfold setPatchDocsChunks, setBaseChunks, setResultChunks.
        cbn [base patch Documents ResultChunks Meta].
        intros loc Hloc. unfold ownerPath, getDefRef. cbn [fst snd].
        rewrite Htbl.
        destruct (decide (id ∈ acc.1)) as [Hacc|Hacc].
        + rewrite (Hfil id Hacc) in Hloc.
          apply list_elem_of_filter in Hloc as [Hown _].
          intros Hd%elem_of_deletedPaths. apply Hown.
          apply elem_of_modifiedOrDeleted. by right.
        + rewrite (Hout id Hacc) in Hloc.
          destruct Hid as [Href|Hcl]; [by apply Hseen in Href|].
          by apply (Hcl loc). }
    intros id loc Hid Hloc. rewrite Hm', Hc' in *.
    intros Hown%elem_of_deletedPaths.
    refine (Hclean id _ loc Hloc Hown).
    destruct Hid as [(p & rngID & rng & Hst & Hlk & Hr)|Hcl]; [left|right].
    + exists p, rngID, rng. split; [|done].
      apply elem_of_modifiedOrDeleted. tauto.
    + intros loc0 Hloc0 Hd%elem_of_deletedPaths. by apply (Hcl loc0).
  - intros id loc Hnot Hloc. rewrite Hm', Hc'.
    apply pr_mergeDefResults_lists in Hmerge as [Hm Hext].
    unfold setPatchDocsChunks, setBaseChunks, setResultChunks in *.
    cbn [base patch Documents ResultChunks Meta] in *.
    rewrite Hm. eapply elem_of_prefix; [|apply Hext].
    rewrite Hout; [done|].
    intros Hacc. apply Hnot.
    destruct (Hrefd id Hacc) as (p & rngID & rng & Hpin & Hlk & Hr).
    exists p, rngID, rng. split; [|done].
    apply elem_of_modifiedOrDeleted in Hpin. tauto.
Qed.

End patch.

(** ** The order of the candidate definitions *)

(** C9 (as amended): the definition/reference merge takes the paths
    with candidate definitions one after the other, each once, and at
    each path it merges the candidate definition ranges one after the
    other in the order [sortedRangeIDs] gives: a list [l] that holds
    every candidate range ID of the path exactly once, in ascending
    order of the tuple (startLine, startChar, endLine, endChar).
    Candidates at equal positions come in an order that depends on the
    walk over the map; when no two candidates of the path have the same
    position, [l] is the same in every run, whatever order the map
    walks take.  (The walks over [defResultsByPath], over [pathsToCopy]
    and over the documents are in no fixed order, and two runs that
    differ in them need not produce equal bundles.) *)
Theorem mergeDefResults_order (HashKey : ID → Z → Z)
    (zeroStatus : option Status) (sharedLoopVar : bool)
    (idsrc : nat → option ID) (sched : nat → string → nat)
    (fileStatus : gmap string Status) (pathsToCopy : gset string)
    (defResultsByPath : gmap string (gmap ID RangeData))
    (path : string) (defsMap : gmap ID RangeData)
    (rt0 : RT) (w0 : World) (rt : RT) (w : World) :
  (∃ entries,
     entries ≡ₚ map_to_list defResultsByPath
     ∧ mergeDefResults HashKey zeroStatus sharedLoopVar idsrc sched
         fileStatus pathsToCopy defResultsByPath rt0 w0
       = foldM (λ _ kv, mergePath HashKey zeroStatus sharedLoopVar idsrc sched
                          fileStatus pathsToCopy kv.1 kv.2)
               entries tt (mkRT (nextID rt0) (S (nextRange rt0))) w0)
  ∧ ∃ l,
      l ≡ₚ mkeys (Some defsMap)
      ∧ NoDup l
      ∧ StronglySorted
          (λ i j, positionLe (mget (Some defsMap) i) (mget (Some defsMap) j)) l
      ∧ mergePath HashKey zeroStatus sharedLoopVar idsrc sched
          fileStatus pathsToCopy path defsMap rt w
        = foldM (λ _ defRngID,
                   mergeDefinition HashKey zeroStatus sharedLoopVar idsrc sched
                     fileStatus pathsToCopy path
                     (mget (Documents (base w)) path) defsMap defRngID)
                l tt (mkRT (nextID rt) (S (nextRange rt))) w
      ∧ ((∀ i j, i ∈ mkeys (Some defsMap) → j ∈ mkeys (Some defsMap) →
                 position (mget (Some defsMap) i)
                 = position (mget (Some defsMap) j) → i = j) →
         ∀ sched' rt' w',
           mergePath HashKey zeroStatus sharedLoopVar idsrc sched'
             fileStatus pathsToCopy path defsMap rt' w'
           = foldM (λ _ defRngID,
                      mergeDefinition HashKey zeroStatus sharedLoopVar idsrc sched'
                        fileStatus pathsToCopy path
                        (mget (Documents (base w')) path) defsMap defRngID)
                   l tt (mkRT (nextID rt') (S (nextRange rt'))) w').
Proof.
  split.
  - destruct (rangeMap_Done sched (Some defResultsByPath) rt0 w0)
      as (entries & He & Hperm).
    exists entries. split; [done|].
    unfold mergeDefResults, mbind at 1, M_bind at 1. by rewrite He.
  - destruct (sortedRangeIDs_Done sched (Some defsMap) rt w)
      as (l & Hl & Hperm & Hsorted).
    exists l. split_and!; [done| |done| |].
    + rewrite Hperm. apply NoDup_mkeys.
    + unfold mergePath, mbind, M_bind, get. by rewrite Hl.
    + intros Hinj sched' rt' w'.
      rewrite (sortedRangeIDs_canonical sched) in Hl by done.
      injection Hl as <-.
      unfold mergePath, mbind, M_bind, get.
      by rewrite (sortedRangeIDs_canonical sched') by done.
Qed.

(** ** The program on the sample inputs *)

Section samples.

Import Samples.
Local Open Scope string_scope.

(** The merge with the sample settings: one shard, a missing status
    reads as unchanged, one loop variable per loop. *)
Local Abbreviation merge ids sched :=
  (patchData hashOne (Some Unchanged) true ids sched).

Local Abbreviation unify ids sched :=
  (unifyRangeIDs hashOne (Some Unchanged) ids sched).

(** C1: [a.go] is unchanged and reindexed, and has one range in the base
    and none in the patch.  [unifyRangeIDs] returns the mismatch error;
    [patchData], which does not look at what [unifyRangeIDs] returns,
    goes on, puts the patch's document in the place of the base's and
    returns nil. *)
Lemma unmodified_mismatch_dropped :
  (∃ rt', unify noIDs anyOrder (Documents base1) (Meta patch1) fs1 rt0
            (Documents patch1, ResultChunks patch1)
          = Fail unequalUnmodifiedPathsErr rt'
              (Documents patch1, ResultChunks patch1))
  ∧ (∃ rt' w', merge noIDs anyOrder ["a.go"] fs1 rt0 (mkWorld base1 patch1)
               = Done tt rt' w'
               ∧ mlookup (Documents (base w')) "a.go" = Some (mkDoc (Some ∅))).
Proof.
  split; [eexists; vm_compute; reflexivity|].
  eexists _, _. split; vm_compute; reflexivity.
Qed.

(** C2: [b.go] refers at [rb] to the definition at [ra] in [a.go].
    After the merge the range [rb] of the merged [b.go] carries the
    reference result [u3], whose list holds [rb] under the document ID
    [u4]; the shard's document table maps [u4] to [a.go], and no
    document ID of the shard stands for [b.go]. *)
Lemma reference_filed_under_definition_path :
  ∃ rt' w',
    merge tenIDs anyOrder ["a.go"; "b.go"] fs2 rt0 (mkWorld emptyBase patch2)
      = Done tt rt' w'
    ∧ ReferenceResultID (mget (Ranges (mget (Documents (base w')) "b.go")) "rb")
      = "u3"
    ∧ (getDefRef hashOne "u3" (Meta (base w')) (ResultChunks (base w'))).1
      = [mkLoc "u4" "ra"; mkLoc "u4" "rb"]
    ∧ ownerPath (getDefRef hashOne "u3" (Meta (base w')) (ResultChunks (base w'))).2
                (mkLoc "u4" "rb") = "a.go"
    ∧ (map_to_list <$> DocumentPaths (mget (ResultChunks (base w')) 0))
      = Some [("u5", "a.go"); ("u4", "a.go")].
Proof.
  eexists _, _. split; [vm_compute; reflexivity|]. by vm_compute.
Qed.

(** C3: [b.go] is added and has the range [r1], listed under the
    reference result [R].  [unifyRangeIDs] requests one identifier and
    leaves documents and shards as they were: the range table of [b.go]
    is still keyed [r1] and the list of [R] still names [r1]. *)
Lemma changed_document_not_relabelled :
  ∃ rt', unify tenIDs anyOrder (Documents emptyBase) (Meta patch3) fs3 rt0
           (Documents patch3, ResultChunks patch3)
         = Done tt rt' (Documents patch3, ResultChunks patch3)
         ∧ nextID rt' = 1%nat.
Proof. eexists. split; vm_compute; reflexivity. Qed.

(** C4: the same input with an ID source that fails.  [unifyRangeIDs]
    returns the error of the source; [patchData] returns nil, with
    [b.go] copied into the base. *)
Lemma id_failure_dropped :
  (∃ rt', unify noIDs anyOrder (Documents emptyBase) (Meta patch3) fs3 rt0
            (Documents patch3, ResultChunks patch3)
          = Fail IDGenerationError rt' (Documents patch3, ResultChunks patch3))
  ∧ (∃ rt' w', merge noIDs anyOrder ["b.go"] fs3 rt0 (mkWorld emptyBase patch3)
               = Done tt rt' w'
               ∧ mlookup (Documents (base w')) "b.go"
                 = mlookup (Documents patch3) "b.go").
Proof.
  split; [eexists; vm_compute; reflexivity|].
  eexists _, _. split; vm_compute; reflexivity.
Qed.

(** C6: [a.go] is unchanged, and its range is [rng1] in the base and
    [pa] in the patch; [b.go] is added and refers to the definition in
    [a.go].  [unifyRangeIDs] moves the range of the patch's [a.go] to
    the key [rng1] but leaves [pa] in the definition list, so the
    candidate definition collected for [a.go] is keyed [pa], a range
    ID the base document does not have.  The result IDs it is merged
    under are the two empty IDs, not [D1] and [R1] of the base
    document's range; after the merge the range of [b.go] still has
    the patch's reference result [PR], and the list of [R1] has no
    location of [b.go]. *)
Lemma unchanged_candidate_misses_base_range :
  ∃ rt1 docs1 chunks1 rt2 rt' w',
    let w1 := mkWorld base6 (mkBundle (Meta patch6) docs1 chunks1) in
    unify tenIDs anyOrder (Documents base6) (Meta patch6) fs6 rt0
          (Documents patch6, ResultChunks patch6)
      = Done tt rt1 (docs1, chunks1)
    ∧ mkeys (Ranges (mget docs1 "a.go")) = ["rng1"]
    ∧ (getDefRef hashOne "PD" (Meta patch6) chunks1).1 = [mkLoc "pda" "pa"]
    ∧ collectDefResults hashOne anyOrder {[ "a.go"; "b.go" ]} rt1 w1
      = Done {[ "a.go" := {[ "pa" := zero ]} ]} rt2 w1
    ∧ mlookup (Ranges (mget (Documents (base w1)) "a.go")) "rng1"
      = Some (mkRange 0 0 0 5 "D1" "R1" "" [])
    ∧ mlookup (Ranges (mget (Documents (base w1)) "a.go")) "pa" = None
    ∧ canonicalIDs (Some Unchanged) tenIDs fs6 "a.go"
                   (mget (Documents (base w1)) "a.go") "pa" rt2 w1
      = Done (EmptyString, EmptyString) rt2 w1
    ∧ merge tenIDs anyOrder ["a.go"; "b.go"] fs6 rt0 (mkWorld base6 patch6)
      = Done tt rt' w'
    ∧ ReferenceResultID (mget (Ranges (mget (Documents (base w')) "b.go")) "pb")
      = "PR"
    ∧ (getDefRef hashOne "R1" (Meta (base w')) (ResultChunks (base w'))).1
      = [mkLoc "da" "rng1"].
Proof.
  eexists _, _, _, _, _, _. cbv zeta.
  split; [vm_compute; reflexivity|].
  split; [vm_compute; reflexivity|].
  split; [vm_compute; reflexivity|].
  split; [vm_compute; reflexivity|].
  split; [vm_compute; reflexivity|].
  split; [vm_compute; reflexivity|].
  split; [vm_compute; reflexivity|].
  split; [vm_compute; reflexivity|].
  split; vm_compute; reflexivity.
Qed.

(** C7, as stated, fails: [c.go] is deleted, nothing is reindexed and
    the patch is empty.  After the merge the documents have no entry
    for [c.go] and the list of the reference result [R2] of its range
    is empty, but the list of the reference result [R9] of the range
    [r3] of [d.go] still holds the location [r2] of [c.go]. *)
Lemma deleted_location_survives :
  ∃ rt' w',
    merge tenIDs anyOrder [] fs7d rt0 (mkWorld base7 emptyBase) = Done tt rt' w'
    ∧ fs7d !! "c.go" = Some Deleted
    ∧ mlookup (Documents (base w')) "c.go" = None
    ∧ (getDefRef hashOne "R2" (Meta (base w')) (ResultChunks (base w'))).1 = []
    ∧ ReferenceResultID (mget (Ranges (mget (Documents (base w')) "d.go")) "r3")
      = "R9"
    ∧ (getDefRef hashOne "R9" (Meta (base w')) (ResultChunks (base w'))).1
      = [mkLoc "dd" "r3"; mkLoc "dc" "r2"]
    ∧ ownerPath (getDefRef hashOne "R9" (Meta (base w')) (ResultChunks (base w'))).2
                (mkLoc "dc" "r2") = "c.go".
Proof.
  eexists _, _. split; [vm_compute; reflexivity|]. by vm_compute.
Qed.

(** C9, as stated, fails: two runs on the same bundles, statuses and
    identifier sequence, one walking [a.go] before [b.go] and one after
    it, give the definition in [a.go] different result IDs. *)
Lemma merge_depends_on_map_order :
  ∃ rtA wA rtB wB,
    merge tenIDs aFirst ["a.go"; "b.go"] fs2 rt0 (mkWorld emptyBase patch9)
      = Done tt rtA wA
    ∧ merge tenIDs bFirst ["a.go"; "b.go"] fs2 rt0 (mkWorld emptyBase patch9)
      = Done tt rtB wB
    ∧ DefinitionResultID (mget (Ranges (mget (Documents (base wA)) "a.go")) "ra")
      = "u2"
    ∧ DefinitionResultID (mget (Ranges (mget (Documents (base wB)) "a.go")) "ra")
      = "u6"
    ∧ base wA ≠ base wB.
Proof.
  eexists _, _, _, _.
  split; [vm_compute; reflexivity|]. split; [vm_compute; reflexivity|].
  split; [vm_compute; reflexivity|]. split; [vm_compute; reflexivity|].
  intros Heq.
  apply (f_equal (λ b, DefinitionResultID
                         (mget (Ranges (mget (Documents b) "a.go")) "ra"))) in Heq.
  vm_compute in Heq. discriminate.
Qed.

(** The theorems at sample inputs. *)

Lemma removeRefsIn_correct_witness :
  ∃ rt' chunks',
    removeRefsIn hashOne anyOrder {["c.go"]} (Meta base7) (Documents base7)
                 rt0 (ResultChunks base7) = Done tt rt' chunks'
    ∧ cleanOf hashOne {["c.go"]} (Meta base7) chunks' "R2".
Proof.
  pose proof (removeRefsIn_correct hashOne anyOrder {["c.go"]} (Meta base7)
                (Documents base7) rt0 (ResultChunks base7)) as H.
  destruct (removeRefsLoop hashOne anyOrder {["c.go"]} (Meta base7)
              (Documents base7) rt0 (ResultChunks base7))
    as [[deletedRefs written] rt' chunks'| |] eqn:E;
    [|vm_compute in E; discriminate..].
  destruct H as (Hrun & Hclean & _). exists rt', chunks'. split; [exact Hrun|].
  apply (Hclean "c.go" "r2" (mkRange 1 0 1 4 "" "R2" "" []));
    [by apply elem_of_singleton|vm_compute; reflexivity].
Defined.

Lemma patchData_apply_witness :
  ∃ rt' w',
    merge tenIDs anyOrder ["e.go"] fs7w rt0 (mkWorld base7w patch7w)
      = Done tt rt' w'
    ∧ mlookup (Documents (base w')) "c.go" = None
    ∧ mlookup (Documents (base w')) "e.go"
      = Some (mget (Documents (patch w')) "e.go")
    ∧ (getDefRef hashOne "R2" (Meta (base w')) (ResultChunks (base w'))).1
      = [mkLoc "dd" "r3"]
    ∧ ∀ loc,
        loc ∈ (getDefRef hashOne "R2" (Meta (base w')) (ResultChunks (base w'))).1 →
        fs7w !! ownerPath (getDefRef hashOne "R2" (Meta (base w'))
                                     (ResultChunks (base w'))).2 loc
        ≠ Some Deleted.
Proof.
  eexists _, _. split; [vm_compute; reflexivity|].
  lazymatch goal with
  | |- mlookup (Documents (base ?w0)) _ = _ ∧ _ => set (w' := w0)
  end.
  eassert (merge tenIDs anyOrder ["e.go"] fs7w rt0 (mkWorld base7w patch7w)
           = Done tt _ w') as Hrun by (vm_compute; reflexivity).
  destruct (patchData_apply hashOne (Some Unchanged) true tenIDs anyOrder
              ["e.go"] fs7w rt0 (mkWorld base7w patch7w) _ w' Hrun)
    as (Hgone & Hcopied & Hclean & _).
  - intros p Hp Hin. apply list_elem_of_singleton in Hin as ->.
    vm_compute in Hp. discriminate.
  - intros cid documentID. cbn [patch patch7w ResultChunks].
    unfold mget at 2, mlookup. cbn [mbind option_bind].
    destruct (decide (cid = 0)) as [->|Hcid].
    + rewrite lookup_singleton_eq. unfold mget, mlookup.
      cbn [default from_option id DocumentPaths mbind option_bind].
      destruct (decide (documentID = "pe")) as [->|Hd].
      * by rewrite lookup_singleton_eq.
      * by rewrite lookup_singleton_ne.
    + by rewrite lookup_singleton_ne.
  - split; [apply Hgone; vm_compute; reflexivity|].
    split; [apply Hcopied, elem_of_pathsToCopyOf; left; apply list_elem_of_here|].
    split; [vm_compute; reflexivity|].
    intros loc Hloc. apply (Hclean "R2" loc); [|exact Hloc].
    left. exists "c.go", "r2", (mkRange 1 0 1 4 "" "R2" "" []).
    split; [left; vm_compute; reflexivity|].
    split; [vm_compute; reflexivity|reflexivity].
Defined.

Lemma patchData_all_unchanged_witness :
  ∃ rt' w',
    merge tenIDs anyOrder [] fs78 rt0 (mkWorld base7 emptyBase) = Done tt rt' w'
    ∧ base w' = base7 ∧ patch w' = emptyBase.
Proof.
  apply (patchData_all_unchanged hashOne (Some Unchanged) true tenIDs anyOrder
           [] fs78 rt0 (mkWorld base7 emptyBase)).
  - intros p st. unfold fs78.
    intros [[_ <-]|[_ [_ <-]%lookup_singleton_Some]]%lookup_insert_Some; done.
  - reflexivity.
  - vm_compute. intros p Hp. exact Hp.
Defined.

Lemma mergeDefResults_order_witness :
  inOrder (xFirst 0%nat) (mkeys (Some threeDefs)) = ["x"; "y"; "z"]
  ∧ inOrder (zFirst 0%nat) (mkeys (Some threeDefs)) = ["z"; "y"; "x"]
  ∧ ∃ l,
      StronglySorted
        (λ i j, positionLe (mget (Some threeDefs) i) (mget (Some threeDefs) j)) l
      ∧ mergePath hashOne (Some Unchanged) true tenIDs xFirst fs2
          {[ "a.go"; "b.go" ]} "a.go" threeDefs rt0 (mkWorld emptyBase patch2)
        = foldM (λ _ defRngID,
                   mergeDefinition hashOne (Some Unchanged) true tenIDs xFirst fs2
                     {[ "a.go"; "b.go" ]} "a.go" (mget (Documents emptyBase) "a.go")
                     threeDefs defRngID)
                l tt (mkRT 0 1) (mkWorld emptyBase patch2)
      ∧ mergePath hashOne (Some Unchanged) true tenIDs zFirst fs2
          {[ "a.go"; "b.go" ]} "a.go" threeDefs rt0 (mkWorld emptyBase patch2)
        = foldM (λ _ defRngID,
                   mergeDefinition hashOne (Some Unchanged) true tenIDs zFirst fs2
                     {[ "a.go"; "b.go" ]} "a.go" (mget (Documents emptyBase) "a.go")
                     threeDefs defRngID)
                l tt (mkRT 0 1) (mkWorld emptyBase patch2).
Proof.
  split; [vm_compute; reflexivity|]. split; [vm_compute; reflexivity|].
  destruct (mergeDefResults_order hashOne (Some Unchanged) true tenIDs xFirst fs2
              {[ "a.go"; "b.go" ]} ∅ "a.go" threeDefs rt0
              (mkWorld emptyBase patch2) rt0 (mkWorld emptyBase patch2))
    as (_ & l & _ & _ & Hsorted & Hx & Hindep).
  exists l. split; [exact Hsorted|]. split; [exact Hx|].
  apply (λ H, Hindep H zFirst rt0 (mkWorld emptyBase patch2)).
  intros i j Hi Hj Hpos.
  eassert (mkeys (Some threeDefs) = _) as Hk by (vm_compute; reflexivity).
  rewrite Hk in Hi, Hj. set_unfold.
  destruct Hi as [->|[->|[->|[]]]]; destruct Hj as [->|[->|[->|[]]]];
    try done; vm_compute in Hpos; discriminate.
Defined.

Lemma getDefRef_total_witness :
  getDefRef hashOne "R" (mkMeta 1) (Some ∅) = ([], zero).
Proof.
  apply (proj1 (getDefRef_total hashOne "R" (mkMeta 1) (Some ∅))). reflexivity.
Defined.

Lemma patchData_returns_only_ID_error_witness :
  ∃ e rt' w',
    merge (idsFrom ["u0"; "u1"]) anyOrder ["a.go"; "b.go"] fs2 rt0
          (mkWorld emptyBase patch2) = Fail e rt' w'
    ∧ e = IDGenerationError.
Proof.
  destruct (merge (idsFrom ["u0"; "u1"]) anyOrder ["a.go"; "b.go"] fs2 rt0
                  (mkWorld emptyBase patch2))
    as [[] rt' w'|e rt' w'|] eqn:E;
    [vm_compute in E; discriminate| |vm_compute in E; discriminate].
  exists e, rt', w'. split; [reflexivity|].
  exact (patchData_returns_only_ID_error hashOne (Some Unchanged) true
           (idsFrom ["u0"; "u1"]) anyOrder ["a.go"; "b.go"] fs2 rt0
           (mkWorld emptyBase patch2) e rt' w' E).
Defined.

Lemma patchData_other_documents_untouched_witness :
  ∃ rt' w',
    merge tenIDs anyOrder ["c.go"] fs7 rt0 (mkWorld base7 patch7) = Done tt rt' w'
    ∧ mlookup (Documents (base w')) "d.go" = mlookup (Documents base7) "d.go".
Proof.
  eexists _, _. split; [vm_compute; reflexivity|].
  refine (proj2 (proj2 (patchData_other_documents_untouched hashOne (Some Unchanged)
                          true tenIDs anyOrder ["c.go"] fs7 rt0
                          (mkWorld base7 patch7) _ _ _)) "d.go" _ _).
  - vm_compute. reflexivity.
  - vm_compute. discriminate.
  - vm_compute. discriminate.
Defined.

Lemma removeRefsIn_lists_witness :
  ∃ rt' chunks',
    removeRefsIn hashOne anyOrder {["c.go"]} (Meta base7) (Documents base7)
                 rt0 (ResultChunks base7) = Done tt rt' chunks'
    ∧ (getDefRef hashOne "R2" (Meta base7) chunks').1
      = withoutPaths hashOne {["c.go"]} (Meta base7) (ResultChunks base7) "R2".
Proof.
  eexists _, _. split; [vm_compute; reflexivity|].
  refine (proj1 (proj2 (removeRefsIn_lists hashOne anyOrder {["c.go"]} (Meta base7)
                          (Documents base7) rt0 (ResultChunks base7) _ _ _)) "R2" _).
  - vm_compute. reflexivity.
  - exists "c.go", "r2", (mkRange 1 0 1 4 "" "R2" "" []).
    split; [by apply elem_of_singleton|]. split; vm_compute; reflexivity.
Defined.

Lemma unifyRangeIDs_changed_only_witness :
  ∃ rt', unify tenIDs anyOrder (Documents emptyBase) (Meta patch3) fs3 rt0
           (Documents patch3, ResultChunks patch3)
         = Done tt rt' (Documents patch3, ResultChunks patch3)
         ∧ nextID rt' = 1%nat.
Proof.
  pose proof (unifyRangeIDs_changed_only hashOne (Some Unchanged) tenIDs anyOrder
                (Documents emptyBase) (Meta patch3) fs3 rt0
                (Documents patch3) (ResultChunks patch3)) as H.
  destruct (unify tenIDs anyOrder (Documents emptyBase) (Meta patch3) fs3 rt0
              (Documents patch3, ResultChunks patch3))
    as [[] rt' s'|e rt' s'|] eqn:E; [|vm_compute in E; discriminate..].
  destruct H as [-> Hn].
  - intros path Hin.
    eassert (mkeys (Documents patch3) = _) as Hk by (vm_compute; reflexivity).
    rewrite Hk in Hin. apply list_elem_of_singleton in Hin. subst path.
    vm_compute. discriminate.
  - exists rt'. split; [reflexivity|]. rewrite Hn. vm_compute. reflexivity.
Defined.

Lemma unifyRangeIDs_error_witness :
  ∃ e rt' s',
    unify noIDs anyOrder (Documents base1) (Meta patch1) fs1 rt0
          (Documents patch1, ResultChunks patch1) = Fail e rt' s'
    ∧ (e = unequalUnmodifiedPathsErr ∨ e = IDGenerationError)
    ∧ s'.2 = ResultChunks patch1.
Proof.
  destruct (unify noIDs anyOrder (Documents base1) (Meta patch1) fs1 rt0
              (Documents patch1, ResultChunks patch1))
    as [[] rt' s'|e rt' s'|] eqn:E;
    [vm_compute in E; discriminate| |vm_compute in E; discriminate].
  exists e, rt', s'. split; [reflexivity|].
  exact (unifyRangeIDs_error hashOne (Some Unchanged) noIDs anyOrder
           (Documents base1) (Meta patch1) fs1 rt0
           (Documents patch1) (ResultChunks patch1) e rt' s' E).
Defined.

Lemma relabel_outcome_witness :
  ∃ res' rt' docs',
    relabel anyOrder "a.go" {[ "p1" := "b1" ]} ∅ rt0
            (Documents patch8ok, ResultChunks patch8ok)
      = Done res' rt' (docs', ResultChunks patch8ok)
    ∧ mlookup (Ranges (mget docs' "a.go")) "p1" = None
    ∧ mlookup (Ranges (mget docs' "a.go")) "b1" = Some plainRange.
Proof.
  destruct (relabel_outcome anyOrder "a.go" {[ "p1" := "b1" ]} ∅ rt0
              (Documents patch8ok) (ResultChunks patch8ok)
              {[ "p1" := plainRange ]})
    as (res' & rt' & docs' & Hrun & _ & _ & Hgone & Hnew & _).
  - vm_compute. reflexivity.
  - intros old old' new [Ho _]%lookup_singleton_Some [Ho' _]%lookup_singleton_Some.
    by subst old old'.
  - intros old new [Ho Hn]%lookup_singleton_Some [x Hx]. subst old new.
    apply lookup_singleton_Some in Hx as [Hx _]. discriminate.
  - exists res', rt', docs'. split; [exact Hrun|]. split.
    + apply Hgone. exists "b1". apply lookup_singleton_eq.
    + rewrite (Hnew "p1" "b1"); [vm_compute; reflexivity| |discriminate].
      apply lookup_singleton_eq.
Defined.

Lemma patchData_keeps_locations_witness :
  ∃ rt' w',
    merge tenIDs anyOrder ["c.go"] fs7 rt0 (mkWorld base7 patch7) = Done tt rt' w'
    ∧ [mkLoc "dd" "r3"]
      `sublist_of` (getDefRef hashOne "R9" (Meta (base w'))
                              (ResultChunks (base w'))).1.
Proof.
  eexists _, _. split; [vm_compute; reflexivity|].
  refine (proj2 (proj2 (patchData_keeps_locations hashOne (Some Unchanged) true
                          tenIDs anyOrder ["c.go"] fs7 rt0
                          (mkWorld base7 patch7) _ _ _ "R9"))).
  vm_compute. reflexivity.
Defined.

Lemma mergeDefResults_patch_ranges_witness :
  ∃ rt' w',
    mergeDefResults hashOne (Some Unchanged) true tenIDs anyOrder fs2
      {[ "a.go"; "b.go" ]}
      {[ "a.go" := {[ "ra" := mkRange 0 0 0 1 "D" "R" "" [] ]} ]}
      rt0 (mkWorld emptyBase patch2x) = Done tt rt' w'
    ∧ ∃ rngb rngx,
        mlookup (Ranges (mget (Documents (patch w')) "b.go")) "rb" = Some rngb
        ∧ position rngb = (5, 0, 5, 1)
        ∧ mlookup (Ranges (mget (Documents patch2x) "b.go")) "rx" = None
        ∧ mlookup (Ranges (mget (Documents (patch w')) "b.go")) "rx" = Some rngx
        ∧ position rngx = (0, 0, 0, 0).
Proof.
  eexists _, _. split; [vm_compute; reflexivity|].
  lazymatch goal with
  | |- ∃ _ _, mlookup (Ranges (mget (Documents (patch ?w0)) _)) _ = _ ∧ _ =>
      set (w' := w0)
  end.
  eassert (mergeDefResults hashOne (Some Unchanged) true tenIDs anyOrder fs2
             {[ "a.go"; "b.go" ]}
             {[ "a.go" := {[ "ra" := mkRange 0 0 0 1 "D" "R" "" [] ]} ]}
             rt0 (mkWorld emptyBase patch2x) = Done tt _ w')
    as Hrun by (vm_compute; reflexivity).
  destruct (mergeDefResults_patch_ranges hashOne (Some Unchanged) true tenIDs
              anyOrder fs2 {[ "a.go"; "b.go" ]}
              {[ "a.go" := {[ "ra" := mkRange 0 0 0 1 "D" "R" "" [] ]} ]}
              rt0 (mkWorld emptyBase patch2x) _ w' Hrun)
    as (_ & _ & _ & Hranges & Hfrom).
  destruct (Hranges "b.go" "rb" (mkRange 5 0 5 1 "D" "R" "" []))
    as (rngb & Hlk & Hpos & _); [vm_compute; reflexivity|].
  exists rngb. eexists. split; [exact Hlk|]. split; [exact Hpos|].
  split; [vm_compute; reflexivity|].
  eassert (mlookup (Ranges (mget (Documents (patch w')) "b.go")) "rx" = Some _)
    as Hx by (vm_compute; reflexivity).
  split; [exact Hx|].
  destruct (Hfrom "b.go" "rx" _ Hx) as [(rng & Hold & _)|(_ & Hzero & _)];
    [vm_compute in Hold; discriminate|exact Hzero].
Defined.

Lemma patchData_copies_ranges_witness :
  ∃ rt' w' rng',
    merge tenIDs anyOrder ["a.go"; "b.go"] fs2 rt0 (mkWorld emptyBase patch2)
      = Done tt rt' w'
    ∧ mlookup (Ranges (mget (Documents (base w')) "b.go")) "rb" = Some rng'
    ∧ position rng' = (5, 0, 5, 1).
Proof.
  eassert (∃ rt' w',
             merge tenIDs anyOrder ["a.go"; "b.go"] fs2 rt0
                   (mkWorld emptyBase patch2) = Done tt rt' w')
    as (rt' & w' & Hrun) by (eexists _, _; vm_compute; reflexivity).
  destruct (patchData_copies_ranges hashOne (Some Unchanged) true tenIDs anyOrder
              ["a.go"; "b.go"] fs2 rt0 (mkWorld emptyBase patch2) rt' w'
              "b.go" "rb" (mkRange 5 0 5 1 "D" "R" "" []))
    as (rng' & Hlk & Hpos & _).
  - exact Hrun.
  - vm_compute. reflexivity.
  - vm_compute. discriminate.
  - vm_compute. reflexivity.
  - exists rt', w', rng'. split; [exact Hrun|]. split; [exact Hlk|exact Hpos].
Defined.

Lemma unifyRangeIDs_unifies_witness :
  ∃ rt' docs' chunks',
    unify tenIDs anyOrder (Documents base8) (Meta patch8ok) fs1 rt0
          (Documents patch8ok, ResultChunks patch8ok)
      = Done tt rt' (docs', chunks')
    ∧ unifiedAt (Documents base8) (Documents patch8ok) docs' "a.go".
Proof.
  eexists _, _, _. split; [vm_compute; reflexivity|].
  eapply (unifyRangeIDs_unifies hashOne (Some Unchanged) tenIDs anyOrder
           (Documents base8) (Meta patch8ok) fs1 rt0
           (Documents patch8ok) (ResultChunks patch8ok)).
  - intros path Hin _.
    eassert (mkeys (Documents patch8ok) = _) as Hk by (vm_compute; reflexivity).
    rewrite Hk in Hin. apply list_elem_of_singleton in Hin. subst path.
    exists {[ "p1" := plainRange ]}. split; [vm_compute; reflexivity|].
    intros id Hid.
    eassert (mkeys (Ranges (mget (Documents base8) "a.go")) = _) as Hk'
      by (vm_compute; reflexivity).
    rewrite Hk' in Hid. apply list_elem_of_singleton in Hid. subst id.
    vm_compute. reflexivity.
  - vm_compute. reflexivity.
  - vm_compute. left.
  - vm_compute. reflexivity.
Defined.

Lemma patchData_error_keeps_documents_witness :
  ∃ e rt' w',
    merge (idsFrom ["u0"; "u1"]) anyOrder ["a.go"; "b.go"] fs2 rt0
          (mkWorld emptyBase patch2) = Fail e rt' w'
    ∧ Documents (base w') = Documents emptyBase.
Proof.
  destruct (merge (idsFrom ["u0"; "u1"]) anyOrder ["a.go"; "b.go"] fs2 rt0
                  (mkWorld emptyBase patch2))
    as [[] rt' w'|e rt' w'|] eqn:E;
    [vm_compute in E; discriminate| |vm_compute in E; discriminate].
  exists e, rt', w'. split; [reflexivity|].
  exact (proj1 (patchData_error_keeps_documents hashOne (Some Unchanged) true
                  (idsFrom ["u0"; "u1"]) anyOrder ["a.go"; "b.go"] fs2 rt0
                  (mkWorld emptyBase patch2) e rt' w' E)).
Defined.

Lemma patchData_no_panic_witness :
  merge tenIDs anyOrder ["b.go"] fs3 rt0 (mkWorld emptyBase patch3) ≠ Panic.
Proof.
  apply (patchData_no_panic hashOne (Some Unchanged) true tenIDs anyOrder
           ["b.go"] fs3 rt0 (mkWorld emptyBase patch3)).
  - intros id. exists emptyChunk, ∅, ∅. split_and!; reflexivity.
  - intros id. eexists _, _. split; reflexivity.
  - intros p [Hp|Hp]%elem_of_pathsToCopyOf.
    + apply list_elem_of_singleton in Hp. subst p.
      eexists. vm_compute. reflexivity.
    + unfold fs3 in Hp. apply lookup_singleton_Some in Hp as [Hp _]. subst p.
      eexists. vm_compute. reflexivity.
  - eexists. reflexivity.
Defined.

Lemma mergeDefinition_references_witness :
  ∃ rt' w' documentID,
    mergeDefinition hashOne (Some Unchanged) true tenIDs anyOrder fs2
      {[ "a.go"; "b.go" ]} "a.go" (mget (Documents emptyBase) "a.go")
      {[ "ra" := mkRange 0 0 0 1 "D" "R" "" [] ]} "ra"
      rt0 (mkWorld emptyBase patch2) = Done tt rt' w'
    ∧ (getDefRef hashOne "u1" (Meta emptyBase) (ResultChunks (base w'))).1
      = [mkLoc documentID "ra"; mkLoc documentID "rb"].
Proof.
  eassert (∃ rt' w',
             mergeDefinition hashOne (Some Unchanged) true tenIDs anyOrder fs2
               {[ "a.go"; "b.go" ]} "a.go" (mget (Documents emptyBase) "a.go")
               {[ "ra" := mkRange 0 0 0 1 "D" "R" "" [] ]} "ra"
               rt0 (mkWorld emptyBase patch2) = Done tt rt' w')
    as (rt' & w' & Hrun) by (eexists _, _; vm_compute; reflexivity).
  pose proof (mergeDefinition_references hashOne (Some Unchanged) true tenIDs
                anyOrder fs2 {[ "a.go"; "b.go" ]} "a.go"
                (mget (Documents emptyBase) "a.go")
                {[ "ra" := mkRange 0 0 0 1 "D" "R" "" [] ]} "ra"
                rt0 (mkWorld emptyBase patch2) rt' w' Hrun) as H.
  cbv zeta in H. destruct H as (defID & refID & rt1 & documentID & Hc & Hl).
  vm_compute in Hc. injection Hc as <- <- <-.
  exists rt', w', documentID. split; [exact Hrun|].
  change (Meta emptyBase) with (Meta (base (mkWorld emptyBase patch2))).
  rewrite Hl by discriminate. vm_compute. reflexivity.
Defined.

End samples.
